(** * imresh: shrink-wrap phase retrieval — a shallow embedding of the core

    The development follows the C++ sources:
    - [src/imresh/libs/calcGaussianKernel.tpp]  (kernel builders),
    - [src/imresh/algorithms/shrinkWrap.cpp]     (FFTW driver),
    - [src/imresh/algorithms/cuda/cudaShrinkWrap.cpp] (accelerator driver),
    - [tests/imresh/algorithms/testVectorReduce.cpp]  (reduction tests).

    C [float] and [double] values are IEEE-754 binary32 and binary64 numbers,
    represented by [spec_float] with the operations of [SpecFloat]
    (round to nearest, ties to even).  Arrays are lists indexed from 0. *)

From stdpp Require Import base list.
From Stdlib Require Import ZArith NArith Lia Floats.SpecFloat.

Local Open Scope Z_scope.

(** ** IEEE-754 arithmetic as used by the C++ code *)

Module Ieee.

Definition float := spec_float.

Record format := Format { fmt_prec : Z; fmt_emax : Z }.

(** C [float]. *)
Definition binary32 := Format 24 128.
(** C [double]. *)
Definition binary64 := Format 53 1024.

Section Ops.
Variable fmt : format.

Definition add : float -> float -> float := SFadd (fmt_prec fmt) (fmt_emax fmt).
Definition sub : float -> float -> float := SFsub (fmt_prec fmt) (fmt_emax fmt).
Definition mul : float -> float -> float := SFmul (fmt_prec fmt) (fmt_emax fmt).
Definition div : float -> float -> float := SFdiv (fmt_prec fmt) (fmt_emax fmt).
Definition sqrt : float -> float := SFsqrt (fmt_prec fmt) (fmt_emax fmt).

(** Conversion of an integer, e.g. of an [int] operand of [*] or [==]. *)
Definition of_Z (z : Z) : float :=
  binary_normalize (fmt_prec fmt) (fmt_emax fmt) z 0 false.

(** Conversion from another floating-point format ([T_Prec( x )], and
    the implicit conversions at assignments and mixed operations). *)
Definition convert (x : float) : float :=
  match x with
  | S754_finite s m e => binary_round (fmt_prec fmt) (fmt_emax fmt) s m e
  | _ => x
  end.

(** A decimal literal [num / 10^digits], correctly rounded. *)
Definition literal (num : positive) (digits : Z) : float :=
  div (S754_finite false num 0)
      (S754_finite false (Z.to_pos (10 ^ digits)) 0).

Definition valid (x : float) : bool :=
  valid_binary (fmt_prec fmt) (fmt_emax fmt) x.
End Ops.

Definition opp : float -> float := SFopp.
Definition eqb : float -> float -> bool := SFeqb.
Definition ltb : float -> float -> bool := SFltb.
Definition leb : float -> float -> bool := SFleb.

Definition is_nan (x : float) : bool :=
  match x with S754_nan => true | _ => false end.

(** [fmax] of <cmath>: a NaN argument is treated as missing data. *)
Definition fmax (x y : float) : float :=
  match x, y with
  | S754_nan, _ => y
  | _, S754_nan => x
  | _, _ => if ltb x y then y else x
  end.

(** [ceil] on a double. *)
Definition ceil (fmt : format) (x : float) : float :=
  match x with
  | S754_finite s m e =>
      if 0 <=? e then x
      else
        let q := if s then - (Zpos m / 2 ^ (- e))
                 else - ((- Zpos m) / 2 ^ (- e)) in
        binary_normalize (fmt_prec fmt) (fmt_emax fmt) q 0 s
  | _ => x
  end.

(** Truncation toward zero of a finite value. *)
Definition trunc (x : float) : option Z :=
  match x with
  | S754_zero _ => Some 0
  | S754_finite s m e =>
      Some (cond_Zopp s (if 0 <=? e then Zpos m * 2 ^ e
                         else Zpos m / 2 ^ (- e)))
  | _ => None
  end.

(** Conversion [double -> int]; the behaviour is undefined ([None]) when
    the truncated value is not representable. *)
Definition to_int (x : float) : option Z :=
  match trunc x with
  | Some z => if (- 2 ^ 31 <=? z) && (z <? 2 ^ 31) then Some z else None
  | None => None
  end.

(** [exp] of <cmath>.  The library function is not part of the repository:
    its values at finite non-zero arguments are the parameter [exp_fin];
    its special values are those of C Annex F (exp(+-0) = 1,
    exp(-inf) = +0, exp(+inf) = +inf, a NaN propagates). *)
Definition c_exp (exp_fin : float -> float) (x : float) : float :=
  match x with
  | S754_nan => S754_nan
  | S754_infinity true => S754_zero false
  | S754_infinity false => x
  | S754_zero _ => of_Z binary64 1
  | S754_finite _ _ _ => exp_fin x
  end.

End Ieee.

Export Ieee(float).

#[global] Instance float_inhabited : Inhabited float := populate (S754_zero false).

(** Single precision, the type of every image buffer. *)
Module F32.
Definition add := Ieee.add Ieee.binary32.
Definition sub := Ieee.sub Ieee.binary32.
Definition mul := Ieee.mul Ieee.binary32.
Definition div := Ieee.div Ieee.binary32.
Definition sqrt := Ieee.sqrt Ieee.binary32.
Definition of_Z := Ieee.of_Z Ieee.binary32.
Definition valid := Ieee.valid Ieee.binary32.
(** A [double] literal or value stored into a [float]. *)
Definition of_double := Ieee.convert Ieee.binary32.
Definition zero : float := S754_zero false.
Definition one : float := Eval vm_compute in of_Z 1.
End F32.

(** Double precision, the type of literals and of the kernel builder. *)
Module F64.
Definition add := Ieee.add Ieee.binary64.
Definition sub := Ieee.sub Ieee.binary64.
Definition mul := Ieee.mul Ieee.binary64.
Definition div := Ieee.div Ieee.binary64.
Definition sqrt := Ieee.sqrt Ieee.binary64.
Definition of_Z := Ieee.of_Z Ieee.binary64.
Definition literal := Ieee.literal Ieee.binary64.
Definition valid := Ieee.valid Ieee.binary64.
(** A [float] operand promoted to [double] (always exact). *)
Definition of_float := Ieee.convert Ieee.binary64.
Definition zero : float := S754_zero false.
Definition one : float := Eval vm_compute in of_Z 1.
End F64.


(** ** Outcomes of a call *)

(** A C++ call either returns, is aborted by a failing [assert], or has
    undefined behaviour (an access outside a buffer, a conversion whose
    value is not representable). *)
Inductive result (A : Type) : Type :=
| Ok (a : A)
| AssertionFailed
| Undefined.
Arguments Ok {A} a.
Arguments AssertionFailed {A}.
Arguments Undefined {A}.

Definition result_bind {A B} (r : result A) (k : A -> result B) : result B :=
  match r with
  | Ok a => k a
  | AssertionFailed => AssertionFailed
  | Undefined => Undefined
  end.

Notation "x <- r ;; k" := (result_bind r (fun x => k))
  (at level 100, r at next level, right associativity).

(** [assert( c )]: checked unless the unit is compiled with [NDEBUG]. *)
Definition c_assert (NDEBUG : bool) (c : bool) : result unit :=
  if NDEBUG || c then Ok tt else AssertionFailed.

(** Machine integers: [unsigned] arithmetic is reduced modulo 2^32. *)
Definition wrap_unsigned (z : Z) : Z := z mod 2 ^ 32.
(** The value of an arithmetic expression of type [int]: outside the
    range of the type the behaviour is undefined (signed overflow). *)
Definition int_value (z : Z) : result Z :=
  if (- 2 ^ 31 <=? z) && (z <? 2 ^ 31) then Ok z else Undefined.

(** [for ( unsigned i = 0; i < n; ++i ) body], the state being whatever the
    body updates. *)
Definition for_range {S : Type} (n : nat) (body : nat -> S -> S) (s : S) : S :=
  foldl (fun s i => body i s) s (seq 0 n).

(** An elementwise in-place loop: iteration [i] replaces [data[i]] by a
    value computed from [i] and from [data[i]]. *)
Definition for_each {A : Type} `{Inhabited A} (n : nat) (f : nat -> A -> A)
    (data : list A) : list A :=
  for_range n (fun i data => <[i := f i (data !!! i)]> data) data.

(** Complex numbers as [fftwf_complex] and [cufftComplex] store them:
    real part first. *)
Definition complex : Type := float * float.
Definition Re (z : complex) : float := z.1.
Definition Im (z : complex) : float := z.2.

(** ** libs/calcGaussianKernel.tpp *)

Module GaussianKernel.

(** [M_PI], the fallback definition of the source file. *)
Definition M_PI : float :=
  Eval vm_compute in F64.literal 3141592653589793238462643383279502884 36.

(** The constant 2.884402748387961466 of the half-width formula. *)
Definition halfWidthFactor : float :=
  Eval vm_compute in F64.literal 2884402748387961466 18.

Section Builder.
(** Compilation with [NDEBUG] removes the assertions. *)
Variable NDEBUG : bool.
(** The template parameter [T_Prec]. *)
Variable T_Prec : Ieee.format.
(** The values of <cmath>'s [exp] at finite non-zero arguments. *)
Variable exp_fin : float -> float.

(** [ceil( 2.884402748387961466 * rSigma - 0.5 )], still a double. *)
Definition halfWidth (rSigma : float) : float :=
  Ieee.ceil Ieee.binary64
    (F64.sub (F64.mul halfWidthFactor rSigma) (F64.literal 5 1)).

(** [a = 1.0/( sqrt(2.0*M_PI)*rSigma )] *)
Definition coeff_a (rSigma : float) : float :=
  F64.div F64.one (F64.mul (F64.sqrt (F64.mul (F64.of_Z 2) M_PI)) rSigma).

(** [b = -1.0/( 2.0*rSigma*rSigma )] *)
Definition coeff_b (rSigma : float) : float :=
  F64.div (Ieee.opp F64.one) (F64.mul (F64.mul (F64.of_Z 2) rSigma) rSigma).

(** [T_Prec( a*exp( sq*b ) )], for the value [sq] of [i*i]. *)
Definition weightOf (a b : float) (sq : Z) : float :=
  Ieee.convert T_Prec
    (F64.mul a (Ieee.c_exp exp_fin (F64.mul (F64.of_Z sq) b))).

(** [T_Prec( a*exp( i*i*b ) )]: [i] is an [int], and so is [i*i]. *)
Definition weight (a b : float) (i : Z) : result float :=
  sq <- int_value (i * i) ;;
  Ok (weightOf a b sq).

(** The value of the loop variable [i] at iteration [k] of
    [for ( int i = -nNeighbors; i <= nNeighbors; ++i )]. *)
Definition loopVar (nNeighbors : Z) (k : nat) : Z := - nNeighbors + Z.of_nat k.

Definition nIterations (nNeighbors : Z) : nat := Z.to_nat (2 * nNeighbors + 1).

(** The body of the first loop at iteration [k]; the state is the
    buffer with the running sum. *)
Definition fillWeight (a b : float) (nNeighbors : Z) (k : nat)
    (st : result (list float * float)) : result (list float * float) :=
  s <- st ;;
  let i := loopVar nNeighbors k in
  w <- weight a b i ;;
  Ok (<[Z.to_nat (nNeighbors + i) := w]> s.1, F64.add s.2 (F64.of_float w)).

(** First loop: store the weights and accumulate their sum in a double. *)
Definition fillWeights (a b : float) (nNeighbors : Z) (rWeights : list float)
  : result (list float * float) :=
  for_range (nIterations nNeighbors) (fillWeight a b nNeighbors)
    (Ok (rWeights, F64.zero)).

(** Second loop: [rWeights[nNeighbors+i] /= sumWeightings]. *)
Definition normalizeWeights (nNeighbors : Z) (sumWeightings : float)
    (rWeights : list float) : list float :=
  for_range (nIterations nNeighbors)
    (fun k rWeights =>
       let i := loopVar nNeighbors k in
       let j := Z.to_nat (nNeighbors + i) in
       <[j := Ieee.convert T_Prec
                (F64.div (F64.of_float (rWeights !!! j)) sumWeightings)]> rWeights)
    rWeights.

(** [calcGaussianKernel( rSigma, rWeights, rnWeights, rMinAbsoluteError )].
    [rWeights] is [None] for a null pointer and otherwise the buffer the
    pointer designates; the result is the returned length together
    with the buffer after the call. *)
Definition calcGaussianKernel (rSigma : float) (rWeights : option (list float))
    (rnWeights : Z) (rMinAbsoluteError : float)
  : result (Z * option (list float)) :=
  _ <- c_assert NDEBUG (bool_decide (rWeights <> None)) ;;
  _ <- c_assert NDEBUG (Ieee.ltb F64.zero rMinAbsoluteError) ;;
  _ <- c_assert NDEBUG (Ieee.leb F64.zero rSigma) ;;
  match Ieee.to_int (halfWidth rSigma) with
  | None => Undefined
  | Some nNeighbors =>
      twice <- int_value (2 * nNeighbors) ;;
      nWeights <- int_value (twice + 1) ;;
      _ <- c_assert NDEBUG (0 <? nWeights) ;;
      match rWeights with
      | None => Ok (nWeights, None)
      | Some buffer =>
          if rnWeights <? wrap_unsigned nWeights then Ok (nWeights, rWeights)
          else if Z.of_nat (length buffer) <? nWeights then Undefined
          else
            let a := coeff_a rSigma in
            let b := coeff_b rSigma in
            filled <- fillWeights a b nNeighbors buffer ;;
            Ok (nWeights, Some (normalizeWeights nNeighbors filled.2 filled.1))
      end
  end.
End Builder.

Section Builder2d.
Variable NDEBUG : bool.
(** The weight stored for pixel (ix, iy).  Its formula goes through
    [std::abs] of an [unsigned] difference, whose overload is chosen by
    the standard library at hand; the value is kept as a parameter. *)
Variable weight2d : float -> Z -> Z -> Z -> Z -> Z -> Z -> float.

(** A buffer access: the behaviour is undefined outside the buffer. *)
Definition store (i : Z) (v : float) (buffer : list float) : result (list float) :=
  if (0 <=? i) && (i <? Z.of_nat (length buffer))
  then Ok (<[Z.to_nat i := v]> buffer) else Undefined.

Definition load (i : Z) (buffer : list float) : result float :=
  if (0 <=? i) && (i <? Z.of_nat (length buffer))
  then Ok (buffer !!! Z.to_nat i) else Undefined.

(** The state of the function: the buffer, the running sum, and the
    indices of [rWeights] accessed so far (latest first). *)
Record state2d := State2d
  { weights2d : list float; sum2d : float; accessed2d : list Z }.

(** Body of the double loop at (ix, iy). *)
Definition fillStep (rSigma : float) (rCenterX rCenterY rnWeightsX rnWeightsY : Z)
    (ix iy : Z) (st : result state2d) : result state2d :=
  s <- st ;;
  let w := weight2d rSigma rCenterX rCenterY rnWeightsX rnWeightsY ix iy in
  let index := wrap_unsigned (iy * rnWeightsX + ix) in
  buffer <- store index w (weights2d s) ;;
  Ok (State2d buffer (F64.add (sum2d s) (F64.of_float w))
              (index :: accessed2d s)).

(** Body of the final loop: [rWeights[i] /= sumWeightings]. *)
Definition normalizeStep (T_Prec : Ieee.format) (i : Z) (st : result state2d)
  : result state2d :=
  s <- st ;;
  v <- load i (weights2d s) ;;
  buffer <- store i (Ieee.convert T_Prec (F64.div (F64.of_float v) (sum2d s)))
                  (weights2d s) ;;
  Ok (State2d buffer (sum2d s) (i :: accessed2d s)).

(** [calcGaussianKernel2d( rSigma, rCenterX, rCenterY, rWeights,
    rnWeightsX, rnWeightsY )] on a non-null buffer.

    The final loop is [for ( auto i = 0u; i <= rnWeightsX * rnWeightsY; ++i )].
    When the product is the largest [unsigned], 2^32 - 1, the condition
    holds for every value of the counter, which wraps to 0: the loop
    never ends.  It leaves the buffer first, or else runs forever
    without input, output, volatile or atomic access, which C++ leaves
    undefined as well. *)
Definition calcGaussianKernel2d (T_Prec : Ieee.format) (rSigma : float)
    (rCenterX rCenterY : Z) (rWeights : list float) (rnWeightsX rnWeightsY : Z)
  : result state2d :=
  _ <- c_assert NDEBUG (Ieee.leb F64.zero rSigma) ;;
  _ <- c_assert NDEBUG (0 <=? rnWeightsX) ;;
  _ <- c_assert NDEBUG (0 <=? rnWeightsY) ;;
  _ <- c_assert NDEBUG (rCenterX <=? rnWeightsX) ;;
  _ <- c_assert NDEBUG (rCenterY <=? rnWeightsY) ;;
  let filled :=
    for_range (Z.to_nat rnWeightsX)
      (fun ix st =>
         for_range (Z.to_nat rnWeightsY)
           (fun iy st =>
              fillStep rSigma rCenterX rCenterY rnWeightsX rnWeightsY
                       (Z.of_nat ix) (Z.of_nat iy) st)
           st)
      (Ok (State2d rWeights F64.zero [])) in
  let last := wrap_unsigned (rnWeightsX * rnWeightsY) in
  if last =? 2 ^ 32 - 1 then
    _ <- filled ;; Undefined
  else
    for_range (S (Z.to_nat last))
      (fun i st => normalizeStep T_Prec (Z.of_nat i) st)
      filled.
End Builder2d.

End GaussianKernel.

(** ** Elementwise operators and reductions

    [algorithms/vectorElementwise.hpp], [algorithms/vectorReduce.hpp] and
    [libs/hybridInputOutput.hpp] are included by the drivers and exercised
    by the tests, but their bodies are not among the sources at hand (the
    header [cudaVectorElementwise.hpp] only declares the kernels). *)

Module Elementwise.

(** Modelled from the spec: the body of [complexNormElementwise] /
    [cudaKernelComplexNormElementwise] is missing; per pixel
    [dst[i] = |src[i]|] with the modulus [sqrt(Re^2 + Im^2)]. *)
Definition complexNorm (z : complex) : float :=
  F32.sqrt (F32.add (F32.mul (Re z) (Re z)) (F32.mul (Im z) (Im z))).

Definition complexNormElementwise (rDataSource : list complex) (rnElements : nat)
  : list float :=
  map (fun i => complexNorm (rDataSource !!! i)) (seq 0 rnElements).

(** Modelled from the spec: the body of [applyComplexModulus] /
    [cudaKernelApplyComplexModulus] is missing; per pixel, if
    [|src[i]| > 0] then [dst[i] = src[i] * (amplitude[i] / |src[i]|)],
    and the zero vector is replaced by [amplitude[i] + 0i]. *)
Definition complexModulusPixel (src : complex) (amplitude : float) : complex :=
  let norm := complexNorm src in
  if Ieee.ltb F32.zero norm then
    let factor := F32.div amplitude norm in
    (F32.mul (Re src) factor, F32.mul (Im src) factor)
  else (amplitude, F32.zero).

Definition applyComplexModulus (rDataSource : list complex)
    (rComplexModulus : list float) (rnElements : nat) : list complex :=
  for_each rnElements
    (fun i src => complexModulusPixel src (rComplexModulus !!! i))
    rDataSource.

(** Modelled from the spec: the body of [cudaKernelCutOff] is missing;
    [data[i] = (data[i] < threshold) ? low : high].  The FFTW driver has
    the same loop inline, with the values 1 and 0. *)
Definition cutOff (rData : list float) (rnElements : nat)
    (rThreshold rLowerValue rUpperValue : float) : list float :=
  for_each rnElements
    (fun _ v => if Ieee.ltb v rThreshold then rLowerValue else rUpperValue)
    rData.

(** One pixel of the HIO domain constraint, as written in the inner loop
    of [shrinkWrap]:
    [if ( isMasked[i] == 1 or curData[i][0] < 0 )] subtract
    [rHioBeta * curData[i]] from [gPrevious[i]], else copy [curData[i]]. *)
Definition hioPixel (rHioBeta : float) (isMasked : float) (gPrime : complex)
    (gPrevious : complex) : complex :=
  if Ieee.eqb isMasked F32.one || Ieee.ltb (Re gPrime) F32.zero then
    (F32.sub (Re gPrevious) (F32.mul rHioBeta (Re gPrime)),
     F32.sub (Im gPrevious) (F32.mul rHioBeta (Im gPrime)))
  else gPrime.

(** The loop over all pixels ([cudaKernelApplyHioDomainConstraints] is
    declared with the same arguments). *)
Definition applyHioDomainConstraints (rgPrevious : list complex)
    (rgPrime : list complex) (rIsMasked : list float) (rnElements : nat)
    (rHioBeta : float) : list complex :=
  for_each rnElements
    (fun i g => hioPixel rHioBeta (rIsMasked !!! i) (rgPrime !!! i) g)
    rgPrevious.

(** [curData[i][0] = rIntensity[i]; curData[i][1] = 0;]
    ([cudaKernelCopyToRealPart]). *)
Definition copyToRealPart (rSourceReal : list float) (rnElements : nat)
    (rTargetComplex : list complex) : list complex :=
  for_each rnElements (fun i _ => (rSourceReal !!! i, F32.zero)) rTargetComplex.

(** [rIntensity[i] = curData[i][0];] ([cudaKernelCopyFromRealPart]). *)
Definition copyFromRealPart (rSourceComplex : list complex) (rnElements : nat)
    (rTargetReal : list float) : list float :=
  for_each rnElements (fun i _ => Re (rSourceComplex !!! i)) rTargetReal.

End Elementwise.

Module Reduce.

(** Modelled from the spec: the body of [calculateHioError] /
    [cudaCalculateHioError] is missing.  The six-argument form used by
    [testCalculateHioError] returns through two [float] out-parameters
    the sum of the moduli of the masked pixels and their number.  The
    invert flag swaps the roles of 0 and 1. *)
Definition isMaskedPixel (rInvertMask : bool) (m : float) : bool :=
  if rInvertMask then Ieee.eqb m F32.zero else Ieee.eqb m F32.one.

(** The order in which a reduction adds its terms is not laid down
    (the specification lets a tree reduction suffice, and the test runs
    the reduction on several blocks of threads): it is a tree over the
    pixel indices, [Nothing] standing for the neutral value 0. *)
Inductive reduction :=
| Nothing
| Pixel (i : nat)
| Plus (l r : reduction).

Fixpoint pixelsOf (order : reduction) : list nat :=
  match order with
  | Nothing => []
  | Pixel i => [i]
  | Plus l r => pixelsOf l ++ pixelsOf r
  end.

(** The single-precision sum of the terms, added as [order] says. *)
Fixpoint reduce (term : nat -> float) (order : reduction) : float :=
  match order with
  | Nothing => F32.zero
  | Pixel i => term i
  | Plus l r => F32.add (reduce term l) (reduce term r)
  end.

(** The term of a pixel: [value] if the pixel is masked, 0 otherwise. *)
Definition maskedTerm (rIsMasked : list float) (rInvertMask : bool)
    (value : nat -> float) (i : nat) : float :=
  if isMaskedPixel rInvertMask (rIsMasked !!! i) then value i else F32.zero.

(** [totalError] and [nMaskedPixels], each added in an order of its
    own over the pixels below [rnElements]. *)
Definition calculateHioError (orderError orderCount : reduction)
    (rData : list complex) (rIsMasked : list float) (rInvertMask : bool)
  : float * float :=
  (reduce (maskedTerm rIsMasked rInvertMask
             (fun i => Elementwise.complexNorm (rData !!! i))) orderError,
   reduce (maskedTerm rIsMasked rInvertMask (fun _ => F32.one)) orderCount).

(** The pixels below [rnElements] in index order, one after the other. *)
Definition sequential (rnElements : nat) : reduction :=
  for_range rnElements (fun i order => Plus order (Pixel i)) Nothing.

(** Modelled from the spec: the three-argument form called by the
drivers is missing; the convergence test compares the sum of the moduli
at the masked pixels with the target error.  This instance adds in
index order. *)
Definition hioError (rData : list complex) (rIsMasked : list float)
    (rnElements : nat) : float :=
  (calculateHioError (sequential rnElements) (sequential rnElements)
     rData rIsMasked false).1.

(** Modelled from the spec: the body of [vectorMax] / [cudaVectorMax] is
missing; [max(x, N)] returns the exact maximum of the first N elements. *)
Definition vectorMax (rData : list float) (rnElements : nat) : float :=
  for_range rnElements
    (fun i m => if Ieee.ltb m (rData !!! i) then rData !!! i else m)
    (rData !!! 0%nat).

End Reduce.

(** ** The shrink-wrap drivers *)

Module ShrinkWrap.

(** The parameter block shared by both drivers. *)
Record parameters := Parameters
  { rnCycles : Z;
    rTargetError : float;
    rHioBeta : float;
    rIntensityCutOffAutoCorel : float;
    rIntensityCutOff : float;
    rSigma0 : float;
    rSigmaChange : float;
    rnHioCycles : Z }.

(** The working buffers and the blur scale. *)
Record buffers := Buffers
  { curData : list complex;
    gPrevious : list complex;
    isMasked : list float;
    sigma : float }.

(** What a call leaves behind of the outer loop: for every executed
    cycle, the buffers at the top of the loop body, at the entry of the
    inner HIO loop, and after it. *)
Record cycle_record := CycleRecord
  { cr_index : Z;
    cr_start : buffers;
    cr_hio_entry : buffers;
    cr_end : buffers }.

(** Files of the debugging code and lines printed to [std::cout]. *)
Inductive event :=
| WroteInitMaskBlurred (mask : list float)
| WroteInitMask (mask : list float)
| WroteMaskBlurred (iCycle : Z) (mask : list float)
| WroteMaskBlurredLogScale (iCycle : Z)
| WroteMask (iCycle : Z) (mask : list float)
| WroteIntensity (iCycle : Z) (iHioCycle : nat)
| WroteObject (iCycle : Z) (iHioCycle : nat)
| WroteCycleObject (iCycle : Z)
| PrintedUpdateMask (sigma : float)
| PrintedError (currentError rTargetError : float) (iCycle lastCycle : Z).

(** The observable effects of a call. *)
Record effects := Effects
  { ioData : option (list float);   (* the caller's buffer; [None]: null *)
    nAllocations : nat;             (* buffers allocated by the call *)
    output : list event;
    history : list cycle_record }.

Inductive outcome :=
| Returned (status : Z) (e : effects)
| Aborted (e : effects)             (* a failing [assert] *)
| UndefinedBehaviour.

(** The literals assigned to unset parameters, converted to [float]. *)
Definition default_rTargetError : float := Eval vm_compute in F32.of_double (F64.literal 1 5).
Definition default_rHioBeta : float := Eval vm_compute in F32.of_double (F64.literal 9 1).
Definition default_rIntensityCutOffAutoCorel : float :=
  Eval vm_compute in F32.of_double (F64.literal 4 2).
Definition default_rIntensityCutOff : float := Eval vm_compute in F32.of_double (F64.literal 2 1).
Definition default_rSigma0 : float := Eval vm_compute in F32.of_double (F64.literal 30 1).
Definition default_rSigmaChange : float := Eval vm_compute in F32.of_double (F64.literal 1 2).

(** [if ( x <= 0 ) x = d;] *)
Definition orDefault (x d : float) : float := if Ieee.leb x F32.zero then d else x.
(** [if ( n == 0 ) n = d;] *)
Definition orDefaultCount (n d : Z) : Z := if n =? 0 then d else n.

Section Drivers.
(** Compilation with [NDEBUG] removes the assertions. *)
Variable NDEBUG : bool.

(** The facilities the drivers consume; their bodies are not part of
    the sources. *)
(** FFTW / liFFT plans: inverse in place on [curData], forward from
    [gPrevious] into [curData]; the first argument is the shape. *)
Variable fftToRealSpace : list Z -> list complex -> list complex.
Variable fftToFreqSpace : list Z -> list complex -> list complex.
(** [complexNormElementwise( isMasked, curData, nElements )] *)
Variable complexNormElementwise : list complex -> nat -> list float.
(** [libs::gaussianBlur( isMasked, Nx, Ny, sigma )] / [cudaGaussianBlur] *)
Variable gaussianBlur : list float -> Z -> Z -> float -> list float.
(** [vectorMax( isMasked, nElements )] / [cudaVectorMax] *)
Variable vectorMax : list float -> nat -> float.
(** [applyComplexModulus( curData, curData, rIntensity, nElements )] *)
Variable applyComplexModulus : list complex -> list float -> nat -> list complex.
(** [calculateHioError( curData, isMasked, nElements )], the form
    returning the error. *)
Variable calculateHioError : list complex -> list float -> nat -> float.

(** *** Pieces common to both drivers *)

(** [complexNormElementwise] then [gaussianBlur] with the current sigma. *)
Definition blurredNorm (Nx Ny : Z) (nElements : nat) (b : buffers) : list float :=
  gaussianBlur (complexNormElementwise (curData b) nElements) Nx Ny (sigma b).

(** [threshold = cutOff * absMax; isMasked[i] = isMasked[i] < threshold ? 1 : 0] *)
Definition thresholdMask (nElements : nat) (cutOff : float) (blurred : list float)
  : list float :=
  let absMax := vectorMax blurred nElements in
  let threshold := F32.mul cutOff absMax in
  Elementwise.cutOff blurred nElements threshold F32.one F32.zero.

(** One pass of the inner loop: domain constraints, forward transform,
    modulus projection, inverse transform. *)
Definition hioStep (shape : list Z) (nElements : nat) (intensity : list float)
    (beta : float) (b : buffers) : buffers :=
  let g := Elementwise.applyHioDomainConstraints
             (gPrevious b) (curData b) (isMasked b) nElements beta in
  let G := fftToFreqSpace shape g in
  let G' := applyComplexModulus G intensity nElements in
  Buffers (fftToRealSpace shape G') g (isMasked b) (sigma b).

Definition hioLoop (shape : list Z) (nElements : nat) (intensity : list float)
    (beta : float) (nHioCycles : Z) (b : buffers) : buffers :=
  for_range (Z.to_nat nHioCycles)
    (fun _ b => hioStep shape nElements intensity beta b) b.

Definition hioEvents (iCycle : Z) (nHioCycles : Z) : list event :=
  flat_map (fun iHio => [WroteIntensity iCycle iHio; WroteObject iCycle iHio])
           (seq 0 (Z.to_nat nHioCycles)).

(** *** [shrinkWrap] of algorithms/shrinkWrap.cpp *)

Definition shrinkWrapDefaults (p : parameters) : parameters :=
  Parameters
    (rnCycles p)
    (orDefault (rTargetError p) default_rTargetError)
    (orDefault (rHioBeta p) default_rHioBeta)
    (orDefault (rIntensityCutOffAutoCorel p) default_rIntensityCutOffAutoCorel)
    (orDefault (rIntensityCutOff p) default_rIntensityCutOff)
    (orDefault (rSigma0 p) default_rSigma0)
    (orDefault (rSigmaChange p) default_rSigmaChange)
    (orDefaultCount (rnHioCycles p) 20).

(** [sigma = fmax( 1.5, ( 1 - rSigmaChange ) * sigma )]: the product is
    a [float], [fmax] is taken on doubles and stored into a [float]. *)
Definition shrinkWrapNextSigma (rSigmaChange sigma : float) : float :=
  F32.of_double
    (Ieee.fmax (F64.literal 15 1)
       (F64.of_float (F32.mul (F32.sub (F32.of_Z 1) rSigmaChange) sigma))).

(** The body of the outer loop up to the entry of the inner loop. *)
Definition shrinkWrapUpdateMask (Nx Ny : Z) (nElements : nat) (p : parameters)
    (b : buffers) : buffers :=
  let mask := thresholdMask nElements (rIntensityCutOff p)
                (blurredNorm Nx Ny nElements b) in
  Buffers (curData b) (gPrevious b) mask
          (shrinkWrapNextSigma (rSigmaChange p) (sigma b)).

Fixpoint shrinkWrapCycles (remaining : nat) (iCycle : Z) (Nx Ny : Z)
    (nElements : nat) (intensity : list float) (p : parameters)
    (b : buffers) (out : list event) (hist : list cycle_record)
  : buffers * list event * list cycle_record :=
  match remaining with
  | O => (b, out, hist)
  | S remaining' =>
      let out := out ++ [PrintedUpdateMask (sigma b)] in
      let entry := shrinkWrapUpdateMask Nx Ny nElements p b in
      let b' := hioLoop [Nx; Ny] nElements intensity (rHioBeta p)
                  (rnHioCycles p) entry in
      let currentError := calculateHioError (curData b') (isMasked b') nElements in
      let out := out ++ [PrintedError currentError (rTargetError p) iCycle
                           (wrap_unsigned (rnCycles p - 1))] in
      let hist := hist ++ [CycleRecord iCycle b entry b'] in
      if Ieee.ltb F32.zero (rTargetError p) && Ieee.ltb currentError (rTargetError p)
      then (b', out, hist)
      else if rnCycles p <=? iCycle then (b', out, hist)
      else shrinkWrapCycles remaining' (iCycle + 1) Nx Ny nElements intensity p
             b' out hist
  end.

(** The debugging code of the initialisation ([DEBUG_SHRINKWRAPP_CPP]
    is 1) writes [isMasked] to a file, column by column:
    [file << isMasked[ iy*rSize[0] + ix ]] for [ix < rSize[0]] and
    [iy < rSize[1]], the index computed in [unsigned].  A read outside
    the [nElements] floats of the buffer is undefined. *)
Definition dumpMask (Nx Ny : Z) (nElements : nat) : result unit :=
  for_range (Z.to_nat Nx)
    (fun ix st =>
       for_range (Z.to_nat Ny)
         (fun iy st =>
            _ <- st ;;
            if wrap_unsigned (wrap_unsigned (Z.of_nat iy * Nx) + Z.of_nat ix)
               <? Z.of_nat nElements
            then Ok tt else Undefined)
         st)
    (Ok tt).

(** The buffers when the outer loop is entered: [curData] and
    [gPrevious] hold the intensity, [isMasked] the first mask. *)
Definition shrinkWrapInit (Nx Ny : Z) (nElements : nat) (intensity : list float)
    (p : parameters) : result (buffers * list event) :=
  let fresh := replicate nElements (F32.zero, F32.zero) in
  let cur := Elementwise.copyToRealPart intensity nElements fresh in
  let auto := Buffers (fftToRealSpace [Nx; Ny] cur) fresh
                      (replicate nElements F32.zero) (rSigma0 p) in
  let blurred := blurredNorm Nx Ny nElements auto in
  _ <- dumpMask Nx Ny nElements ;;
  let mask := thresholdMask nElements (rIntensityCutOffAutoCorel p) blurred in
  _ <- dumpMask Nx Ny nElements ;;
  let cur := Elementwise.copyToRealPart intensity nElements (curData auto) in
  Ok (Buffers cur cur mask (rSigma0 p),
      [WroteInitMaskBlurred blurred; WroteInitMask mask]).

(** [nElements], the product of the sizes, with its assertions. *)
Definition shrinkWrapElements (rSize : list Z) : result Z :=
  foldl (fun acc d =>
           n <- acc ;;
           _ <- c_assert NDEBUG (0 <? d) ;;
           Ok (wrap_unsigned (n * d)))
        (Ok 1) rSize.

Definition shrinkWrap (rIntensity : option (list float)) (rSize : list Z)
    (p : parameters) : outcome :=
  let untouched := Effects rIntensity 0 [] [] in
  if negb (length rSize =? 2)%nat then Returned 1 untouched
  else
    let Nx := rSize !!! 0%nat in
    let Ny := rSize !!! 1%nat in
    match rIntensity with
    | None => Returned 1 untouched
    | Some intensity =>
        let p := shrinkWrapDefaults p in
        match shrinkWrapElements rSize with
        | AssertionFailed => Aborted untouched
        | Undefined => UndefinedBehaviour
        | Ok n =>
            let nElements := Z.to_nat n in
            if (length intensity <? nElements)%nat then UndefinedBehaviour
            else
              match shrinkWrapInit Nx Ny nElements intensity p with
              | Ok (b0, out0) =>
                  let '(b, out, hist) :=
                    shrinkWrapCycles (Z.to_nat (rnCycles p)) 0 Nx Ny nElements
                      intensity p b0 out0 [] in
                  Returned 0
                    (Effects
                       (Some (Elementwise.copyFromRealPart (curData b) nElements
                                intensity))
                       3 out hist)
              | _ => UndefinedBehaviour
              end
        end
    end.

(** *** [cudaShrinkWrap] of algorithms/cuda/cudaShrinkWrap.cpp *)

Definition cudaShrinkWrapDefaults (p : parameters) : parameters :=
  Parameters
    (orDefaultCount (rnCycles p) 20)
    (orDefault (rTargetError p) default_rTargetError)
    (orDefault (rHioBeta p) default_rHioBeta)
    (orDefault (rIntensityCutOffAutoCorel p) default_rIntensityCutOffAutoCorel)
    (orDefault (rIntensityCutOff p) default_rIntensityCutOff)
    (orDefault (rSigma0 p) default_rSigma0)
    (orDefault (rSigmaChange p) default_rSigmaChange)
    (orDefaultCount (rnHioCycles p) 20).

(** The literal [1.5f]. *)
Definition sigmaFloor : float := Eval vm_compute in Ieee.literal Ieee.binary32 15 1.

(** [sigma = fmax( 1.5f, ( 1.0f - rSigmaChange ) * sigma )] *)
Definition cudaNextSigma (rSigmaChange sigma : float) : float :=
  Ieee.fmax sigmaFloor (F32.mul (F32.sub F32.one rSigmaChange) sigma).

(** [( iCycleShrinkWrap == 0 ? rIntensityCutOffAutoCorel : rIntensityCutOff )] *)
Definition cudaCutOffFactor (iCycle : Z) (p : parameters) : float :=
  if iCycle =? 0 then rIntensityCutOffAutoCorel p else rIntensityCutOff p.

(** The body of the outer loop up to the entry of the inner loop; in
    the first cycle [dpgPrevious] is seeded with [dpCurData]. *)
Definition cudaUpdateMask (iCycle : Z) (W H : Z) (nElements : nat)
    (p : parameters) (b : buffers) : buffers :=
  let mask := thresholdMask nElements (cudaCutOffFactor iCycle p)
                (blurredNorm W H nElements b) in
  Buffers (curData b)
          (if iCycle =? 0 then curData b else gPrevious b)
          mask
          (cudaNextSigma (rSigmaChange p) (sigma b)).

(** The debugging code of the accelerator driver is compiled in
    whatever [NDEBUG] is: it is guarded by
    [#ifdef WRITE_OUT_SHRINKWRAP_DEBUG], and the macro is defined (as 1
    or as 0) in both cases.  It copies device buffers into the host
    buffer [pHostToWrite = new float[2*nElements]], whose size is
    computed in [unsigned]. *)
Definition hostToWriteSize (nElements : nat) : Z :=
  wrap_unsigned (2 * Z.of_nat nElements).

(** A copy of [count] elements into [pHostToWrite] out of a device
    buffer of [nElements] elements ([dpIsMasked], or the real parts of
    [dpCurData] for [cudaMemcpy2D]): undefined unless both buffers hold
    that many. *)
Definition debugCopy (nElements : nat) (count : Z) : result unit :=
  if (count <=? Z.of_nat nElements) && (count <=? hostToWriteSize nElements)
  then Ok tt else Undefined.

(** [pHostToWrite[i] = sqrtf( pHostToWrite[2*i+0]^2 + pHostToWrite[2*i+1]^2 )]
    for [i < nElements], the indices computed in [unsigned]. *)
Definition debugModulus (nElements : nat) : result unit :=
  for_range nElements
    (fun i st =>
       _ <- st ;;
       if wrap_unsigned (2 * Z.of_nat i + 1) <? hostToWriteSize nElements
       then Ok tt else Undefined)
    (Ok tt).

(** One pass of the inner loop with its two debugging blocks: the
    first, [-b_intensity.png], copies [2*nElements] floats out of
    [dpIsMasked], which holds [nElements]; the second, [-c_object.png],
    copies the [nElements] real parts of [dpCurData]. *)
Definition cudaHioStep (shape : list Z) (nElements : nat) (intensity : list float)
    (beta : float) (b : buffers) : result buffers :=
  let g := Elementwise.applyHioDomainConstraints
             (gPrevious b) (curData b) (isMasked b) nElements beta in
  let G := fftToFreqSpace shape g in
  let G' := applyComplexModulus G intensity nElements in
  _ <- debugCopy nElements (hostToWriteSize nElements) ;;
  _ <- debugModulus nElements ;;
  let g' := fftToRealSpace shape G' in
  _ <- debugCopy nElements (Z.of_nat nElements) ;;
  Ok (Buffers g' g (isMasked b) (sigma b)).

Definition cudaHioLoop (shape : list Z) (nElements : nat) (intensity : list float)
    (beta : float) (nHioCycles : Z) (b : buffers) : result buffers :=
  for_range (Z.to_nat nHioCycles)
    (fun _ st => b <- st ;; cudaHioStep shape nElements intensity beta b) (Ok b).

(** The outer loop.  Each cycle copies [dpIsMasked] to the host three
    times ([-mask-blurred.png], [-mask-blurred-log-scale.png],
    [-a_mask.png]) and, if the loop goes on, the real parts of
    [dpCurData] once more ([-d_object.png]). *)
Fixpoint cudaShrinkWrapCycles (remaining : nat) (iCycle : Z) (W H : Z)
    (nElements : nat) (intensity : list float) (p : parameters)
    (b : buffers) (out : list event) (hist : list cycle_record)
  : result (buffers * list event * list cycle_record) :=
  match remaining with
  | O => Ok (b, out, hist)
  | S remaining' =>
      _ <- debugCopy nElements (Z.of_nat nElements) ;;
      _ <- debugCopy nElements (Z.of_nat nElements) ;;
      let entry := cudaUpdateMask iCycle W H nElements p b in
      _ <- debugCopy nElements (Z.of_nat nElements) ;;
      let out := out ++ [WroteMaskBlurred iCycle (blurredNorm W H nElements b);
                         WroteMaskBlurredLogScale iCycle;
                         WroteMask iCycle (isMasked entry)] in
      b' <- cudaHioLoop [W; H] nElements intensity (rHioBeta p)
              (rnHioCycles p) entry ;;
      let out := out ++ hioEvents iCycle (rnHioCycles p) in
      let currentError := calculateHioError (curData b') (isMasked b') nElements in
      let hist := hist ++ [CycleRecord iCycle b entry b'] in
      if Ieee.ltb F32.zero (rTargetError p) && Ieee.ltb currentError (rTargetError p)
      then Ok (b', out, hist)
      else if rnCycles p <=? iCycle then Ok (b', out, hist)
      else
        _ <- debugCopy nElements (Z.of_nat nElements) ;;
        cudaShrinkWrapCycles remaining' (iCycle + 1) W H nElements intensity p
          b' (out ++ [WroteCycleObject iCycle]) hist
  end.

(** The buffers when the outer loop is entered: [dpCurData] holds the
    inverse transform of the intensity. *)
Definition cudaShrinkWrapInit (W H : Z) (nElements : nat) (intensity : list float)
    (p : parameters) : buffers :=
  let fresh := replicate nElements (F32.zero, F32.zero) in
  let cur := Elementwise.copyToRealPart intensity nElements fresh in
  Buffers (fftToRealSpace [W; H] cur) fresh (replicate nElements F32.zero)
          (rSigma0 p).

Definition cudaShrinkWrap (rIoData : option (list float))
    (rImageWidth rImageHeight : Z) (p : parameters) : outcome :=
  let untouched := Effects rIoData 0 [] [] in
  if negb (NDEBUG || (0 <? rImageWidth)) then Aborted untouched
  else if negb (NDEBUG || (0 <? rImageHeight)) then Aborted untouched
  else if negb (NDEBUG || bool_decide (rIoData <> None)) then Aborted untouched
  else
    let p := cudaShrinkWrapDefaults p in
    let nElements := Z.to_nat (wrap_unsigned (rImageWidth * rImageHeight)) in
    match rIoData with
    | None => UndefinedBehaviour
    | Some io =>
        if (length io <? nElements)%nat then UndefinedBehaviour
        else
          let intensity := take nElements io in
          let b0 := cudaShrinkWrapInit rImageWidth rImageHeight nElements intensity p in
          match cudaShrinkWrapCycles (Z.to_nat (rnCycles p)) 0 rImageWidth
                  rImageHeight nElements intensity p b0 [] [] with
          | Ok (b, out, hist) =>
              let result :=
                Elementwise.copyFromRealPart (curData b) nElements intensity in
              Returned 0 (Effects (Some (result ++ drop nElements io)) 5 out hist)
          | _ => UndefinedBehaviour
          end
    end.
End Drivers.
End ShrinkWrap.

(** ** Runs on a 1x1 image

The transforms and the blur are facilities outside the sources.  On an
image of a single pixel they are known: the discrete Fourier transform
of one sample is the sample itself, in both directions, and a unit-sum
kernel with edge extension maps a constant field to itself.  The drivers
are instantiated with these and with the operators modelled above. *)

Module OnePixel.

Definition fft (shape : list Z) (data : list complex) : list complex := data.

Definition gaussianBlur (data : list float) (Nx Ny : Z) (sigma : float) : list float :=
  data.

Definition shrinkWrap :=
  ShrinkWrap.shrinkWrap false fft fft Elementwise.complexNormElementwise
    gaussianBlur Reduce.vectorMax Elementwise.applyComplexModulus Reduce.hioError.

Definition cudaShrinkWrap :=
  ShrinkWrap.cudaShrinkWrap false fft fft Elementwise.complexNormElementwise
    gaussianBlur Reduce.vectorMax Elementwise.applyComplexModulus Reduce.hioError.

(** All parameters left to their defaults. *)
Definition unset : ShrinkWrap.parameters :=
  ShrinkWrap.Parameters 0 F32.zero F32.zero F32.zero F32.zero F32.zero F32.zero 0.

(** A single pixel of intensity 1. *)
Definition image : option (list float) := Some [F32.one].

End OnePixel.

(** ** The shape of the outer loop

[cycles_from entry inner i b rs b'] : starting cycle [i] on the buffers
[b], the outer loop executes the cycles recorded in [rs] and leaves
[b']; each cycle first applies [entry] (mask and sigma update), then
[inner] (the HIO loop), and the next cycle starts where this one ended. *)
Inductive cycles_from (entry : Z -> ShrinkWrap.buffers -> ShrinkWrap.buffers)
    (inner : ShrinkWrap.buffers -> ShrinkWrap.buffers)
  : Z -> ShrinkWrap.buffers -> list ShrinkWrap.cycle_record -> ShrinkWrap.buffers -> Prop :=
| cycles_done i b : cycles_from entry inner i b [] b
| cycles_step i b rs b' :
    cycles_from entry inner (i + 1) (inner (entry i b)) rs b' ->
    cycles_from entry inner i b
      (ShrinkWrap.CycleRecord i b (entry i b) (inner (entry i b)) :: rs) b'.

(** ** The mask update, as the specification words it

[mask_recomputed norm blur vmax cutOff Nx Ny n b mask] : [mask] is what
one obtains from the buffers [b] by taking the modulus of the current
estimate, blurring it with the current sigma, and setting each of the
[n] pixels to 1 if it is strictly below [cutOff] times the maximum of
the blurred array, and to 0 otherwise. *)
Definition mask_recomputed
    (complexNormElementwise : list complex -> nat -> list float)
    (gaussianBlur : list float -> Z -> Z -> float -> list float)
    (vectorMax : list float -> nat -> float)
    (cutOff : float) (Nx Ny : Z) (n : nat)
    (b : ShrinkWrap.buffers) (mask : list float) : Prop :=
  let blurred :=
    gaussianBlur (complexNormElementwise (ShrinkWrap.curData b) n) Nx Ny
                 (ShrinkWrap.sigma b) in
  let threshold := F32.mul cutOff (vectorMax blurred n) in
  length mask = n
  /\ (forall i v, blurred !! i = Some v ->
        mask !! i = Some (if Ieee.ltb v threshold then F32.one else F32.zero))
  /\ Forall (fun m => m = F32.zero \/ m = F32.one) mask.

(** The histories of an outcome (empty when nothing was executed). *)
Definition history_of (o : ShrinkWrap.outcome) : list ShrinkWrap.cycle_record :=
  match o with
  | ShrinkWrap.Returned _ e | ShrinkWrap.Aborted e => ShrinkWrap.history e
  | ShrinkWrap.UndefinedBehaviour => []
  end.

(** The number of pixels both drivers compute from the shape. *)
Definition pixels (Nx Ny : Z) : nat :=
  Z.to_nat (wrap_unsigned (wrap_unsigned (1 * Nx) * Ny)).

(** ** Parameter defaulting, as the specification words it *)

(** The documented defaults: nCycles = 20, target_error = 1e-5,
beta = 0.9, rIntensityCutOffAutoCorel = 0.04, rIntensityCutOff = 0.20,
sigma0 = 3.0, sigma_change = 0.01, nHioCycles = 20. *)
Definition documented_defaults : ShrinkWrap.parameters :=
  ShrinkWrap.Parameters 20
    (F32.of_double (F64.literal 1 5)) (F32.of_double (F64.literal 9 1))
    (F32.of_double (F64.literal 4 2)) (F32.of_double (F64.literal 20 2))
    (F32.of_double (F64.literal 30 1)) (F32.of_double (F64.literal 1 2)) 20.

(** [q] passes the documented default explicitly where [p] passes the
non-positive sentinel: 0 for a count, a value <= 0 for a real. *)
Definition explicit_count (d x y : Z) : Prop :=
  y = x \/ (x = 0 /\ y = d).
Definition explicit_real (d x y : float) : Prop :=
  y = x \/ (Ieee.leb x F32.zero = true /\ y = d).

Record explicit_defaults (p q : ShrinkWrap.parameters) : Prop := ExplicitDefaults
  { explicit_nCycles :
      explicit_count (ShrinkWrap.rnCycles documented_defaults)
        (ShrinkWrap.rnCycles p) (ShrinkWrap.rnCycles q);
    explicit_targetError :
      explicit_real (ShrinkWrap.rTargetError documented_defaults)
        (ShrinkWrap.rTargetError p) (ShrinkWrap.rTargetError q);
    explicit_hioBeta :
      explicit_real (ShrinkWrap.rHioBeta documented_defaults)
        (ShrinkWrap.rHioBeta p) (ShrinkWrap.rHioBeta q);
    explicit_cutOffAutoCorel :
      explicit_real (ShrinkWrap.rIntensityCutOffAutoCorel documented_defaults)
        (ShrinkWrap.rIntensityCutOffAutoCorel p) (ShrinkWrap.rIntensityCutOffAutoCorel q);
    explicit_cutOff :
      explicit_real (ShrinkWrap.rIntensityCutOff documented_defaults)
        (ShrinkWrap.rIntensityCutOff p) (ShrinkWrap.rIntensityCutOff q);
    explicit_sigma0 :
      explicit_real (ShrinkWrap.rSigma0 documented_defaults)
        (ShrinkWrap.rSigma0 p) (ShrinkWrap.rSigma0 q);
    explicit_sigmaChange :
      explicit_real (ShrinkWrap.rSigmaChange documented_defaults)
        (ShrinkWrap.rSigmaChange p) (ShrinkWrap.rSigmaChange q);
    explicit_nHioCycles :
      explicit_count (ShrinkWrap.rnHioCycles documented_defaults)
        (ShrinkWrap.rnHioCycles p) (ShrinkWrap.rnHioCycles q) }.

(** ** The blur scale, as the specification words it *)

(** [max(1.5, (1 - sigma_change) * sigma)], in single precision. *)
Definition sigma_decay (sigma_change sigma : float) : float :=
  Ieee.fmax (Ieee.literal Ieee.binary32 15 1)
    (F32.mul (F32.sub F32.one sigma_change) sigma).

(** [sigma_schedule sigma0 c rs] : over the executed cycles [rs], sigma
starts at [sigma0]; each cycle updates it once, before its inner loop,
to [sigma_decay c sigma]; the inner loop leaves it alone, and the next
cycle starts from the updated value. *)
Fixpoint sigma_schedule (sigma0 c : float) (rs : list ShrinkWrap.cycle_record) : Prop :=
  match rs with
  | [] => True
  | r :: rs' =>
      ShrinkWrap.sigma (ShrinkWrap.cr_start r) = sigma0
      /\ ShrinkWrap.sigma (ShrinkWrap.cr_hio_entry r) = sigma_decay c sigma0
      /\ ShrinkWrap.sigma (ShrinkWrap.cr_end r) = sigma_decay c sigma0
      /\ sigma_schedule (sigma_decay c sigma0) c rs'
  end.

(** The literal [1.5] of the FFTW driver, a [double]. *)
Definition floor64 : float := Eval vm_compute in F64.literal 15 1.

(** ** The masked norm, as the specification words it *)

(** Modelled from the spec: the pixels with [M[i] = 1] (with
[M[i] = 0] when the mask is inverted) among the indices [l]. *)
Definition maskedAmong (rData : list complex) (rIsMasked : list float)
    (rInvertMask : bool) (l : list nat) : list complex :=
  flat_map (fun i => if Reduce.isMaskedPixel rInvertMask (rIsMasked !!! i)
                     then [rData !!! i] else [])
           l.

(** The masked pixels [i < n], in index order. *)
Definition maskedPixels (rData : list complex) (rIsMasked : list float) (n : nat)
    (rInvertMask : bool) : list complex :=
  maskedAmong rData rIsMasked rInvertMask (seq 0 n).

(** An order that adds every pixel below [n] exactly once. *)
Definition covers (order : Reduce.reduction) (n : nat) : Prop :=
  Permutation (Reduce.pixelsOf order) (seq 0 n).

(** The value [testCalculateHioError] stores at the masked pixels:
[3 + 4i], of modulus 5. *)
Definition pythagorean : complex := (F32.of_Z 3, F32.of_Z 4).

(** The integer a [float] stands for, if it stands for one. *)
Definition integer_value (x : float) : option Z :=
  match x with
  | S754_zero _ => Some 0
  | S754_finite s m e =>
      if 0 <=? e then Some (cond_Zopp s (Zpos m * 2 ^ e))
      else if Zpos m mod 2 ^ (- e) =? 0 then Some (cond_Zopp s (Zpos m / 2 ^ (- e)))
      else None
  | _ => None
  end.

(** ** Data of the examples *)

Definition hio_example_mask : list float := [F32.one; F32.zero; F32.zero].
Definition hio_example_gPrime : list complex :=
  [(F32.of_Z 2, F32.of_Z 1); (F32.of_Z (-3), F32.of_Z 1); (F32.of_Z 4, F32.of_Z 5)].
Definition hio_example_gPrevious : list complex :=
  [(F32.of_Z 7, F32.of_Z 7); (F32.of_Z 8, F32.of_Z 8); (F32.of_Z 9, F32.of_Z 9)].

(** The double 2^-600. *)
Definition tiny_sigma : float := S754_finite false 4503599627370496 (-652).

(** Three outer cycles that no error test cuts short (the target error
is a NaN), from sigma0 = 3 with sigma_change = 0.25. *)
Definition three_cycles : ShrinkWrap.parameters :=
  ShrinkWrap.Parameters 3 S754_nan F32.zero F32.zero F32.zero (F32.of_Z 3)
    (Ieee.literal Ieee.binary32 25 2) 1.

(** Three pixels, the outer two masked and holding [3 + 4i]. *)
Definition masked_example_data : list complex :=
  [pythagorean; (F32.of_Z 1, F32.of_Z 2); pythagorean].
Definition masked_example_mask : list float := [F32.one; F32.zero; F32.one].
(** Two orders over three pixels: a tree, and the index order. *)
Definition masked_example_tree : Reduce.reduction :=
  Reduce.Plus (Reduce.Pixel 0) (Reduce.Plus (Reduce.Pixel 1) (Reduce.Pixel 2)).

(** ** The 2D kernel buffer *)

(** The buffer keeps its size as long as the run is defined. *)
Definition sized (L : nat) (st : result GaussianKernel.state2d) : Prop :=
  match st with
  | Ok s => length (GaussianKernel.weights2d s) = L
  | AssertionFailed => False
  | Undefined => True
  end.

(** ** Rounding, taken apart

[binary_round_aux] of [SpecFloat] shifts the mantissa to the exponent of
the format, rounds to nearest even, and shifts once more if the rounding
carried.  The pieces are named here for the analysis below. *)

Module Rounding.

Section Pieces.
Variables prec emax : Z.

(** The mantissa [m] has as many digits as the exponent [e] asks for. *)
Definition canonical (m : positive) (e : Z) : Prop :=
  fexp prec emax (Zpos (digits2_pos m) + e) = e.

(** The mantissa after a shift by [n] digits and the rounding. *)
Definition rnd (m n : Z) : Z :=
  if n <=? 0 then m
  else round_nearest_even (m / 2 ^ n)
         (loc_of_shr_record
            (Build_shr_record (m / 2 ^ n) (2 ^ (n - 1) <=? m mod 2 ^ n)
               (negb (m mod 2 ^ (n - 1) =? 0)))).

(** The second shift and the packing of the result. *)
Definition pack (sx : bool) (m1 e1 : Z) : spec_float :=
  let '(mrs, e2) := shr_fexp prec emax m1 e1 loc_Exact in
  match shr_m mrs with
  | Z0 => S754_zero sx
  | Zpos m => if e2 <=? emax - prec then S754_finite sx m e2 else S754_infinity sx
  | Zneg _ => S754_nan
  end.
End Pieces.

Arguments rnd : clear implicits.

End Rounding.

(** Canonical mantissas of [float] and of [double]. *)
Abbreviation canonical32 := (Rounding.canonical 24 128).
Abbreviation canonical64 := (Rounding.canonical 53 1024).

(** ** The index shift of [shrinkWrap.cpp] *)

Module FftShift.
Section Generic.
Context {T_COMPLEX : Type} `{Inhabited T_COMPLEX}.

(** [std::swap( data[i], data[j] )]; an access outside the buffer is
    undefined. *)
Definition swap (i j : Z) (data : list T_COMPLEX) : result (list T_COMPLEX) :=
  if (0 <=? i) && (i <? Z.of_nat (length data))
     && (0 <=? j) && (j <? Z.of_nat (length data))
  then Ok (<[Z.to_nat i := data !!! Z.to_nat j]>
             (<[Z.to_nat j := data !!! Z.to_nat i]> data))
  else Undefined.

(** [( ( iy+Ny/2 ) % Ny ) * Nx + ( ( ix+Nx/2 ) % Nx )], in [unsigned]
    arithmetic. *)
Definition shiftedIndex (Nx Ny ix iy : Z) : Z :=
  wrap_unsigned (wrap_unsigned (iy + Ny / 2) mod Ny * Nx
                 + wrap_unsigned (ix + Nx / 2) mod Nx).

Definition fftShift (data : list T_COMPLEX) (Nx Ny : Z) : result (list T_COMPLEX) :=
  for_range (Z.to_nat (Ny / 2))
    (fun iy st =>
       for_range (Z.to_nat Nx)
         (fun ix st =>
            d <- st ;;
            swap (wrap_unsigned (Z.of_nat iy * Nx + Z.of_nat ix))
                 (shiftedIndex Nx Ny (Z.of_nat ix) (Z.of_nat iy)) d)
         st)
    (Ok data).
End Generic.
End FftShift.

(** The indices [fftShift] exchanges, without the wrap-around: the
    swap number [c] (in the order of the loops) exchanges index [c] with
    index [fftShiftTarget Nx Ny c]; [fftShiftOrigin] is the way back. *)
Definition fftShiftTarget (Nx Ny c : Z) : Z :=
  (c / Nx + Ny / 2) * Nx + (c mod Nx + Nx / 2) mod Nx.
Definition fftShiftOrigin (Nx Ny k : Z) : Z :=
  (k / Nx - Ny / 2) * Nx + (k mod Nx + Nx - Nx / 2) mod Nx.

(** Where the value at index [k] comes from after the first [c] swaps,
    and after all of them. *)
Definition fftShiftSourceAfter (Nx Ny c k : Z) : Z :=
  if k <? c then fftShiftTarget Nx Ny k
  else if (Ny / 2 * Nx <=? k) && (k <? 2 * (Ny / 2) * Nx)
          && (fftShiftOrigin Nx Ny k <? c)
       then fftShiftOrigin Nx Ny k
       else k.
Definition fftShiftSource (Nx Ny k : Z) : Z :=
  fftShiftSourceAfter Nx Ny (Ny / 2 * Nx) k.

(** The state of [fftShift] after the first [c] swaps. *)
Definition fftShiftSwapped {T_COMPLEX : Type} (Nx Ny : Z) (data : list T_COMPLEX)
    (c : Z) (st : result (list T_COMPLEX)) : Prop :=
  match st with
  | Ok d => length d = length data
            /\ forall k : nat,
                 d !! k = data !! Z.to_nat (fftShiftSourceAfter Nx Ny c (Z.of_nat k))
  | _ => False
  end.

(** As long as the run of [fftShift] is defined, the buffer keeps its
    length and the first [c] swaps were inside it. *)
Definition fftShiftInside {T_COMPLEX : Type} (Nx Ny : Z) (data : list T_COMPLEX)
    (c : Z) (st : result (list T_COMPLEX)) : Prop :=
  match st with
  | Ok d => length d = length data
            /\ forall c', 0 <= c' < c ->
                 fftShiftTarget Nx Ny c' < Z.of_nat (length data)
  | AssertionFailed => False
  | Undefined => True
  end.

(** ** The debugging check of [shrinkWrap.cpp] *)

Module CheckIfReal.

(** [avg += fabs( x )] on a [float] accumulator: [fabs] is taken on a
    [double], the sum is a [double] and is stored into the [float]. *)
Definition accumulate (avg x : float) : float :=
  F32.of_double (F64.add (F64.of_float avg) (SFabs (F64.of_float x))).

(** The two averages, as printed. *)
Definition averages (rData : list complex) (rnElements : Z) : result (float * float) :=
  if Z.of_nat (length rData) <? rnElements then Undefined
  else
    let '(sumRe, sumIm) :=
      for_range (Z.to_nat rnElements)
        (fun i '(avgRe, avgIm) =>
           (accumulate avgRe (Re (rData !!! i)), accumulate avgIm (Im (rData !!! i))))
        (F32.zero, F32.zero) in
    Ok (F32.div sumRe (F32.of_Z rnElements), F32.div sumIm (F32.of_Z rnElements)).

(** [checkIfReal( rData, rnElements )]: the averages are printed, then
    [assert( avgIm < 1e-5 )]; the result holds the printed averages. *)
Definition checkIfReal (NDEBUG : bool) (rData : list complex) (rnElements : Z)
  : result (float * float) :=
  avg <- averages rData rnElements ;;
  _ <- c_assert NDEBUG (Ieee.ltb (F64.of_float avg.2) (F64.literal 1 5)) ;;
  Ok avg.

End CheckIfReal.

(** ** The end of the outer loop *)

(** [rTargetError > 0 && currentError < rTargetError], the convergence
    test at the end of the cycle recorded in [r]. *)
Definition converged (calculateHioError : list complex -> list float -> nat -> float)
    (nElements : nat) (p : ShrinkWrap.parameters) (r : ShrinkWrap.cycle_record) : bool :=
  Ieee.ltb F32.zero (ShrinkWrap.rTargetError p)
  && Ieee.ltb (calculateHioError (ShrinkWrap.curData (ShrinkWrap.cr_end r))
                 (ShrinkWrap.isMasked (ShrinkWrap.cr_end r)) nElements)
       (ShrinkWrap.rTargetError p).

(** [stopped_by test rs budget] : the cycles [rs] of a loop of at most
    [budget] cycles are numbered from 0, [test] failed after every cycle
    but the last, and if the budget was not used up, [test] held after
    the last one. *)
Definition stopped_by (test : ShrinkWrap.cycle_record -> bool)
    (rs : list ShrinkWrap.cycle_record) (budget : nat) : Prop :=
  (length rs <= budget)%nat
  /\ (forall k r, rs !! k = Some r -> ShrinkWrap.cr_index r = Z.of_nat k)
  /\ (forall k r, rs !! k = Some r -> (S k < length rs)%nat -> test r = false)
  /\ ((length rs < budget)%nat -> exists r, last rs = Some r /\ test r = true).

(** The two exits of the loop body, after the cycle recorded in [r]:
    the convergence test and [if ( iCycleShrinkWrap >= rnCycles ) break;]. *)
Definition loop_exits (calculateHioError : list complex -> list float -> nat -> float)
    (n : nat) (p : ShrinkWrap.parameters) (r : ShrinkWrap.cycle_record) : bool :=
  converged calculateHioError n p r || (ShrinkWrap.rnCycles p <=? ShrinkWrap.cr_index r).

(** [stopped_by] for the cycles of a loop that starts at cycle [i]. *)
Definition run_from (test : ShrinkWrap.cycle_record -> bool) (i : Z)
    (rs : list ShrinkWrap.cycle_record) (budget : nat) : Prop :=
  (length rs <= budget)%nat
  /\ (forall k r, rs !! k = Some r -> ShrinkWrap.cr_index r = i + Z.of_nat k)
  /\ (forall k r, rs !! k = Some r -> (S k < length rs)%nat -> test r = false)
  /\ ((length rs < budget)%nat -> exists r, last rs = Some r /\ test r = true).

(** ** The kernel that [calcGaussianKernel] writes *)

(** The weight at distance [i] from the centre,
    [T_Prec( a*exp( i*i*b ) )], before the normalisation. *)
Definition kernelEntry (T_Prec : Ieee.format) (exp_fin : float -> float)
    (a b : float) (i : Z) : float :=
  GaussianKernel.weightOf T_Prec exp_fin a b (i * i).

(** The sum of the first [k] weights of half width [n], in the order
    of the first loop of [calcGaussianKernel]. *)
Definition kernelPartialSum (T_Prec : Ieee.format) (exp_fin : float -> float)
    (a b : float) (n : Z) (k : nat) : float :=
  for_range k
    (fun j sum => F64.add sum (F64.of_float (kernelEntry T_Prec exp_fin a b (Z.of_nat j - n))))
    F64.zero.

(** The sum of all weights of half width [n]. *)
Definition kernelSum (T_Prec : Ieee.format) (exp_fin : float -> float)
    (rSigma : float) (n : Z) : float :=
  kernelPartialSum T_Prec exp_fin (GaussianKernel.coeff_a rSigma)
    (GaussianKernel.coeff_b rSigma) n (GaussianKernel.nIterations n).

(** The normalised weight at distance [i] from the centre. *)
Definition kernelWeight (T_Prec : Ieee.format) (exp_fin : float -> float)
    (rSigma : float) (n i : Z) : float :=
  Ieee.convert T_Prec
    (F64.div
       (F64.of_float
          (kernelEntry T_Prec exp_fin (GaussianKernel.coeff_a rSigma)
             (GaussianKernel.coeff_b rSigma) i))
       (kernelSum T_Prec exp_fin rSigma n)).

(** A buffer of nine elements, two more than the kernel of sigma = 1. *)
Definition kernel_example_buffer : list float := replicate 9 F32.zero.

(** The sum of the weights of column [ix], rows [0 .. m-1], added to
    [acc] in the order of the inner loop of [calcGaussianKernel2d]. *)
Definition columnSum2d (weight2d : float -> Z -> Z -> Z -> Z -> Z -> Z -> float)
    (rSigma : float) (rCenterX rCenterY rnWeightsX rnWeightsY : Z)
    (ix m : nat) (acc : float) : float :=
  for_range m
    (fun iy acc =>
       F64.add acc
         (F64.of_float
            (weight2d rSigma rCenterX rCenterY rnWeightsX rnWeightsY
               (Z.of_nat ix) (Z.of_nat iy))))
    acc.

(** The sum of the weights of the columns [0 .. k-1]. *)
Definition columnsSum2d (weight2d : float -> Z -> Z -> Z -> Z -> Z -> Z -> float)
    (rSigma : float) (rCenterX rCenterY rnWeightsX rnWeightsY : Z) (k : nat) : float :=
  for_range k
    (fun ix acc =>
       columnSum2d weight2d rSigma rCenterX rCenterY rnWeightsX rnWeightsY
         ix (Z.to_nat rnWeightsY) acc)
    F64.zero.

(** The sum of all weights, in the order in which the double loop of
    [calcGaussianKernel2d] adds them. *)
Definition kernelSum2d (weight2d : float -> Z -> Z -> Z -> Z -> Z -> Z -> float)
    (rSigma : float) (rCenterX rCenterY rnWeightsX rnWeightsY : Z) : float :=
  columnsSum2d weight2d rSigma rCenterX rCenterY rnWeightsX rnWeightsY
    (Z.to_nat rnWeightsX).

(** The state of [calcGaussianKernel2d] when the double loop has done
    the columns before [k] and the rows before [m] of column [k]. *)
Definition filled2d (weight2d : float -> Z -> Z -> Z -> Z -> Z -> Z -> float)
    (rSigma : float) (rCenterX rCenterY : Z) (rWeights : list float)
    (rnWeightsX rnWeightsY : Z) (k m : nat)
    (st : result GaussianKernel.state2d) : Prop :=
  exists s,
    st = Ok s
    /\ length (GaussianKernel.weights2d s) = length rWeights
    /\ GaussianKernel.sum2d s
       = columnSum2d weight2d rSigma rCenterX rCenterY rnWeightsX rnWeightsY k m
           (columnsSum2d weight2d rSigma rCenterX rCenterY rnWeightsX rnWeightsY k)
    /\ (forall ix iy : Z,
          0 <= ix < rnWeightsX -> 0 <= iy < rnWeightsY ->
          ix < Z.of_nat k \/ (ix = Z.of_nat k /\ iy < Z.of_nat m) ->
          GaussianKernel.weights2d s !! Z.to_nat (iy * rnWeightsX + ix)
          = Some (weight2d rSigma rCenterX rCenterY rnWeightsX rnWeightsY ix iy))
    /\ (forall j : nat, rnWeightsX * rnWeightsY <= Z.of_nat j ->
          GaussianKernel.weights2d s !! j = rWeights !! j).

(** The state of [calcGaussianKernel2d] when the final loop has divided
    the elements before [i]. *)
Definition normalized2d (T_Prec : Ieee.format) (filled : GaussianKernel.state2d)
    (i : nat) (st : result GaussianKernel.state2d) : Prop :=
  exists s,
    st = Ok s
    /\ length (GaussianKernel.weights2d s) = length (GaussianKernel.weights2d filled)
    /\ GaussianKernel.sum2d s = GaussianKernel.sum2d filled
    /\ (forall j : nat, (j < i)%nat ->
          GaussianKernel.weights2d s !! j
          = (fun v => Ieee.convert T_Prec
                        (F64.div (F64.of_float v) (GaussianKernel.sum2d filled)))
              <$> GaussianKernel.weights2d filled !! j)
    /\ (forall j : nat, (i <= j)%nat ->
          GaussianKernel.weights2d s !! j = GaussianKernel.weights2d filled !! j).

(** A buffer of eight elements for a kernel of 3 x 2 weights. *)
Definition kernel2d_example_buffer : list float := replicate 8 F32.one.

(** ** Bit masks of the tests ([tests/imresh/algorithms/testVectorReduce.cpp]) *)

Module BitMask.

(** [bfe( src, offset, nBits )] on [uint32_t]:
    [( ( uint32_t(0xFFFFFFFF) >> (32-nBits) ) << offset ) & src].
    A shift by 32 or more is undefined. *)
Definition bfe (src offset nBits : Z) : result Z :=
  let count := wrap_unsigned (32 - nBits) in
  if (count <? 32) && (offset <? 32)
  then Ok (Z.land (wrap_unsigned (Z.shiftl (Z.shiftr 4294967295 count) offset)) src)
  else Undefined.

Section Unpack.
(** The template parameter [T_MASK] with its conversion from [bool]. *)
Context {T_MASK : Type} `{Inhabited T_MASK}.
Variable of_bool : bool -> T_MASK.
(** [sizeof( T_PACKED ) * 8u], for an unsigned [T_PACKED]. *)
Variable nBits : Z.
(** [ceilDiv], which the sources at hand only use. *)
Variable ceilDiv : Z -> Z -> Z.
Variable NDEBUG : bool.

Definition read (i : Z) (rPackedBits : list Z) : result Z :=
  if (0 <=? i) && (i <? Z.of_nat (length rPackedBits))
  then Ok (rPackedBits !!! Z.to_nat i) else Undefined.

Definition write (i : Z) (v : T_MASK) (rMask : list T_MASK) : result (list T_MASK) :=
  if (0 <=? i) && (i <? Z.of_nat (length rMask))
  then Ok (<[Z.to_nat i := v]> rMask) else Undefined.

(** One pass of the inner loop; the state is the mask, the index of
    [iElem] and [bitMask].  After the [break] the remaining passes do
    nothing. *)
Definition unpackBit (rPackedBits : list Z) (nElements iPacked : Z)
    (st : result (list T_MASK * Z * Z)) : result (list T_MASK * Z * Z) :=
  s <- st ;;
  let '(rMask, iElem, bitMask) := s in
  if nElements <=? iElem then Ok s
  else
    _ <- c_assert NDEBUG (negb (bitMask =? 0)) ;;
    _ <- c_assert NDEBUG (iElem <? nElements) ;;
    _ <- c_assert NDEBUG (iPacked <? ceilDiv nElements nBits) ;;
    packed <- read iPacked rPackedBits ;;
    rMask <- write iElem (of_bool (negb (Z.land packed bitMask =? 0))) rMask ;;
    Ok (rMask, iElem + 1, Z.shiftr bitMask 1).

(** The body of the outer loop: one packed word. *)
Definition unpackWord (rPackedBits : list Z) (nElements iPacked : Z)
    (rMask : list T_MASK) (iElem : Z) : result (list T_MASK * Z) :=
  s <- for_range (Z.to_nat nBits)
         (fun _ st => unpackBit rPackedBits nElements iPacked st)
         (Ok (rMask, iElem, Z.shiftl 1 (nBits - 1))) ;;
  Ok (s.1.1, s.1.2).

(** The outer loop [for ( iElem = rMask; iElem < nElem; ++iPacked )];
    [None] when [fuel] passes do not reach the end. *)
Fixpoint unpackWords (fuel : nat) (rPackedBits : list Z) (nElements iPacked : Z)
    (rMask : list T_MASK) (iElem : Z) : option (result (list T_MASK)) :=
  if iElem <? nElements then
    match fuel with
    | O => None
    | S fuel =>
        match unpackWord rPackedBits nElements iPacked rMask iElem with
        | Ok (rMask, iElem) =>
            unpackWords fuel rPackedBits nElements (iPacked + 1) rMask iElem
        | AssertionFailed => Some AssertionFailed
        | Undefined => Some Undefined
        end
    end
  else Some (Ok rMask).

(** [unpackBitMask( rMask, rPackedBits, nElements )]. *)
Definition unpackBitMask (fuel : nat) (rMask : list T_MASK) (rPackedBits : list Z)
    (nElements : Z) : option (result (list T_MASK)) :=
  unpackWords fuel rPackedBits nElements 0 rMask 0.

End Unpack.
End BitMask.

(** Bit [nBits - 1 - i mod nBits] of word [i / nBits]: the bit that
    element [i] of the mask stands for, counted from the most
    significant bit of each word. *)
Definition packedBit (nBits : Z) (rPackedBits : list Z) (i : Z) : bool :=
  Z.testbit (rPackedBits !!! Z.to_nat (i / nBits)) (nBits - 1 - i mod nBits).

(** The mask when the elements before [e] are unpacked. *)
Definition unpacked {T_MASK : Type} (of_bool : bool -> T_MASK) (nBits : Z)
    (rPackedBits : list Z) (rMask : list T_MASK) (e : Z) (m : list T_MASK) : Prop :=
  length m = length rMask
  /\ (forall i : Z, 0 <= i < e ->
        m !! Z.to_nat i = Some (of_bool (packedBit nBits rPackedBits i)))
  /\ (forall j : nat, e <= Z.of_nat j -> m !! j = rMask !! j).

(** The call of [testUnpackBitMask]: 30 of 32 elements are unpacked
    from the word 0x33333333. *)
Definition unpack_example_mask : list bool := replicate 30 false ++ [true; false].
Definition unpack_example_packed : list Z := [858993459].
Definition unpack_example_ceilDiv (a b : Z) : Z := (a + b - 1) / b.

(** ** The comparison of the tests ([testVectorReduce.cpp]) *)

Module CompareFloat.

(** [std::numeric_limits<T_PREC>::epsilon()], the gap [2^(1-prec)]
    between 1 and the next value. *)
Definition epsilon (fmt : Ieee.format) : float :=
  S754_finite false (Z.to_pos (2 ^ (Ieee.fmt_prec fmt - 1)))
    (2 - 2 * Ieee.fmt_prec fmt).

(** [std::max( x, y )]: [(x < y) ? y : x]. *)
Definition c_max (x y : float) : float := if Ieee.ltb x y then y else x.

(** [compareFloat( file, line, a, b, marginFactor )] without its
    [printf].  [T_FABS] is the type in which the overload of [fabs] at
    hand returns: [T_PREC] or [double]. *)
Definition compareFloat (T_PREC T_FABS : Ieee.format) (a b marginFactor : float)
  : bool :=
  let max := c_max (SFabs a) (SFabs b) in
  if Ieee.eqb max (Ieee.of_Z T_PREC 0) then true
  else
    let relErr :=
      Ieee.div T_FABS (SFabs (Ieee.convert T_FABS (Ieee.sub T_PREC a b)))
        (Ieee.convert T_FABS max) in
    let maxRelErr := Ieee.mul T_PREC marginFactor (epsilon T_PREC) in
    Ieee.leb relErr (Ieee.convert T_FABS maxRelErr).

End CompareFloat.

Definition is_zero (x : float) : bool :=
  match x with S754_zero _ => true | _ => false end.

Definition is_infinite (x : float) : bool :=
  match x with S754_infinity _ => true | _ => false end.

(** A format has at least two bits of precision and a larger exponent range. *)
Definition format_ok (fmt : Ieee.format) : Prop :=
  1 < Ieee.fmt_prec fmt /\ Ieee.fmt_prec fmt < Ieee.fmt_emax fmt.

(** Every value of [T] is a value of [T']. *)
Definition format_le (T T' : Ieee.format) : Prop :=
  Ieee.fmt_prec T <= Ieee.fmt_prec T' /\ Ieee.fmt_emax T <= Ieee.fmt_emax T'.



(** * Properties *)

(** ** Loops over arrays *)

Lemma for_range_S {S : Type} (n : nat) (body : nat -> S -> S) (s : S) :
  for_range (Datatypes.S n) body s = body n (for_range n body s).
Proof.
  unfold for_range. rewrite seq_S, foldl_app. reflexivity.
Qed.

Lemma for_range_invariant {S : Type} (P : S -> Prop) (n : nat)
    (body : nat -> S -> S) (s : S) :
  (forall i s, (i < n)%nat -> P s -> P (body i s)) -> P s -> P (for_range n body s).
Proof.
  intros Hbody Hs. induction n as [|n IH]; [exact Hs|].
  rewrite for_range_S. apply Hbody; [lia|]. apply IH.
  intros i s' Hi. apply Hbody. lia.
Qed.

Lemma for_each_prefix {A : Type} `{Inhabited A} (f : nat -> A -> A) (l : list A) (k : nat) :
  (k <= length l)%nat ->
  for_range k (fun i data => <[i := f i (data !!! i)]> data) l
  = imap f (take k l) ++ drop k l.
Proof.
  induction k as [|k IH]; intros Hk.
  - reflexivity.
  - rewrite for_range_S, IH by lia.
    destruct (lookup_lt_is_Some_2 l k) as [x Hx]; [lia|].
    assert (Hlen : length (imap f (take k l)) = k)
      by (rewrite length_imap, length_take; lia).
    rewrite (take_S_r l k x Hx), imap_app, (drop_S l x k Hx).
    rewrite length_take, Nat.min_l by lia. simpl.
    rewrite Nat.add_0_r.
    replace ((imap f (take k l) ++ x :: drop (S k) l) !!! k) with x.
    + rewrite <- (Nat.add_0_r k) at 1. rewrite <- Hlen at 1.
      rewrite insert_app_r. simpl. rewrite <- app_assoc. reflexivity.
    + symmetry. apply list_lookup_total_correct.
      rewrite lookup_app_r by lia. rewrite Hlen, Nat.sub_diag. reflexivity.
Qed.

Lemma for_each_imap {A : Type} `{Inhabited A} (n : nat) (f : nat -> A -> A) (l : list A) :
  length l = n -> for_each n f l = imap f l.
Proof.
  intros Hn. unfold for_each. rewrite for_each_prefix by lia.
  rewrite firstn_all2, drop_ge, app_nil_r by lia. reflexivity.
Qed.

Lemma for_each_lookup {A : Type} `{Inhabited A} (n : nat) (f : nat -> A -> A)
    (l : list A) (i : nat) :
  length l = n -> for_each n f l !! i = f i <$> l !! i.
Proof.
  intros Hn. rewrite for_each_imap by assumption. apply list_lookup_imap.
Qed.

Lemma for_each_length {A : Type} `{Inhabited A} (n : nat) (f : nat -> A -> A) (l : list A) :
  length l = n -> length (for_each n f l) = n.
Proof.
  intros Hn. rewrite for_each_imap by assumption. rewrite length_imap. assumption.
Qed.

(** ** The HIO domain constraint *)

Lemma eqb_zero_one : Ieee.eqb F32.zero F32.one = false.
Proof. reflexivity. Qed.

Lemma eqb_one_one : Ieee.eqb F32.one F32.one = true.
Proof. reflexivity. Qed.

(** C3: one application of the HIO constraint, pixel by pixel.  For a mask
    with entries in {0,1}: where the mask is 1 or the real part of g' is
    negative, the previous iterate becomes [g_prev - beta * g']
    (component-wise, in single precision); elsewhere it becomes [g']. *)
Theorem hio_constraint_contract (n : nat) (M : list float) (g' g_prev : list complex)
    (beta : float) (i : nat) (m : float) (z p : complex) :
  length M = n -> length g' = n -> length g_prev = n ->
  Forall (fun m => m = F32.zero \/ m = F32.one) M ->
  M !! i = Some m -> g' !! i = Some z -> g_prev !! i = Some p ->
  let g_new := Elementwise.applyHioDomainConstraints g_prev g' M n beta in
  (m = F32.one \/ Ieee.ltb (Re z) F32.zero = true ->
   g_new !! i = Some (F32.sub (Re p) (F32.mul beta (Re z)),
                      F32.sub (Im p) (F32.mul beta (Im z))))
  /\ (~ (m = F32.one \/ Ieee.ltb (Re z) F32.zero = true) ->
      g_new !! i = Some z).
Proof.
  intros HM Hg' Hg Hbin Hm Hz Hp g_new.
  assert (Hnew : g_new !! i = Some (Elementwise.hioPixel beta m z p)).
  { unfold g_new, Elementwise.applyHioDomainConstraints.
    rewrite for_each_lookup by assumption. rewrite Hp. simpl.
    rewrite (list_lookup_total_correct _ _ _ Hm).
    rewrite (list_lookup_total_correct _ _ _ Hz). reflexivity. }
  assert (Hm01 : m = F32.zero \/ m = F32.one).
  { rewrite Forall_forall in Hbin. apply Hbin. eapply list_elem_of_lookup_2; eauto. }
  split; intros Hc; refine (eq_trans Hnew _); unfold Elementwise.hioPixel.
  - destruct Hc as [-> | Hneg].
    + rewrite eqb_one_one. reflexivity.
    + rewrite Hneg, orb_true_r. reflexivity.
  - rename Hc into Hnot. destruct Hm01 as [-> | ->].
    + rewrite eqb_zero_one. simpl.
      destruct (Ieee.ltb (Re z) F32.zero) eqn:E; [|reflexivity].
      exfalso. apply Hnot. right. reflexivity.
    + exfalso. apply Hnot. left. reflexivity.
Qed.

(** The inner loop of both drivers applies exactly this operator. *)
Lemma hioStep_gPrevious fwd inv modulus shape n intensity beta b :
  ShrinkWrap.gPrevious (ShrinkWrap.hioStep inv fwd modulus shape n intensity beta b)
  = Elementwise.applyHioDomainConstraints
      (ShrinkWrap.gPrevious b) (ShrinkWrap.curData b) (ShrinkWrap.isMasked b) n beta.
Proof. reflexivity. Qed.

Lemma hio_constraint_contract_witness :
  let g_new := Elementwise.applyHioDomainConstraints hio_example_gPrevious
                 hio_example_gPrime hio_example_mask 3 (F32.of_Z 2) in
  (F32.one = F32.one \/ Ieee.ltb (F32.of_Z 2) F32.zero = true ->
   g_new !! 0%nat = Some (F32.sub (F32.of_Z 7) (F32.mul (F32.of_Z 2) (F32.of_Z 2)),
                          F32.sub (F32.of_Z 7) (F32.mul (F32.of_Z 2) (F32.of_Z 1))))
  /\ (~ (F32.one = F32.one \/ Ieee.ltb (F32.of_Z 2) F32.zero = true) ->
      g_new !! 0%nat = Some (F32.of_Z 2, F32.of_Z 1)).
Proof.
  apply (hio_constraint_contract 3 hio_example_mask hio_example_gPrime
           hio_example_gPrevious (F32.of_Z 2) 0 F32.one
           (F32.of_Z 2, F32.of_Z 1) (F32.of_Z 7, F32.of_Z 7)).
  - reflexivity.
  - reflexivity.
  - reflexivity.
  - unfold hio_example_mask. repeat (apply Forall_cons_2; [auto|]). apply Forall_nil_2.
  - reflexivity.
  - reflexivity.
  - reflexivity.
Defined.

(** ** The debugging copies of the accelerator driver *)

Section DebugCopies.

Variables fftToRealSpace fftToFreqSpace : list Z -> list complex -> list complex.
Variable applyComplexModulus : list complex -> list float -> nat -> list complex.

Local Abbreviation hioLoop :=
  (ShrinkWrap.hioLoop fftToRealSpace fftToFreqSpace applyComplexModulus).
Local Abbreviation hioStep :=
  (ShrinkWrap.hioStep fftToRealSpace fftToFreqSpace applyComplexModulus).
Local Abbreviation cudaHioStep :=
  (ShrinkWrap.cudaHioStep fftToRealSpace fftToFreqSpace applyComplexModulus).
Local Abbreviation cudaHioLoop :=
  (ShrinkWrap.cudaHioLoop fftToRealSpace fftToFreqSpace applyComplexModulus).

(** *** The debugging copies of the accelerator driver *)

(** A pass of the inner loop that is defined is the pass of the FFTW
    driver. *)
Lemma cudaHioStep_hioStep shape n intensity beta (b b' : ShrinkWrap.buffers) :
  cudaHioStep shape n intensity beta b = Ok b' ->
  b' = hioStep shape n intensity beta b.
Proof.
  unfold ShrinkWrap.cudaHioStep, ShrinkWrap.hioStep. cbv zeta.
  destruct (ShrinkWrap.debugCopy n (ShrinkWrap.hostToWriteSize n)) as [[]| |];
    cbn [result_bind]; try discriminate.
  destruct (ShrinkWrap.debugModulus n) as [[]| |]; cbn [result_bind]; try discriminate.
  destruct (ShrinkWrap.debugCopy n (Z.of_nat n)) as [[]| |];
    cbn [result_bind]; try discriminate.
  intros [= <-]. reflexivity.
Qed.

Lemma cudaHioLoop_hioLoop shape n intensity beta nHio (b b' : ShrinkWrap.buffers) :
  cudaHioLoop shape n intensity beta nHio b = Ok b' ->
  b' = hioLoop shape n intensity beta nHio b.
Proof.
  unfold ShrinkWrap.cudaHioLoop, ShrinkWrap.hioLoop.
  generalize (Z.to_nat nHio) as k. intros k. revert b'.
  induction k as [|k IH]; intros b'.
  - intros [= <-]. reflexivity.
  - rewrite !for_range_S.
    destruct (for_range k _ (Ok b)) as [b1| |]; cbn [result_bind]; try discriminate.
    intros Hstep. apply cudaHioStep_hioStep in Hstep.
    rewrite <- (IH b1 eq_refl). exact Hstep.
Qed.

(** No host buffer of [2*nElements] floats takes a copy of as many
    floats out of a buffer of [nElements]: once the copies at the top of
    a cycle are defined, the first copy of the inner loop is not. *)
Lemma debugCopy_overrun (n : nat) :
  0 < Z.of_nat n < 2 ^ 32 ->
  ShrinkWrap.debugCopy n (Z.of_nat n) = Ok tt ->
  ShrinkWrap.debugCopy n (ShrinkWrap.hostToWriteSize n) = Undefined.
Proof.
  unfold ShrinkWrap.debugCopy, ShrinkWrap.hostToWriteSize, wrap_unsigned.
  change (2 ^ 32) with 4294967296. intros Hn.
  destruct (Z.leb_spec (Z.of_nat n) (Z.of_nat n)); [|lia].
  destruct (Z.leb_spec (Z.of_nat n) ((2 * Z.of_nat n) mod 4294967296)) as [Hhost|Hhost];
    cbn [andb]; [intros _|discriminate].
  destruct (Z.leb_spec ((2 * Z.of_nat n) mod 4294967296) (Z.of_nat n)) as [Hdev|Hdev];
    cbn [andb]; [exfalso|reflexivity].
  revert Hhost Hdev. generalize (Z.of_nat n) Hn. clear. intros z Hz.
  Z.div_mod_to_equations. lia.
Qed.

Lemma debugModulus_not_aborted (n : nat) : ShrinkWrap.debugModulus n <> AssertionFailed.
Proof.
  unfold ShrinkWrap.debugModulus.
  apply (for_range_invariant (fun st : result unit => st <> AssertionFailed));
    [|discriminate].
  intros i [[]| |] _ Hst; cbn [result_bind]; [|contradiction|discriminate].
  destruct (_ <? _); discriminate.
Qed.

(** Every pass of the inner loop on a non-empty image is undefined. *)
Lemma cudaHioStep_undefined shape (n : nat) intensity beta (b : ShrinkWrap.buffers) :
  0 < Z.of_nat n < 2 ^ 32 ->
  cudaHioStep shape n intensity beta b = Undefined.
Proof.
  intros Hn. unfold ShrinkWrap.cudaHioStep. cbv zeta.
  destruct (ShrinkWrap.debugCopy n (Z.of_nat n)) as [[]| |] eqn:Ecopy.
  - rewrite (debugCopy_overrun n Hn Ecopy). reflexivity.
  - exfalso. revert Ecopy. unfold ShrinkWrap.debugCopy. destruct (_ && _); discriminate.
  - destruct (ShrinkWrap.debugCopy n (ShrinkWrap.hostToWriteSize n)) as [[]| |] eqn:Efirst;
      cbn [result_bind]; [| |reflexivity].
    + pose proof (debugModulus_not_aborted n) as Hmod.
      destruct (ShrinkWrap.debugModulus n) as [[]| |]; cbn [result_bind];
        [reflexivity | contradiction | reflexivity].
    + exfalso. revert Efirst. unfold ShrinkWrap.debugCopy. destruct (_ && _); discriminate.
Qed.

Lemma foldl_undefined {A : Type} (f : nat -> A -> result A) (l : list nat) :
  foldl (fun (st : result A) i => a <- st ;; f i a) Undefined l = Undefined.
Proof. induction l as [|i l IH]; [reflexivity | exact IH]. Qed.

Lemma cudaHioLoop_undefined shape (n : nat) intensity beta nHio (b : ShrinkWrap.buffers) :
  0 < Z.of_nat n < 2 ^ 32 -> 0 < nHio ->
  cudaHioLoop shape n intensity beta nHio b = Undefined.
Proof.
  intros Hn Hk. unfold ShrinkWrap.cudaHioLoop, for_range.
  destruct (Z.to_nat nHio) as [|k] eqn:Ek; [lia|].
  cbn [seq foldl result_bind]. rewrite cudaHioStep_undefined by exact Hn.
  apply (foldl_undefined (fun _ b => cudaHioStep shape n intensity beta b)).
Qed.

(** X10: the debugging code of the accelerator driver leaves its
    buffers in every pass of the inner loop on a non-empty image.  For
    [nElements < 2^31] the copy for [-b_intensity.png] reads
    [2*nElements] floats from [dpIsMasked], which holds [nElements]; for
    larger images the host buffer of [2*nElements mod 2^32] floats is
    too small for the copy for [-c_object.png].  So a pass, and a loop
    of at least one pass, has no defined result. *)
Theorem cudaHioStep_overrun (shape : list Z) (n : nat) (intensity : list float)
    (beta : float) (nHio : Z) (b : ShrinkWrap.buffers) :
  0 < Z.of_nat n < 2 ^ 32 ->
  (Z.of_nat n < 2 ^ 31 ->
   ShrinkWrap.debugCopy n (ShrinkWrap.hostToWriteSize n) = Undefined)
  /\ (2 ^ 31 <= Z.of_nat n -> ShrinkWrap.debugCopy n (Z.of_nat n) = Undefined)
  /\ cudaHioStep shape n intensity beta b = Undefined
  /\ (0 < nHio -> cudaHioLoop shape n intensity beta nHio b = Undefined).
Proof.
  intros Hn.
  assert (Hcopies :
    (Z.of_nat n < 2 ^ 31 ->
     ShrinkWrap.debugCopy n (ShrinkWrap.hostToWriteSize n) = Undefined)
    /\ (2 ^ 31 <= Z.of_nat n -> ShrinkWrap.debugCopy n (Z.of_nat n) = Undefined)).
  { unfold ShrinkWrap.debugCopy, ShrinkWrap.hostToWriteSize, wrap_unsigned.
    revert Hn. generalize (Z.of_nat n). intros z.
    change (2 ^ 32) with 4294967296. change (2 ^ 31) with 2147483648. intros Hz.
    split; intros Hcase.
    - destruct (Z.leb_spec ((2 * z) mod 4294967296) z) as [Hle|Hle]; [exfalso|reflexivity].
      revert Hle. Z.div_mod_to_equations. lia.
    - destruct (Z.leb_spec z ((2 * z) mod 4294967296)) as [Hle|Hle];
        [exfalso|rewrite andb_false_r; reflexivity].
      revert Hle. Z.div_mod_to_equations. lia. }
  destruct Hcopies as [Hsmall Hlarge].
  split; [exact Hsmall|]. split; [exact Hlarge|]. split.
  - apply cudaHioStep_undefined. exact Hn.
  - intros Hk. apply cudaHioLoop_undefined; assumption.
Qed.

End DebugCopies.

(** ** The outer loop of the drivers *)

Section DriverProperties.

Variable NDEBUG : bool.
Variables fftToRealSpace fftToFreqSpace : list Z -> list complex -> list complex.
Variable complexNormElementwise : list complex -> nat -> list float.
Variable gaussianBlur : list float -> Z -> Z -> float -> list float.
Variable vectorMax : list float -> nat -> float.
Variable applyComplexModulus : list complex -> list float -> nat -> list complex.
Variable calculateHioError : list complex -> list float -> nat -> float.

Local Abbreviation shrinkWrap :=
  (ShrinkWrap.shrinkWrap NDEBUG fftToRealSpace fftToFreqSpace complexNormElementwise
     gaussianBlur vectorMax applyComplexModulus calculateHioError).
Local Abbreviation cudaShrinkWrap :=
  (ShrinkWrap.cudaShrinkWrap NDEBUG fftToRealSpace fftToFreqSpace complexNormElementwise
     gaussianBlur vectorMax applyComplexModulus calculateHioError).
Local Abbreviation shrinkWrapCycles :=
  (ShrinkWrap.shrinkWrapCycles fftToRealSpace fftToFreqSpace complexNormElementwise
     gaussianBlur vectorMax applyComplexModulus calculateHioError).
Local Abbreviation cudaShrinkWrapCycles :=
  (ShrinkWrap.cudaShrinkWrapCycles fftToRealSpace fftToFreqSpace complexNormElementwise
     gaussianBlur vectorMax applyComplexModulus calculateHioError).
Local Abbreviation hioLoop :=
  (ShrinkWrap.hioLoop fftToRealSpace fftToFreqSpace applyComplexModulus).
Local Abbreviation hioStep :=
  (ShrinkWrap.hioStep fftToRealSpace fftToFreqSpace applyComplexModulus).
Local Abbreviation cudaHioStep :=
  (ShrinkWrap.cudaHioStep fftToRealSpace fftToFreqSpace applyComplexModulus).
Local Abbreviation cudaHioLoop :=
  (ShrinkWrap.cudaHioLoop fftToRealSpace fftToFreqSpace applyComplexModulus).
Local Abbreviation shrinkWrapInit :=
  (ShrinkWrap.shrinkWrapInit fftToRealSpace complexNormElementwise gaussianBlur vectorMax).
Local Abbreviation shrinkWrapUpdateMask :=
  (ShrinkWrap.shrinkWrapUpdateMask complexNormElementwise gaussianBlur vectorMax).
Local Abbreviation cudaUpdateMask :=
  (ShrinkWrap.cudaUpdateMask complexNormElementwise gaussianBlur vectorMax).

Lemma shrinkWrapCycles_shape (Nx Ny : Z) (n : nat) (intensity : list float)
    (p : ShrinkWrap.parameters) (remaining : nat) :
  forall iCycle b out hist,
  exists rs,
    (shrinkWrapCycles remaining iCycle Nx Ny n intensity p b out hist).2 = hist ++ rs
    /\ cycles_from (fun _ => shrinkWrapUpdateMask Nx Ny n p)
         (hioLoop [Nx; Ny] n intensity (ShrinkWrap.rHioBeta p) (ShrinkWrap.rnHioCycles p))
         iCycle b rs
         (shrinkWrapCycles remaining iCycle Nx Ny n intensity p b out hist).1.1.
Proof.
  induction remaining as [|remaining IH]; intros iCycle b out hist.
  - exists []. simpl. rewrite app_nil_r. split; [reflexivity | constructor].
  - simpl.
    set (entry := shrinkWrapUpdateMask Nx Ny n p b).
    set (b' := hioLoop [Nx; Ny] n intensity _ _ entry).
    set (r := ShrinkWrap.CycleRecord iCycle b entry b').
    destruct (_ && _).
    { exists [r]. split; [reflexivity|]. repeat constructor. }
    destruct (_ <=? _).
    { exists [r]. split; [reflexivity|]. repeat constructor. }
    match goal with
    | |- context [shrinkWrapCycles remaining ?i Nx Ny n intensity p b' ?o ?h] =>
        destruct (IH i b' o h) as (rs & Hrs & Hch)
    end.
    exists (r :: rs). split.
    + rewrite Hrs, <- app_assoc. reflexivity.
    + constructor. exact Hch.
Qed.

Lemma cudaShrinkWrapCycles_shape (W H : Z) (n : nat) (intensity : list float)
    (p : ShrinkWrap.parameters) (remaining : nat) :
  forall iCycle b out hist b' out' hist',
  cudaShrinkWrapCycles remaining iCycle W H n intensity p b out hist
  = Ok (b', out', hist') ->
  exists rs,
    hist' = hist ++ rs
    /\ cycles_from (fun i => cudaUpdateMask i W H n p)
         (hioLoop [W; H] n intensity (ShrinkWrap.rHioBeta p) (ShrinkWrap.rnHioCycles p))
         iCycle b rs b'.
Proof.
  induction remaining as [|remaining IH]; intros iCycle b out hist b' out' hist'.
  - intros [= <- <- <-]. exists []. rewrite app_nil_r. split; [reflexivity | constructor].
  - cbn [ShrinkWrap.cudaShrinkWrapCycles].
    destruct (ShrinkWrap.debugCopy n (Z.of_nat n)) as [[]| |];
      cbn [result_bind]; try discriminate.
    set (entry := cudaUpdateMask iCycle W H n p b).
    destruct (cudaHioLoop [W; H] n intensity _ _ entry) as [b1| |] eqn:Eloop;
      cbn [result_bind]; try discriminate.
    apply cudaHioLoop_hioLoop in Eloop. subst b1.
    set (b1 := hioLoop [W; H] n intensity _ _ entry).
    set (r := ShrinkWrap.CycleRecord iCycle b entry b1).
    destruct (_ && _).
    { intros [= <- <- <-]. exists [r]. split; [reflexivity|]. repeat constructor. }
    destruct (_ <=? _).
    { intros [= <- <- <-]. exists [r]. split; [reflexivity|]. repeat constructor. }
    intros Hrec. apply IH in Hrec as (rs & -> & Hch).
    exists (r :: rs). split.
    + rewrite <- app_assoc. reflexivity.
    + constructor. exact Hch.
Qed.

(** Every record of a chain was produced by [entry] and [inner]. *)
Lemma cycles_from_Forall entry inner i b rs b' :
  cycles_from entry inner i b rs b' ->
  Forall (fun r =>
            ShrinkWrap.cr_hio_entry r = entry (ShrinkWrap.cr_index r) (ShrinkWrap.cr_start r)
            /\ ShrinkWrap.cr_end r = inner (ShrinkWrap.cr_hio_entry r)) rs.
Proof.
  induction 1; constructor; auto.
Qed.

(** A chain starts on the buffers it was given, and every cycle starts
    where the one before it ended. *)
Lemma cycles_from_linked entry inner i b rs b' :
  cycles_from entry inner i b rs b' ->
  (forall r, rs !! 0%nat = Some r -> ShrinkWrap.cr_start r = b)
  /\ (forall k r r', rs !! k = Some r -> rs !! S k = Some r' ->
        ShrinkWrap.cr_start r' = ShrinkWrap.cr_end r).
Proof.
  induction 1 as [|i b rs b' Hch [IHfirst IHnext]].
  - split; intros; discriminate.
  - split.
    + intros r [= <-]. reflexivity.
    + intros [|k] r r' Hr Hr'.
      * injection Hr as <-. cbn [ShrinkWrap.cr_end]. exact (IHfirst r' Hr').
      * exact (IHnext k r r' Hr Hr').
Qed.

Lemma shrinkWrapElements_pair (Nx Ny : Z) :
  ShrinkWrap.shrinkWrapElements NDEBUG [Nx; Ny]
  = if (NDEBUG || (0 <? Nx)) && (NDEBUG || (0 <? Ny))
    then Ok (wrap_unsigned (wrap_unsigned (1 * Nx) * Ny))
    else AssertionFailed.
Proof.
  unfold ShrinkWrap.shrinkWrapElements, c_assert. cbn [foldl result_bind].
  destruct (NDEBUG || (0 <? Nx)); cbn [result_bind andb]; [|reflexivity].
  destruct (NDEBUG || (0 <? Ny)); reflexivity.
Qed.

(** *** The debugging dumps of the FFTW driver *)

(** For a shape whose product is an [unsigned], [nElements] is the
    product. *)
Lemma pixels_small (Nx Ny : Z) :
  0 < Nx -> 0 < Ny -> Nx * Ny < 2 ^ 32 -> Z.of_nat (pixels Nx Ny) = Nx * Ny.
Proof.
  intros HNx HNy Hsmall. unfold pixels, wrap_unsigned.
  change (2 ^ 32) with 4294967296 in *.
  assert (HNx' : Nx < 4294967296) by nia.
  rewrite Z.mul_1_l, (Z.mod_small Nx), Z.mod_small by nia.
  rewrite Z2Nat.id by nia. reflexivity.
Qed.

(** The dumps then stay inside the mask. *)
Lemma dumpMask_defined (Nx Ny : Z) (n : nat) :
  0 <= Nx -> 0 <= Ny -> Nx * Ny < 2 ^ 32 -> Nx * Ny <= Z.of_nat n ->
  ShrinkWrap.dumpMask Nx Ny n = Ok tt.
Proof.
  intros HNx HNy Hsmall Hn. unfold ShrinkWrap.dumpMask.
  change (2 ^ 32) with 4294967296 in *.
  apply (for_range_invariant (fun st : result unit => st = Ok tt)); [|reflexivity].
  intros ix st Hix ->.
  apply (for_range_invariant (fun st : result unit => st = Ok tt)); [|reflexivity].
  intros iy st Hiy ->. cbn [result_bind]. unfold wrap_unsigned.
  change (2 ^ 32) with 4294967296.
  assert (Hrow : 0 <= Z.of_nat iy * Nx /\ Z.of_nat iy * Nx + Nx <= Nx * Ny) by nia.
  rewrite (Z.mod_small (Z.of_nat iy * Nx)) by lia.
  rewrite Z.mod_small by lia.
  destruct (Z.ltb_spec (Z.of_nat iy * Nx + Z.of_nat ix) (Z.of_nat n)); [reflexivity | lia].
Qed.

Lemma shrinkWrapInit_buffers (Nx Ny : Z) (n : nat) (intensity : list float)
    (p : ShrinkWrap.parameters) (b0 : ShrinkWrap.buffers) (out0 : list ShrinkWrap.event) :
  shrinkWrapInit Nx Ny n intensity p = Ok (b0, out0) ->
  ShrinkWrap.curData b0
  = Elementwise.copyToRealPart intensity n
      (fftToRealSpace [Nx; Ny]
         (Elementwise.copyToRealPart intensity n (replicate n (F32.zero, F32.zero))))
  /\ ShrinkWrap.gPrevious b0 = ShrinkWrap.curData b0
  /\ ShrinkWrap.sigma b0 = ShrinkWrap.rSigma0 p
  /\ exists blurred mask,
       out0 = [ShrinkWrap.WroteInitMaskBlurred blurred; ShrinkWrap.WroteInitMask mask].
Proof.
  unfold ShrinkWrap.shrinkWrapInit. cbv zeta.
  destruct (ShrinkWrap.dumpMask Nx Ny n) as [[]| |]; cbn [result_bind]; try discriminate.
  intros [= <- <-]. cbn [ShrinkWrap.curData ShrinkWrap.gPrevious ShrinkWrap.sigma].
  repeat split. eexists. eexists. reflexivity.
Qed.

Lemma shrinkWrapInit_defined (Nx Ny : Z) (intensity : list float)
    (p : ShrinkWrap.parameters) :
  0 < Nx -> 0 < Ny -> Nx * Ny < 2 ^ 32 ->
  exists b0 out0, shrinkWrapInit Nx Ny (pixels Nx Ny) intensity p = Ok (b0, out0).
Proof.
  intros HNx HNy Hsmall. unfold ShrinkWrap.shrinkWrapInit. cbv zeta.
  rewrite dumpMask_defined
    by (try lia; rewrite pixels_small by assumption; lia).
  cbn [result_bind]. eexists. eexists. reflexivity.
Qed.

(** The cycles a call of the FFTW driver executes: none, or a chain that
    starts at cycle 0 on the buffers prepared by the initialisation. *)
Lemma shrinkWrap_history (rIoData : option (list float)) (Nx Ny : Z)
    (p : ShrinkWrap.parameters) :
  let n := pixels Nx Ny in
  let p' := ShrinkWrap.shrinkWrapDefaults p in
  history_of (shrinkWrap rIoData [Nx; Ny] p) = []
  \/ exists intensity rs b' b0 out0,
       rIoData = Some intensity
       /\ shrinkWrapInit Nx Ny n intensity p' = Ok (b0, out0)
       /\ history_of (shrinkWrap rIoData [Nx; Ny] p) = rs
       /\ cycles_from (fun _ => shrinkWrapUpdateMask Nx Ny n p')
            (hioLoop [Nx; Ny] n intensity (ShrinkWrap.rHioBeta p')
               (ShrinkWrap.rnHioCycles p'))
            0 b0 rs b'.
Proof.
  intros n p'. unfold ShrinkWrap.shrinkWrap.
  change (negb (length [Nx; Ny] =? 2)%nat) with false. cbv iota.
  change ([Nx; Ny] !!! 0%nat) with Nx. change ([Nx; Ny] !!! 1%nat) with Ny.
  destruct rIoData as [intensity|]; [|left; reflexivity].
  rewrite shrinkWrapElements_pair.
  destruct (_ && _); [|left; reflexivity].
  fold (pixels Nx Ny). fold n. fold p'.
  destruct (_ <? _)%nat; [left; reflexivity|].
  destruct (shrinkWrapInit Nx Ny n intensity p') as [[b0 out0]| |] eqn:Hinit;
    [|left; reflexivity|left; reflexivity].
  destruct (shrinkWrapCycles_shape Nx Ny n intensity p'
              (Z.to_nat (ShrinkWrap.rnCycles p')) 0 b0 out0 [])
    as (rs & Hrs & Hch).
  destruct (shrinkWrapCycles _ _ _ _ _ _ _ _ _ _) as [[b out] hist].
  right. exists intensity, rs, b, b0, out0.
  split; [reflexivity|]. split; [exact Hinit|]. split; [exact Hrs | exact Hch].
Qed.

Lemma cudaShrinkWrap_history (rIoData : option (list float)) (W H : Z)
    (p : ShrinkWrap.parameters) :
  let n := Z.to_nat (wrap_unsigned (W * H)) in
  let p' := ShrinkWrap.cudaShrinkWrapDefaults p in
  history_of (cudaShrinkWrap rIoData W H p) = []
  \/ exists intensity rs b',
       history_of (cudaShrinkWrap rIoData W H p) = rs
       /\ cycles_from (fun i => cudaUpdateMask i W H n p')
            (hioLoop [W; H] n intensity (ShrinkWrap.rHioBeta p')
               (ShrinkWrap.rnHioCycles p'))
            0
            (ShrinkWrap.cudaShrinkWrapInit fftToRealSpace W H n intensity p')
            rs b'.
Proof.
  intros n p'. unfold ShrinkWrap.cudaShrinkWrap.
  repeat (destruct (negb _); [left; reflexivity|]).
  destruct rIoData as [io|]; [|left; reflexivity].
  fold n. fold p'.
  destruct (_ <? _)%nat; [left; reflexivity|].
  destruct (cudaShrinkWrapCycles _ _ _ _ _ _ _ _ _ _) as [[[b out] hist]| |] eqn:Hrun;
    [|left; reflexivity|left; reflexivity].
  apply cudaShrinkWrapCycles_shape in Hrun as (rs & -> & Hch).
  right. exists (take n io), rs, b. split; [reflexivity | exact Hch].
Qed.

(** *** Parameter defaulting *)

Lemma orDefault_explicit (d x y : float) :
  Ieee.leb d F32.zero = false ->
  explicit_real d x y -> ShrinkWrap.orDefault y d = ShrinkWrap.orDefault x d.
Proof.
  intros Hd [-> | [Hx ->]]; [reflexivity|].
  unfold ShrinkWrap.orDefault. rewrite Hd, Hx. reflexivity.
Qed.

Lemma orDefaultCount_explicit (d x y : Z) :
  d <> 0 ->
  explicit_count d x y -> ShrinkWrap.orDefaultCount y d = ShrinkWrap.orDefaultCount x d.
Proof.
  intros Hd [-> | [-> ->]]; [reflexivity|].
  unfold ShrinkWrap.orDefaultCount. simpl.
  destruct (Z.eqb_spec d 0); [contradiction | reflexivity].
Qed.

(** The accelerator driver treats every sentinel like the documented
    default passed explicitly. *)
Lemma cudaShrinkWrap_defaults (rIoData : option (list float)) (W H : Z)
    (p q : ShrinkWrap.parameters) :
  explicit_defaults p q ->
  cudaShrinkWrap rIoData W H q = cudaShrinkWrap rIoData W H p.
Proof.
  intros [H1 H2 H3 H4 H5 H6 H7 H8].
  assert (Hd : ShrinkWrap.cudaShrinkWrapDefaults q = ShrinkWrap.cudaShrinkWrapDefaults p).
  { unfold ShrinkWrap.cudaShrinkWrapDefaults.
    rewrite (orDefaultCount_explicit 20 _ _ ltac:(discriminate) H1).
    rewrite (orDefault_explicit ShrinkWrap.default_rTargetError _ _ eq_refl H2).
    rewrite (orDefault_explicit ShrinkWrap.default_rHioBeta _ _ eq_refl H3).
    rewrite (orDefault_explicit ShrinkWrap.default_rIntensityCutOffAutoCorel _ _ eq_refl H4).
    rewrite (orDefault_explicit ShrinkWrap.default_rIntensityCutOff _ _ eq_refl H5).
    rewrite (orDefault_explicit ShrinkWrap.default_rSigma0 _ _ eq_refl H6).
    rewrite (orDefault_explicit ShrinkWrap.default_rSigmaChange _ _ eq_refl H7).
    rewrite (orDefaultCount_explicit 20 _ _ ltac:(discriminate) H8).
    reflexivity. }
  unfold ShrinkWrap.cudaShrinkWrap. rewrite Hd. reflexivity.
Qed.

(** So does the FFTW driver, for every parameter but [rnCycles]. *)
Lemma shrinkWrap_defaults (rIntensity : option (list float)) (rSize : list Z)
    (p q : ShrinkWrap.parameters) :
  explicit_defaults p q ->
  ShrinkWrap.rnCycles q = ShrinkWrap.rnCycles p ->
  shrinkWrap rIntensity rSize q = shrinkWrap rIntensity rSize p.
Proof.
  intros [H1 H2 H3 H4 H5 H6 H7 H8] Hn.
  assert (Hd : ShrinkWrap.shrinkWrapDefaults q = ShrinkWrap.shrinkWrapDefaults p).
  { unfold ShrinkWrap.shrinkWrapDefaults. rewrite Hn.
    rewrite (orDefault_explicit ShrinkWrap.default_rTargetError _ _ eq_refl H2).
    rewrite (orDefault_explicit ShrinkWrap.default_rHioBeta _ _ eq_refl H3).
    rewrite (orDefault_explicit ShrinkWrap.default_rIntensityCutOffAutoCorel _ _ eq_refl H4).
    rewrite (orDefault_explicit ShrinkWrap.default_rIntensityCutOff _ _ eq_refl H5).
    rewrite (orDefault_explicit ShrinkWrap.default_rSigma0 _ _ eq_refl H6).
    rewrite (orDefault_explicit ShrinkWrap.default_rSigmaChange _ _ eq_refl H7).
    rewrite (orDefaultCount_explicit 20 _ _ ltac:(discriminate) H8).
    reflexivity. }
  unfold ShrinkWrap.shrinkWrap. rewrite Hd. reflexivity.
Qed.

(** With [rnCycles = 0] the FFTW driver executes no cycle at all. *)
Lemma shrinkWrap_zero_cycles (rIntensity : option (list float)) (rSize : list Z)
    (p : ShrinkWrap.parameters) :
  ShrinkWrap.rnCycles p = 0 ->
  history_of (shrinkWrap rIntensity rSize p) = [].
Proof.
  intros Hn. unfold ShrinkWrap.shrinkWrap.
  destruct (negb _); [reflexivity|].
  destruct rIntensity as [intensity|]; [|reflexivity].
  destruct (ShrinkWrap.shrinkWrapElements NDEBUG rSize); try reflexivity.
  destruct (_ <? _)%nat; [reflexivity|].
  destruct (ShrinkWrap.shrinkWrapInit _ _ _ _ _ _ _ _ _) as [[b0 out0]| |];
    try reflexivity.
  change (ShrinkWrap.rnCycles (ShrinkWrap.shrinkWrapDefaults p)) with (ShrinkWrap.rnCycles p).
  rewrite Hn. reflexivity.
Qed.

(** *** Return status *)

Lemma shrinkWrap_invalid (rIntensity : option (list float)) (rSize : list Z)
    (p : ShrinkWrap.parameters) :
  length rSize <> 2%nat \/ rIntensity = None ->
  shrinkWrap rIntensity rSize p
  = ShrinkWrap.Returned 1 (ShrinkWrap.Effects rIntensity 0 [] []).
Proof.
  intros Hinv. unfold ShrinkWrap.shrinkWrap.
  destruct (Nat.eqb_spec (length rSize) 2) as [Hlen|Hlen]; simpl; [|reflexivity].
  destruct Hinv as [Hne | ->]; [contradiction | reflexivity].
Qed.

Lemma shrinkWrap_zero_dimension (intensity : list float) (Nx Ny : Z)
    (p : ShrinkWrap.parameters) :
  NDEBUG = false -> Nx <= 0 \/ Ny <= 0 ->
  shrinkWrap (Some intensity) [Nx; Ny] p
  = ShrinkWrap.Aborted (ShrinkWrap.Effects (Some intensity) 0 [] []).
Proof.
  intros HN Hzero. unfold ShrinkWrap.shrinkWrap.
  change (negb (length [Nx; Ny] =? 2)%nat) with false. cbv iota.
  rewrite shrinkWrapElements_pair, HN. simpl orb.
  destruct (Z.ltb_spec 0 Nx), (Z.ltb_spec 0 Ny); simpl; try reflexivity; lia.
Qed.

(** A call on valid arguments carries out the reconstruction: the
    caller's buffer holds the real parts of the last estimate. *)
Lemma shrinkWrap_returns (intensity : list float) (Nx Ny : Z)
    (p : ShrinkWrap.parameters) :
  0 < Nx -> 0 < Ny -> Nx * Ny < 2 ^ 32 -> (pixels Nx Ny <= length intensity)%nat ->
  let p' := ShrinkWrap.shrinkWrapDefaults p in
  exists b0 out0 b out hist,
    shrinkWrapInit Nx Ny (pixels Nx Ny) intensity p' = Ok (b0, out0)
    /\ shrinkWrapCycles (Z.to_nat (ShrinkWrap.rnCycles p')) 0 Nx Ny (pixels Nx Ny)
         intensity p' b0 out0 [] = (b, out, hist)
    /\ shrinkWrap (Some intensity) [Nx; Ny] p
       = ShrinkWrap.Returned 0
           (ShrinkWrap.Effects
              (Some (Elementwise.copyFromRealPart (ShrinkWrap.curData b)
                       (pixels Nx Ny) intensity))
              3 out hist).
Proof.
  intros HNx HNy Hsmall Hlen p'.
  destruct (shrinkWrapInit_defined Nx Ny intensity p' HNx HNy Hsmall) as (b0 & out0 & Hinit).
  exists b0, out0.
  destruct (shrinkWrapCycles (Z.to_nat (ShrinkWrap.rnCycles p')) 0 Nx Ny (pixels Nx Ny)
              intensity p' b0 out0 []) as [[b out] hist] eqn:Hrun.
  exists b, out, hist. split; [exact Hinit|]. split; [reflexivity|].
  unfold ShrinkWrap.shrinkWrap.
  change (negb (length [Nx; Ny] =? 2)%nat) with false. cbv iota.
  change ([Nx; Ny] !!! 0%nat) with Nx. change ([Nx; Ny] !!! 1%nat) with Ny.
  rewrite shrinkWrapElements_pair.
  destruct (Z.ltb_spec 0 Nx); [|lia]. destruct (Z.ltb_spec 0 Ny); [|lia].
  rewrite !orb_true_r. cbn [andb]. cbv iota.
  fold (pixels Nx Ny). fold p'.
  destruct (Nat.ltb_spec (length intensity) (pixels Nx Ny)); [lia|].
  rewrite Hinit, Hrun. reflexivity.
Qed.

Lemma shrinkWrap_valid (intensity : list float) (Nx Ny : Z)
    (p : ShrinkWrap.parameters) :
  0 < Nx -> 0 < Ny -> Nx * Ny < 2 ^ 32 -> (pixels Nx Ny <= length intensity)%nat ->
  exists e, shrinkWrap (Some intensity) [Nx; Ny] p = ShrinkWrap.Returned 0 e
            /\ ShrinkWrap.nAllocations e = 3%nat.
Proof.
  intros HNx HNy Hsmall Hlen.
  destruct (shrinkWrap_returns intensity Nx Ny p HNx HNy Hsmall Hlen)
    as (b0 & out0 & b & out & hist & _ & _ & ->).
  eexists. split; reflexivity.
Qed.

Lemma shrinkWrap_status (rIntensity : option (list float)) (rSize : list Z)
    (p : ShrinkWrap.parameters) (status : Z) (e : ShrinkWrap.effects) :
  shrinkWrap rIntensity rSize p = ShrinkWrap.Returned status e ->
  (status = 1 /\ (length rSize <> 2%nat \/ rIntensity = None))
  \/ (status = 0 /\ length rSize = 2%nat /\ rIntensity <> None).
Proof.
  unfold ShrinkWrap.shrinkWrap.
  destruct (Nat.eqb_spec (length rSize) 2) as [Hlen|Hlen]; cbn [negb]; cbv iota.
  - destruct rIntensity as [intensity|].
    + destruct (ShrinkWrap.shrinkWrapElements NDEBUG rSize); try discriminate.
      destruct (_ <? _)%nat; [discriminate|].
      destruct (ShrinkWrap.shrinkWrapInit _ _ _ _ _ _ _ _ _) as [[b0 out0]| |];
        try discriminate.
      destruct (shrinkWrapCycles _ _ _ _ _ _ _ _ _ _) as [[b out] hist].
      intros [= <- <-]. right. repeat split; [exact Hlen | discriminate].
    + intros [= <- <-]. left. auto.
  - intros [= <- <-]. left. auto.
Qed.

Lemma cudaShrinkWrap_invalid (rIoData : option (list float)) (W H : Z)
    (p : ShrinkWrap.parameters) :
  NDEBUG = false -> W <= 0 \/ H <= 0 \/ rIoData = None ->
  cudaShrinkWrap rIoData W H p
  = ShrinkWrap.Aborted (ShrinkWrap.Effects rIoData 0 [] []).
Proof.
  intros HN Hinv. unfold ShrinkWrap.cudaShrinkWrap. rewrite HN. simpl orb.
  destruct (Z.ltb_spec 0 W); simpl; [|reflexivity].
  destruct (Z.ltb_spec 0 H); simpl; [|reflexivity].
  destruct rIoData as [io|]; simpl; [|reflexivity].
  destruct Hinv as [?|[?|?]]; [lia | lia | discriminate].
Qed.

(** On a non-empty image the accelerator driver enters its first cycle
    ([rnCycles] and [rnHioCycles] are at least 1 after the defaulting)
    and its debugging copies leave the buffers: no such call has a
    defined outcome. *)
Lemma cudaShrinkWrap_undefined (io : list float) (W H : Z) (p : ShrinkWrap.parameters) :
  0 < W -> 0 < H -> 0 < wrap_unsigned (W * H) ->
  0 <= ShrinkWrap.rnCycles p -> 0 <= ShrinkWrap.rnHioCycles p ->
  cudaShrinkWrap (Some io) W H p = ShrinkWrap.UndefinedBehaviour.
Proof.
  intros HW HH Hn Hc Hh. unfold ShrinkWrap.cudaShrinkWrap.
  destruct (Z.ltb_spec 0 W); [|lia]. destruct (Z.ltb_spec 0 H); [|lia].
  rewrite !orb_true_r. cbn [negb]. cbv iota.
  set (n := Z.to_nat (wrap_unsigned (W * H))).
  assert (Hnn : 0 < Z.of_nat n < 2 ^ 32).
  { unfold n. rewrite Z2Nat.id by lia. split; [exact Hn|].
    unfold wrap_unsigned. apply Z.mod_pos_bound. reflexivity. }
  destruct (_ <? _)%nat; [reflexivity|].
  set (q := ShrinkWrap.cudaShrinkWrapDefaults p).
  assert (Hcycles : 0 < ShrinkWrap.rnCycles q).
  { unfold q. cbn [ShrinkWrap.cudaShrinkWrapDefaults ShrinkWrap.rnCycles].
    unfold ShrinkWrap.orDefaultCount. destruct (Z.eqb_spec (ShrinkWrap.rnCycles p) 0); lia. }
  assert (Hhio : 0 < ShrinkWrap.rnHioCycles q).
  { unfold q. cbn [ShrinkWrap.cudaShrinkWrapDefaults ShrinkWrap.rnHioCycles].
    unfold ShrinkWrap.orDefaultCount.
    destruct (Z.eqb_spec (ShrinkWrap.rnHioCycles p) 0); lia. }
  destruct (Z.to_nat (ShrinkWrap.rnCycles q)) as [|k] eqn:Ek; [lia|].
  cbn [ShrinkWrap.cudaShrinkWrapCycles].
  destruct (ShrinkWrap.debugCopy n (Z.of_nat n)) as [[]| |];
    cbn [result_bind]; try reflexivity.
  rewrite cudaHioLoop_undefined by assumption. reflexivity.
Qed.

Lemma cudaShrinkWrap_status (rIoData : option (list float)) (W H : Z)
    (p : ShrinkWrap.parameters) (status : Z) (e : ShrinkWrap.effects) :
  cudaShrinkWrap rIoData W H p = ShrinkWrap.Returned status e -> status = 0.
Proof.
  unfold ShrinkWrap.cudaShrinkWrap.
  repeat (destruct (negb _); [discriminate|]).
  destruct rIoData as [io|]; [|discriminate].
  destruct (_ <? _)%nat; [discriminate|].
  destruct (cudaShrinkWrapCycles _ _ _ _ _ _ _ _ _ _) as [[[b out] hist]| |];
    try discriminate.
  intros [= <- _]. reflexivity.
Qed.



(** *** The mask update *)

Section MaskUpdate.

(** The modulus and the blur work in place on buffers of [n] pixels. *)
Hypothesis norm_length :
  forall src n, length (complexNormElementwise src n) = n.
Hypothesis blur_length :
  forall data Nx Ny sigma, length (gaussianBlur data Nx Ny sigma) = length data.

Lemma thresholdMask_recomputed (cutOff : float) (Nx Ny : Z) (n : nat)
    (b : ShrinkWrap.buffers) :
  mask_recomputed complexNormElementwise gaussianBlur vectorMax cutOff Nx Ny n b
    (ShrinkWrap.thresholdMask vectorMax n cutOff
       (ShrinkWrap.blurredNorm complexNormElementwise gaussianBlur Nx Ny n b)).
Proof.
  unfold mask_recomputed, ShrinkWrap.thresholdMask, ShrinkWrap.blurredNorm,
    Elementwise.cutOff.
  set (blurred := gaussianBlur _ Nx Ny _).
  assert (Hlen : length blurred = n)
    by (unfold blurred; rewrite blur_length; apply norm_length).
  split; [apply for_each_length; exact Hlen|].
  split.
  - intros i v Hv. rewrite for_each_lookup by exact Hlen. rewrite Hv. reflexivity.
  - apply Forall_lookup. intros i m Hm.
    rewrite for_each_lookup in Hm by exact Hlen.
    destruct (blurred !! i) as [v|]; simpl in Hm; [|discriminate].
    injection Hm as <-. destruct (Ieee.ltb v _); auto.
Qed.

(** C1 (as amended): in every executed cycle of either driver the inner
    HIO loop runs on the mask recomputed from the buffer and the sigma
    the cycle started with: modulus, blur, threshold at a factor times
    the maximum, 1 strictly below and 0 elsewhere, so every entry is 0 or
    1.  In the FFTW driver the factor is [rIntensityCutOff] in every
    cycle; its first cycle starts from the measured intensity, copied
    once more into the real parts of [curData], and every later cycle
    from the estimate the inner loop of the cycle before left.  The mask
    update of the accelerator driver uses [rIntensityCutOffAutoCorel] in
    cycle 0 and [rIntensityCutOff] afterwards, whatever buffers it is
    run on, and so do the cycles of its executions. *)
Theorem mask_update_every_cycle (rIoData : option (list float)) (Nx Ny : Z)
    (p : ShrinkWrap.parameters) :
  let n := pixels Nx Ny in
  let m := Z.to_nat (wrap_unsigned (Nx * Ny)) in
  let recomputed := mask_recomputed complexNormElementwise gaussianBlur vectorMax in
  let p' := ShrinkWrap.shrinkWrapDefaults p in
  let q := ShrinkWrap.cudaShrinkWrapDefaults p in
  let cycles := history_of (shrinkWrap rIoData [Nx; Ny] p) in
  Forall (fun r =>
            recomputed (ShrinkWrap.rIntensityCutOff p')
              Nx Ny n (ShrinkWrap.cr_start r)
              (ShrinkWrap.isMasked (ShrinkWrap.cr_hio_entry r))
            /\ exists intensity beta nHio,
                ShrinkWrap.cr_end r
                = hioLoop [Nx; Ny] n intensity beta nHio (ShrinkWrap.cr_hio_entry r))
         cycles
  /\ (forall r, cycles !! 0%nat = Some r ->
        exists intensity,
          rIoData = Some intensity
          /\ ShrinkWrap.curData (ShrinkWrap.cr_start r)
             = Elementwise.copyToRealPart intensity n
                 (fftToRealSpace [Nx; Ny]
                    (Elementwise.copyToRealPart intensity n
                       (replicate n (F32.zero, F32.zero)))))
  /\ (forall k r r', cycles !! k = Some r -> cycles !! S k = Some r' ->
        ShrinkWrap.cr_start r' = ShrinkWrap.cr_end r)
  /\ (forall iCycle b,
        recomputed
          (if iCycle =? 0 then ShrinkWrap.rIntensityCutOffAutoCorel q
           else ShrinkWrap.rIntensityCutOff q)
          Nx Ny m b (ShrinkWrap.isMasked (cudaUpdateMask iCycle Nx Ny m q b)))
  /\ Forall (fun r =>
               recomputed
                 (if ShrinkWrap.cr_index r =? 0
                  then ShrinkWrap.rIntensityCutOffAutoCorel q
                  else ShrinkWrap.rIntensityCutOff q)
                 Nx Ny m (ShrinkWrap.cr_start r)
                 (ShrinkWrap.isMasked (ShrinkWrap.cr_hio_entry r))
               /\ exists intensity beta nHio,
                   ShrinkWrap.cr_end r
                   = hioLoop [Nx; Ny] m intensity beta nHio (ShrinkWrap.cr_hio_entry r))
            (history_of (cudaShrinkWrap rIoData Nx Ny p)).
Proof.
  intros n m recomputed p' q cycles.
  assert (Hcpu :
    cycles = []
    \/ exists intensity b' b0 out0,
         rIoData = Some intensity
         /\ shrinkWrapInit Nx Ny n intensity p' = Ok (b0, out0)
         /\ cycles_from (fun _ => shrinkWrapUpdateMask Nx Ny n p')
              (hioLoop [Nx; Ny] n intensity (ShrinkWrap.rHioBeta p')
                 (ShrinkWrap.rnHioCycles p'))
              0 b0 cycles b').
  { destruct (shrinkWrap_history rIoData Nx Ny p)
      as [Hnone | (intensity & rs & b' & b0 & out0 & Hio & Hinit & Hrs & Hch)];
      [left; exact Hnone|].
    right. exists intensity, b', b0, out0. unfold cycles. rewrite Hrs. auto. }
  split; [|split; [|split; [|split]]].
  - destruct Hcpu as [-> | (intensity & b' & b0 & out0 & _ & _ & Hch)]; [constructor|].
    eapply Forall_impl; [exact (cycles_from_Forall _ _ _ _ _ _ Hch)|].
    intros r [Hentry Hend]. split.
    + rewrite Hentry. apply thresholdMask_recomputed.
    + eauto.
  - destruct Hcpu as [-> | (intensity & b' & b0 & out0 & Hio & Hinit & Hch)];
      [intros r Hr; discriminate Hr|].
    intros r Hr. exists intensity. split; [exact Hio|].
    rewrite (proj1 (cycles_from_linked _ _ _ _ _ _ Hch) r Hr).
    exact (proj1 (shrinkWrapInit_buffers Nx Ny n intensity p' b0 out0 Hinit)).
  - destruct Hcpu as [-> | (intensity & b' & b0 & out0 & _ & _ & Hch)];
      [intros k r r' Hr; discriminate Hr|].
    exact (proj2 (cycles_from_linked _ _ _ _ _ _ Hch)).
  - intros iCycle b. apply thresholdMask_recomputed.
  - destruct (cudaShrinkWrap_history rIoData Nx Ny p)
      as [-> | (intensity & rs & b' & -> & Hch)]; [constructor|].
    eapply Forall_impl; [exact (cycles_from_Forall _ _ _ _ _ _ Hch)|].
    intros r [Hentry Hend]. split.
    + rewrite Hentry. apply thresholdMask_recomputed.
    + eauto.
Qed.

End MaskUpdate.

End DriverProperties.

(** ** The drivers on a 1x1 image *)

Lemma complexNormElementwise_length (src : list complex) (n : nat) :
  length (Elementwise.complexNormElementwise src n) = n.
Proof.
  unfold Elementwise.complexNormElementwise. rewrite length_map, length_seq. reflexivity.
Qed.

(** C1, the claim as stated fails: with [rIntensityCutOff = 2] and the
    other parameters unset, the mask update of cycle 0 of the
    accelerator driver, on the buffers the driver enters its loop with
    for a pixel of intensity 1, thresholds at 0.04 * 1 and leaves the
    mask at 0, where the factor rIntensityCutOff would set it to 1. *)
Lemma mask_update_first_cycle_counterexample :
  let p := ShrinkWrap.Parameters 0 F32.zero F32.zero F32.zero (F32.of_Z 2)
             F32.zero F32.zero 0 in
  let q := ShrinkWrap.cudaShrinkWrapDefaults p in
  let b0 := ShrinkWrap.cudaShrinkWrapInit OnePixel.fft 1 1 1 [F32.one] q in
  let entry := ShrinkWrap.cudaUpdateMask Elementwise.complexNormElementwise
                 OnePixel.gaussianBlur Reduce.vectorMax 0 1 1 1 q b0 in
  ShrinkWrap.isMasked entry = [F32.zero]
  /\ ~ mask_recomputed Elementwise.complexNormElementwise
         OnePixel.gaussianBlur Reduce.vectorMax
         (ShrinkWrap.rIntensityCutOff q) 1 1 1 b0 (ShrinkWrap.isMasked entry).
Proof.
  intros p q b0 entry. split; [vm_compute; reflexivity|].
  intros (_ & Hpix & _).
  specialize (Hpix 0%nat F32.one eq_refl).
  vm_compute in Hpix. discriminate Hpix.
Qed.

Lemma mask_update_every_cycle_witness :
  let cycles := history_of (OnePixel.shrinkWrap OnePixel.image [1; 1] three_cycles) in
  length cycles = 3%nat
  /\ Forall (fun r =>
               mask_recomputed Elementwise.complexNormElementwise OnePixel.gaussianBlur
                 Reduce.vectorMax
                 (ShrinkWrap.rIntensityCutOff (ShrinkWrap.shrinkWrapDefaults three_cycles))
                 1 1 (pixels 1 1) (ShrinkWrap.cr_start r)
                 (ShrinkWrap.isMasked (ShrinkWrap.cr_hio_entry r))
               /\ exists intensity beta nHio,
                   ShrinkWrap.cr_end r
                   = ShrinkWrap.hioLoop OnePixel.fft OnePixel.fft
                       Elementwise.applyComplexModulus [1; 1] (pixels 1 1)
                       intensity beta nHio (ShrinkWrap.cr_hio_entry r))
            cycles
  /\ (forall k r r', cycles !! k = Some r -> cycles !! S k = Some r' ->
        ShrinkWrap.cr_start r' = ShrinkWrap.cr_end r).
Proof.
  intros cycles.
  destruct (mask_update_every_cycle false OnePixel.fft OnePixel.fft
              Elementwise.complexNormElementwise OnePixel.gaussianBlur Reduce.vectorMax
              Elementwise.applyComplexModulus Reduce.hioError
              complexNormElementwise_length (fun data Nx Ny sigma => eq_refl)
              OnePixel.image 1 1 three_cycles) as (Hmask & _ & Hnext & _).
  split; [vm_compute; reflexivity|]. split; [exact Hmask | exact Hnext].
Defined.

(** C2, the FFTW driver at the failing input: with every parameter unset
    it executes no cycle and returns the intensity it was given, while
    with [rnCycles = 20] passed explicitly it executes a first cycle and
    prints its progress. *)
Theorem shrinkWrap_nCycles_sentinel :
  let explicit := ShrinkWrap.Parameters 20 F32.zero F32.zero F32.zero F32.zero
                    F32.zero F32.zero 0 in
  explicit_defaults OnePixel.unset explicit
  /\ history_of (OnePixel.shrinkWrap OnePixel.image [1; 1] OnePixel.unset) = []
  /\ length (history_of (OnePixel.shrinkWrap OnePixel.image [1; 1] explicit)) = 1%nat
  /\ OnePixel.shrinkWrap OnePixel.image [1; 1] OnePixel.unset
     <> OnePixel.shrinkWrap OnePixel.image [1; 1] explicit
  /\ history_of (OnePixel.cudaShrinkWrap OnePixel.image 1 1 OnePixel.unset)
     = history_of (OnePixel.cudaShrinkWrap OnePixel.image 1 1 explicit).
Proof.
  intros explicit. split.
  { split; first [left; reflexivity | right; split; reflexivity]. }
  split; [vm_compute; reflexivity|].
  split; [vm_compute; reflexivity|].
  split; [|vm_compute; reflexivity].
  intros Heq. apply (f_equal history_of) in Heq. vm_compute in Heq. discriminate Heq.
Qed.



(** ** The Gaussian kernel builders *)

Section Kernel2d.

Variable NDEBUG : bool.
Variable weight2d : float -> Z -> Z -> Z -> Z -> Z -> Z -> float.
Variable T_Prec : Ieee.format.

Local Abbreviation fillStep := (GaussianKernel.fillStep weight2d).
Local Abbreviation normalizeStep := (GaussianKernel.normalizeStep T_Prec).

Lemma store_sized i v buffer :
  match GaussianKernel.store i v buffer with
  | Ok b => length b = length buffer
  | AssertionFailed => False
  | Undefined => True
  end.
Proof.
  unfold GaussianKernel.store. destruct (_ && _); [|exact I].
  apply length_insert.
Qed.

Lemma fillStep_sized L rSigma cx cy X Y ix iy st :
  sized L st -> sized L (fillStep rSigma cx cy X Y ix iy st).
Proof.
  destruct st as [s| |]; simpl; try tauto. intros Hs.
  unfold GaussianKernel.fillStep. simpl.
  pose proof (store_sized (wrap_unsigned (iy * X + ix))
                (weight2d rSigma cx cy X Y ix iy) (GaussianKernel.weights2d s)) as Hst.
  destruct (GaussianKernel.store _ _ _); simpl; [congruence | tauto | exact I].
Qed.

Lemma normalizeStep_sized L i st :
  sized L st -> sized L (normalizeStep i st).
Proof.
  destruct st as [s| |]; simpl; try tauto. intros Hs.
  unfold GaussianKernel.normalizeStep. simpl.
  unfold GaussianKernel.load. destruct (_ && _); simpl; [|exact I].
  match goal with
  | |- context [GaussianKernel.store ?i ?v ?b] =>
      pose proof (store_sized i v b) as Hst; destruct (GaussianKernel.store i v b)
  end; simpl; [congruence | tauto | exact I].
Qed.

Lemma normalizeStep_past_the_end L st :
  sized L st -> normalizeStep (Z.of_nat L) st = Undefined.
Proof.
  destruct st as [s| |]; simpl; try tauto. intros Hs.
  unfold GaussianKernel.normalizeStep. simpl.
  unfold GaussianKernel.load. rewrite Hs.
  rewrite Z.ltb_irrefl, andb_false_r. reflexivity.
Qed.

(** C10, the code at the failing inputs: on a caller-supplied buffer of
    exactly [rnWeightsX * rnWeightsY] weights, with all assertions
    satisfied, the call runs into an access outside the buffer: the final
    pass [for ( auto i = 0u; i <= rnWeightsX * rnWeightsY; ++i )] reads
    and writes index [rnWeightsX * rnWeightsY]. *)
Theorem calcGaussianKernel2d_past_the_end (rSigma : float) (rCenterX rCenterY : Z)
    (rWeights : list float) (rnWeightsX rnWeightsY : Z) :
  0 < rnWeightsX -> 0 < rnWeightsY -> rnWeightsX * rnWeightsY < 2 ^ 32 ->
  Z.of_nat (length rWeights) = rnWeightsX * rnWeightsY ->
  Ieee.leb F64.zero rSigma = true ->
  0 <= rCenterX <= rnWeightsX -> 0 <= rCenterY <= rnWeightsY ->
  GaussianKernel.calcGaussianKernel2d NDEBUG weight2d T_Prec rSigma rCenterX rCenterY
    rWeights rnWeightsX rnWeightsY = Undefined.
Proof.
  intros HX HY Hprod Hlen Hsigma HcX HcY.
  unfold GaussianKernel.calcGaussianKernel2d, c_assert.
  rewrite Hsigma.
  destruct (Z.leb_spec 0 rnWeightsX); [|lia].
  destruct (Z.leb_spec 0 rnWeightsY); [|lia].
  destruct (Z.leb_spec rCenterX rnWeightsX); [|lia].
  destruct (Z.leb_spec rCenterY rnWeightsY); [|lia].
  rewrite !orb_true_r. cbn [result_bind]. cbv zeta.
  unfold wrap_unsigned. rewrite Z.mod_small by lia.
  match goal with
  | |- context [for_range (Z.to_nat rnWeightsX) ?body ?init] =>
      set (filled := for_range (Z.to_nat rnWeightsX) body init)
  end.
  assert (Hfilled : sized (length rWeights) filled).
  { apply for_range_invariant.
    { intros ix st _ Hst. apply for_range_invariant; [|exact Hst].
      intros iy st' _. apply fillStep_sized. }
    simpl. lia. }
  destruct (Z.eqb_spec (rnWeightsX * rnWeightsY) (2 ^ 32 - 1)) as [Hlast|Hlast].
  { destruct filled as [s| |]; [reflexivity | contradiction | reflexivity]. }
  rewrite for_range_S.
  replace (Z.of_nat (Z.to_nat (rnWeightsX * rnWeightsY)))
    with (Z.of_nat (length rWeights)) by lia.
  apply normalizeStep_past_the_end.
  apply for_range_invariant.
  { intros i st _. apply normalizeStep_sized. }
  exact Hfilled.
Qed.

End Kernel2d.

Lemma calcGaussianKernel2d_past_the_end_witness :
  GaussianKernel.calcGaussianKernel2d false (fun _ _ _ _ _ _ _ => F32.one)
    Ieee.binary32 F64.one 0 0 [F32.zero; F32.zero; F32.zero; F32.zero;
                               F32.zero; F32.zero] 3 2
  = Undefined.
Proof.
  apply (calcGaussianKernel2d_past_the_end false (fun _ _ _ _ _ _ _ => F32.one)
           Ieee.binary32 F64.one 0 0
           [F32.zero; F32.zero; F32.zero; F32.zero; F32.zero; F32.zero] 3 2);
    first [reflexivity | lia].
Defined.

(** With one weight to spare the run is defined, and index
    [rnWeightsX * rnWeightsY] is the last one accessed. *)
Example calcGaussianKernel2d_last_access :
  match GaussianKernel.calcGaussianKernel2d false (fun _ _ _ _ _ _ _ => F32.one)
          Ieee.binary32 F64.one 0 0 (replicate 7 F32.zero) 3 2 with
  | Ok s => head (GaussianKernel.accessed2d s) = Some (3 * 2)
  | _ => False
  end.
Proof. vm_compute. reflexivity. Qed.

Section Kernel1d.

Variable NDEBUG : bool.
Variable T_Prec : Ieee.format.
Variable exp_fin : float -> float.

Local Abbreviation calcGaussianKernel :=
  (GaussianKernel.calcGaussianKernel NDEBUG T_Prec exp_fin).

Lemma mul_nan_r (fmt : Ieee.format) (x : float) : Ieee.mul fmt x S754_nan = S754_nan.
Proof. destruct x; reflexivity. Qed.

(** A sigma so small that the half width is 0 and [b = -1/(2 sigma^2)]
    is minus infinity: the exponent [i*i*b] of the only weight is
    [0 * -inf], and the kernel consists of a NaN. *)
Lemma calcGaussianKernel_degenerate (rSigma : float) (buffer : list float)
    (rnWeights : Z) (rMinAbsoluteError : float) :
  Ieee.ltb F64.zero rMinAbsoluteError = true ->
  Ieee.leb F64.zero rSigma = true ->
  Ieee.to_int (GaussianKernel.halfWidth rSigma) = Some 0 ->
  GaussianKernel.coeff_b rSigma = S754_infinity true ->
  1 <= rnWeights -> (1 <= length buffer)%nat ->
  calcGaussianKernel rSigma (Some buffer) rnWeights rMinAbsoluteError
  = Ok (1, Some (<[0%nat := S754_nan]> buffer)).
Proof.
  intros Heps Hsigma Hn Hb Hcap Hlen.
  unfold GaussianKernel.calcGaussianKernel, c_assert.
  rewrite Heps, Hsigma, Hn, Hb, !orb_true_r.
  cbn [result_bind]. change (int_value (2 * 0)) with (Ok 0). cbn [result_bind].
  change (int_value (0 + 1)) with (Ok 1). cbn [result_bind].
  change (0 <? 1) with true. rewrite orb_true_r. cbn [result_bind].
  change (wrap_unsigned 1) with 1.
  destruct (Z.ltb_spec rnWeights 1); [lia|].
  destruct (Z.ltb_spec (Z.of_nat (length buffer)) 1); [lia|].
  unfold GaussianKernel.fillWeights, GaussianKernel.normalizeWeights.
  change (GaussianKernel.nIterations 0) with 1%nat.
  rewrite !for_range_S. unfold for_range. cbn [foldl seq].
  unfold GaussianKernel.fillWeight. cbn [result_bind fst snd].
  change (GaussianKernel.loopVar 0 0) with 0. change (Z.to_nat (0 + 0)) with 0%nat.
  assert (Hw : GaussianKernel.weight T_Prec exp_fin (GaussianKernel.coeff_a rSigma)
                 (S754_infinity true) 0 = Ok S754_nan).
  { unfold GaussianKernel.weight. change (int_value (0 * 0)) with (Ok 0).
    cbn [result_bind]. unfold GaussianKernel.weightOf.
    change (F64.mul (F64.of_Z 0) (S754_infinity true)) with S754_nan.
    cbn [Ieee.c_exp]. unfold F64.mul. rewrite mul_nan_r. reflexivity. }
  rewrite Hw. cbn [result_bind fst snd].
  rewrite list_lookup_total_insert_eq by lia.
  change (Ieee.convert T_Prec (F64.div (F64.of_float S754_nan) _)) with S754_nan.
  rewrite list_insert_insert_eq. reflexivity.
Qed.

(** C5, the code at the failing input [sigma = 0]: with a buffer of
    capacity at least 1 the builder returns length 1, as claimed, but the
    weight it writes is a NaN instead of 1.0 ([a] is +inf, [b] is -inf,
    and the normalisation divides NaN by NaN). *)
Theorem calcGaussianKernel_sigma_zero (buffer : list float) (rnWeights : Z)
    (rMinAbsoluteError : float) :
  Ieee.ltb F64.zero rMinAbsoluteError = true ->
  1 <= rnWeights -> (1 <= length buffer)%nat ->
  calcGaussianKernel F64.zero (Some buffer) rnWeights rMinAbsoluteError
  = Ok (1, Some (<[0%nat := S754_nan]> buffer))
  /\ Ieee.eqb S754_nan F32.one = false.
Proof.
  intros Heps Hcap Hlen. split; [|reflexivity].
  apply calcGaussianKernel_degenerate; try assumption; reflexivity.
Qed.

(** C6, the code at a failing input: [sigma = 2^-600] is positive, but
    [2 sigma^2] underflows to 0, so every weight of the (one-element)
    kernel is a NaN: the weights do not sum to 1, and the comparison
    [w[0] == w[-0]] is false. *)
Theorem calcGaussianKernel_tiny_sigma (buffer : list float) (rnWeights : Z)
    (rMinAbsoluteError : float) :
  Ieee.ltb F64.zero rMinAbsoluteError = true ->
  1 <= rnWeights -> (1 <= length buffer)%nat ->
  Ieee.ltb F64.zero tiny_sigma = true
  /\ F64.valid tiny_sigma = true
  /\ calcGaussianKernel tiny_sigma (Some buffer) rnWeights rMinAbsoluteError
     = Ok (1, Some (<[0%nat := S754_nan]> buffer))
  /\ Ieee.eqb S754_nan S754_nan = false.
Proof.
  intros Heps Hcap Hlen. split; [reflexivity|]. split; [reflexivity|].
  split; [|reflexivity].
  apply calcGaussianKernel_degenerate; try assumption; reflexivity.
Qed.

End Kernel1d.

Lemma calcGaussianKernel_sigma_zero_witness :
  GaussianKernel.calcGaussianKernel false Ieee.binary32 (fun _ => F64.one)
    F64.zero (Some [F32.zero]) 1 (F64.literal 1 7)
  = Ok (1, Some (<[0%nat := S754_nan]> [F32.zero]))
  /\ Ieee.eqb S754_nan F32.one = false.
Proof.
  apply (calcGaussianKernel_sigma_zero false Ieee.binary32 (fun _ => F64.one)
           [F32.zero] 1 (F64.literal 1 7)); [reflexivity | lia | simpl; lia].
Defined.

Lemma calcGaussianKernel_tiny_sigma_witness :
  Ieee.ltb F64.zero tiny_sigma = true
  /\ F64.valid tiny_sigma = true
  /\ GaussianKernel.calcGaussianKernel false Ieee.binary32 (fun _ => F64.one)
       tiny_sigma (Some [F32.zero]) 1 (F64.literal 1 7)
     = Ok (1, Some (<[0%nat := S754_nan]> [F32.zero]))
  /\ Ieee.eqb S754_nan S754_nan = false.
Proof.
  apply (calcGaussianKernel_tiny_sigma false Ieee.binary32 (fun _ => F64.one)
           [F32.zero] 1 (F64.literal 1 7)); [reflexivity | lia | simpl; lia].
Defined.

(** *** Length and symmetry of the 1D kernel *)

Lemma for_range_ext {S : Type} (n : nat) (f g : nat -> S -> S) (s : S) :
  (forall i s, (i < n)%nat -> f i s = g i s) -> for_range n f s = for_range n g s.
Proof.
  intros Hfg. induction n as [|n IH]; [reflexivity|].
  rewrite !for_range_S, IH by (intros; apply Hfg; lia). apply Hfg. lia.
Qed.

Section Kernel1dShape.

Variable NDEBUG : bool.
Variable T_Prec : Ieee.format.
Variable exp_fin : float -> float.

Local Abbreviation weight := (GaussianKernel.weight T_Prec exp_fin).
Local Abbreviation entry := (kernelEntry T_Prec exp_fin).
Local Abbreviation fillWeight := (GaussianKernel.fillWeight T_Prec exp_fin).
Local Abbreviation fillWeights := (GaussianKernel.fillWeights T_Prec exp_fin).
Local Abbreviation normalizeWeights := (GaussianKernel.normalizeWeights T_Prec).
Local Abbreviation calcGaussianKernel :=
  (GaussianKernel.calcGaussianKernel NDEBUG T_Prec exp_fin).

Lemma int_value_small (z : Z) : - 2 ^ 31 <= z < 2 ^ 31 -> int_value z = Ok z.
Proof.
  intros Hz. unfold int_value.
  destruct (Z.leb_spec (- 2 ^ 31) z); [|lia].
  destruct (Z.ltb_spec z (2 ^ 31)); [reflexivity|lia].
Qed.

Lemma int_value_large (z : Z) : 2 ^ 31 <= z -> int_value z = Undefined.
Proof.
  intros Hz. unfold int_value.
  destruct (Z.ltb_spec z (2 ^ 31)); [lia|]. rewrite andb_false_r. reflexivity.
Qed.

(** Up to the half width 46340 every square [i*i] is an [int]. *)
Lemma weight_defined (a b : float) (n i : Z) :
  0 <= n <= 46340 -> - n <= i <= n -> weight a b i = Ok (entry a b i).
Proof.
  intros Hn Hi. unfold GaussianKernel.weight.
  rewrite int_value_small; [reflexivity|].
  change (2 ^ 31) with 2147483648. nia.
Qed.

(** From the half width 46341 on the first square overflows. *)
Lemma weight_overflow (a b : float) (i : Z) :
  46341 <= i \/ i <= - 46341 -> weight a b i = Undefined.
Proof.
  intros Hi. unfold GaussianKernel.weight.
  rewrite int_value_large; [reflexivity|].
  change (2 ^ 31) with 2147483648. nia.
Qed.

(** The weight at distance [i] from the centre depends on [i * i] only. *)
Lemma weight_even (a b : float) (i : Z) : entry a b (- i) = entry a b i.
Proof. unfold kernelEntry. rewrite Z.mul_opp_opp. reflexivity. Qed.

(** The first loop writes the weights in index order. *)
Lemma fillWeights_prefix (a b : float) (n : Z) (buffer : list float) (k : nat) :
  0 <= n <= 46340 ->
  (k <= GaussianKernel.nIterations n)%nat -> (k <= length buffer)%nat ->
  for_range k (fillWeight a b n) (Ok (buffer, F64.zero))
  = Ok (map (fun j => entry a b (Z.of_nat j - n)) (seq 0 k) ++ drop k buffer,
        kernelPartialSum T_Prec exp_fin a b n k).
Proof.
  intros Hn. induction k as [|k IH]; intros Hit Hk; [reflexivity|].
  rewrite for_range_S, IH by lia.
  unfold GaussianKernel.fillWeight, GaussianKernel.loopVar, GaussianKernel.nIterations in *.
  cbn [result_bind fst snd].
  rewrite (weight_defined a b n) by lia. cbn [result_bind].
  unfold kernelPartialSum. rewrite for_range_S.
  replace (Z.to_nat (n + (- n + Z.of_nat k))) with k by lia.
  replace (- n + Z.of_nat k) with (Z.of_nat k - n) by lia.
  f_equal. f_equal.
  destruct (lookup_lt_is_Some_2 buffer k) as [x Hx]; [lia|].
  rewrite (drop_S buffer x k Hx).
  assert (Hlen : length (map (fun j => entry a b (Z.of_nat j - n)) (seq 0 k)) = k)
    by (rewrite length_map, length_seq; reflexivity).
  rewrite <- (Nat.add_0_r k) at 1. rewrite <- Hlen at 1.
  rewrite insert_app_r. cbn [list_insert insert].
  rewrite seq_S, map_app, <- app_assoc. reflexivity.
Qed.

Lemma normalizeWeights_imap (n : Z) (sum : float) (ws : list float) :
  (GaussianKernel.nIterations n <= length ws)%nat ->
  normalizeWeights n sum ws
  = imap (fun _ w => Ieee.convert T_Prec (F64.div (F64.of_float w) sum))
      (take (GaussianKernel.nIterations n) ws)
    ++ drop (GaussianKernel.nIterations n) ws.
Proof.
  intros Hlen. unfold GaussianKernel.normalizeWeights.
  rewrite <- (for_each_prefix
                (fun _ w => Ieee.convert T_Prec (F64.div (F64.of_float w) sum))
                ws (GaussianKernel.nIterations n) Hlen).
  apply for_range_ext. intros k s Hk. cbv zeta. unfold GaussianKernel.loopVar.
  replace (Z.to_nat (n + (- n + Z.of_nat k))) with k by lia. reflexivity.
Qed.

(** The length [2n + 1] is an [int] (and an [unsigned]) for half widths
    below 2^30. *)
Lemma kernel_length (n : Z) :
  0 <= n < 2 ^ 30 ->
  int_value (2 * n) = Ok (2 * n) /\ int_value (2 * n + 1) = Ok (2 * n + 1)
  /\ wrap_unsigned (2 * n + 1) = 2 * n + 1.
Proof.
  intros Hrange. change (2 ^ 30) with 1073741824 in Hrange.
  split; [|split].
  - apply int_value_small. change (2 ^ 31) with 2147483648. lia.
  - apply int_value_small. change (2 ^ 31) with 2147483648. lia.
  - unfold wrap_unsigned. change (2 ^ 32) with 4294967296. apply Z.mod_small. lia.
Qed.

(** A call whose assertions hold, whose half width is at most 46340
    and whose buffer is long enough returns, with the kernel in the
    first [2n + 1] elements. *)
Lemma calcGaussianKernel_returns (rSigma : float) (buffer : list float)
    (rnWeights : Z) (rMinAbsoluteError : float) (n : Z) :
  Ieee.ltb F64.zero rMinAbsoluteError = true ->
  Ieee.leb F64.zero rSigma = true ->
  Ieee.to_int (GaussianKernel.halfWidth rSigma) = Some n -> 0 <= n <= 46340 ->
  2 * n + 1 <= rnWeights ->
  2 * n + 1 <= Z.of_nat (length buffer) ->
  calcGaussianKernel rSigma (Some buffer) rnWeights rMinAbsoluteError
  = Ok (2 * n + 1,
        Some (normalizeWeights n (kernelSum T_Prec exp_fin rSigma n)
                (map (fun j => entry (GaussianKernel.coeff_a rSigma)
                                 (GaussianKernel.coeff_b rSigma) (Z.of_nat j - n))
                   (seq 0 (GaussianKernel.nIterations n))
                 ++ drop (GaussianKernel.nIterations n) buffer))).
Proof.
  intros Heps Hsigma Hn Hrange Hcap Hlen.
  destruct (kernel_length n ltac:(change (2 ^ 30) with 1073741824; lia))
    as (Htwice & Hw & Hu).
  unfold GaussianKernel.calcGaussianKernel. rewrite Hn, Heps, Hsigma.
  replace (bool_decide (Some buffer <> None)) with true
    by (symmetry; apply bool_decide_eq_true; discriminate).
  replace (c_assert NDEBUG true) with (Ok tt) by (destruct NDEBUG; reflexivity).
  cbn [result_bind]. rewrite Htwice. cbn [result_bind]. rewrite Hw. cbn [result_bind].
  replace (0 <? 2 * n + 1) with true by (symmetry; apply Z.ltb_lt; lia).
  replace (c_assert NDEBUG true) with (Ok tt) by (destruct NDEBUG; reflexivity).
  cbn [result_bind]. rewrite Hu.
  destruct (Z.ltb_spec rnWeights (2 * n + 1)); [lia|].
  destruct (Z.ltb_spec (Z.of_nat (length buffer)) (2 * n + 1)); [lia|].
  unfold GaussianKernel.fillWeights.
  rewrite fillWeights_prefix
    by (try exact Hrange; unfold GaussianKernel.nIterations; lia).
  cbn [result_bind fst snd]. reflexivity.
Qed.

(** What a call that fills the buffer returns: the length [2n + 1] for
    the half width [n], and at index [j] of the buffer the normalised
    weight of distance [j - n]; the rest of the buffer is untouched. *)
Lemma calcGaussianKernel_weights (rSigma : float) (buffer : list float)
    (rnWeights : Z) (rMinAbsoluteError : float) (n : Z) :
  Ieee.ltb F64.zero rMinAbsoluteError = true ->
  Ieee.leb F64.zero rSigma = true ->
  Ieee.to_int (GaussianKernel.halfWidth rSigma) = Some n -> 0 <= n <= 46340 ->
  2 * n + 1 <= rnWeights ->
  2 * n + 1 <= Z.of_nat (length buffer) ->
  exists ws,
    calcGaussianKernel rSigma (Some buffer) rnWeights rMinAbsoluteError
    = Ok (2 * n + 1, Some ws)
    /\ length ws = length buffer
    /\ (forall j : nat, Z.of_nat j < 2 * n + 1 ->
          ws !! j = Some (kernelWeight T_Prec exp_fin rSigma n (Z.of_nat j - n)))
    /\ (forall j : nat, 2 * n + 1 <= Z.of_nat j -> ws !! j = buffer !! j).
Proof.
  intros Heps Hsigma Hn Hrange Hcap Hlen.
  eexists. split.
  { apply (calcGaussianKernel_returns rSigma buffer rnWeights rMinAbsoluteError n);
      assumption. }
  set (filled := map _ _ ++ drop _ buffer).
  assert (Hflen : length filled = length buffer).
  { unfold filled, GaussianKernel.nIterations.
    rewrite length_app, length_map, length_seq, length_drop. lia. }
  rewrite normalizeWeights_imap by (unfold GaussianKernel.nIterations; lia).
  unfold filled, GaussianKernel.nIterations.
  split; [|split].
  - rewrite length_app, length_imap, length_take, length_drop.
    rewrite length_app, length_map, length_seq, length_drop. lia.
  - intros j Hj.
    rewrite lookup_app_l
      by (rewrite length_imap, length_take, length_app, length_map, length_seq,
            length_drop; lia).
    rewrite list_lookup_imap, lookup_take_lt by lia.
    rewrite lookup_app_l by (rewrite length_map, length_seq; lia).
    rewrite list_lookup_fmap, lookup_seq_lt by lia. reflexivity.
  - intros j Hj.
    rewrite lookup_app_r
      by (rewrite length_imap, length_take, length_app, length_map, length_seq,
            length_drop; lia).
    rewrite length_imap, length_take, length_app, length_map, length_seq, length_drop.
    rewrite lookup_drop.
    rewrite lookup_app_r by (rewrite length_map, length_seq; lia).
    rewrite length_map, length_seq, lookup_drop. f_equal. lia.
Qed.

(** The kernel is symmetric, bit for bit: index [n + i] and index
    [n - i] hold the same value. *)
Lemma calcGaussianKernel_symmetric (rSigma : float) (n i : Z) :
  kernelWeight T_Prec exp_fin rSigma n (- i) = kernelWeight T_Prec exp_fin rSigma n i.
Proof. unfold kernelWeight. rewrite weight_even. reflexivity. Qed.

End Kernel1dShape.

(** ** Floating-point arithmetic: rounding to nearest *)

Lemma pow2_pos (k : Z) : 0 <= k -> 0 < 2 ^ k.
Proof. intros. apply Z.pow_pos_nonneg; lia. Qed.

Lemma pow2_split (a b : Z) : 0 <= a <= b -> 2 ^ b = 2 ^ a * 2 ^ (b - a).
Proof. intros. rewrite <- Z.pow_add_r by lia. f_equal. lia. Qed.

Lemma pow2_succ (k : Z) : 0 <= k -> 2 ^ (k + 1) = 2 * 2 ^ k.
Proof. intros. rewrite Z.pow_add_r by lia. lia. Qed.

(** digits *)
Lemma digits2_pos_bounds (m : positive) :
  2 ^ (Zpos (digits2_pos m) - 1) <= Zpos m < 2 ^ Zpos (digits2_pos m).
Proof.
  induction m as [m IH | m IH |]; cbn [digits2_pos].
  - rewrite Pos2Z.inj_succ.
    replace (Z.succ (Zpos (digits2_pos m)) - 1) with ((Zpos (digits2_pos m) - 1) + 1) by lia.
    unfold Z.succ. rewrite !pow2_succ by lia. lia.
  - rewrite Pos2Z.inj_succ.
    replace (Z.succ (Zpos (digits2_pos m)) - 1) with ((Zpos (digits2_pos m) - 1) + 1) by lia.
    unfold Z.succ. rewrite !pow2_succ by lia. lia.
  - simpl. lia.
Qed.

Lemma digits2_pos_unique (m : positive) (d : Z) :
  2 ^ (d - 1) <= Zpos m < 2 ^ d -> 0 < d -> Zpos (digits2_pos m) = d.
Proof.
  intros [Hlo Hhi] Hd. pose proof (digits2_pos_bounds m) as [Hlo' Hhi'].
  destruct (Z.lt_trichotomy (Zpos (digits2_pos m)) d) as [Hlt | [Heq | Hgt]]; [|exact Heq|].
  - assert (2 ^ Zpos (digits2_pos m) <= 2 ^ (d - 1)) by (apply Z.pow_le_mono_r; lia). lia.
  - assert (2 ^ d <= 2 ^ (Zpos (digits2_pos m) - 1)) by (apply Z.pow_le_mono_r; lia). lia.
Qed.

Lemma digits2_pos_le (m1 m2 : positive) (k1 k2 : Z) :
  0 <= k1 -> 0 <= k2 ->
  Zpos m1 * 2 ^ k1 <= Zpos m2 * 2 ^ k2 ->
  Zpos (digits2_pos m1) + k1 <= Zpos (digits2_pos m2) + k2.
Proof.
  intros Hk1 Hk2 Hle.
  pose proof (digits2_pos_bounds m1) as [Hlo1 _].
  pose proof (digits2_pos_bounds m2) as [_ Hhi2].
  destruct (Z.le_gt_cases (Zpos (digits2_pos m1) + k1) (Zpos (digits2_pos m2) + k2)) as [H|H];
    [exact H|]. exfalso.
  assert (H1 : 2 ^ (Zpos (digits2_pos m1) - 1 + k1) <= Zpos m1 * 2 ^ k1).
  { rewrite Z.pow_add_r by lia. pose proof (pow2_pos k1 Hk1). nia. }
  assert (H2 : Zpos m2 * 2 ^ k2 < 2 ^ (Zpos (digits2_pos m2) + k2)).
  { rewrite Z.pow_add_r by lia. pose proof (pow2_pos k2 Hk2). nia. }
  assert (2 ^ (Zpos (digits2_pos m2) + k2) <= 2 ^ (Zpos (digits2_pos m1) - 1 + k1))
    by (apply Z.pow_le_mono_r; lia).
  lia.
Qed.

Lemma Zdigits2_pos (m : positive) : Zdigits2 (Zpos m) = Zpos (digits2_pos m).
Proof. reflexivity. Qed.

(** left shifts *)
Lemma pos_iter_xO (m d : positive) : Zpos (Pos.iter xO m d) = Zpos m * 2 ^ Zpos d.
Proof.
  induction d as [|d IH] using Pos.peano_ind.
  - simpl. lia.
  - rewrite Pos.iter_succ, Pos2Z.inj_xO, IH, Pos2Z.inj_succ.
    unfold Z.succ. rewrite pow2_succ by lia. lia.
Qed.

(** right shifts *)
Lemma iter_pos_nat {A : Type} (f : A -> A) (p : positive) (x : A) :
  iter_pos f p x = Nat.iter (Pos.to_nat p) f x.
Proof.
  revert x. induction p as [p IH | p IH |]; intros x; cbn [iter_pos].
  - rewrite !IH. rewrite Pos2Nat.inj_xI.
    replace (S (2 * Pos.to_nat p)) with (Pos.to_nat p + Pos.to_nat p + 1)%nat by lia.
    rewrite !Nat.iter_add. reflexivity.
  - rewrite !IH. rewrite Pos2Nat.inj_xO.
    replace (2 * Pos.to_nat p)%nat with (Pos.to_nat p + Pos.to_nat p)%nat by lia.
    rewrite Nat.iter_add. reflexivity.
  - reflexivity.
Qed.

Lemma shr_1_nonneg (m : Z) (r s : bool) :
  0 <= m ->
  shr_1 (Build_shr_record m r s) = Build_shr_record (m / 2) (Z.odd m) (r || s).
Proof.
  intros Hm. rewrite <- Z.div2_div.
  destruct m as [|[p|p|]|p]; try reflexivity. lia.
Qed.

Lemma odd_div_pow2 (m k : Z) :
  0 <= m -> 0 <= k ->
  Z.odd (m / 2 ^ k) = (2 ^ k <=? m mod 2 ^ (k + 1)).
Proof.
  intros Hm Hk. pose proof (pow2_pos k Hk) as Hp.
  rewrite pow2_succ by lia. rewrite (Z.mul_comm 2), Z.rem_mul_r by lia.
  pose proof (Z.mod_pos_bound m (2 ^ k) Hp) as Hr.
  rewrite Zodd_mod.
  pose proof (Z.mod_pos_bound (m / 2 ^ k) 2 ltac:(lia)) as Hb.
  set (r := m mod 2 ^ k) in *. set (b := (m / 2 ^ k) mod 2) in *.
  assert (Hb' : b = 0 \/ b = 1) by lia.
  destruct Hb' as [-> | ->]; simpl Z.eqb.
  - rewrite Z.mul_0_r, Z.add_0_r. symmetry. apply Z.leb_gt. lia.
  - rewrite Z.mul_1_r. symmetry. apply Z.leb_le. lia.
Qed.

Lemma sticky_step (m k : Z) :
  0 <= m -> 0 <= k ->
  (2 ^ k <=? m mod 2 ^ (k + 1)) || negb (m mod 2 ^ k =? 0)
  = negb (m mod 2 ^ (k + 1) =? 0).
Proof.
  intros Hm Hk. pose proof (pow2_pos k Hk) as Hp.
  rewrite pow2_succ by lia. rewrite (Z.mul_comm 2), Z.rem_mul_r by lia.
  pose proof (Z.mod_pos_bound m (2 ^ k) Hp) as Hr.
  pose proof (Z.mod_pos_bound (m / 2 ^ k) 2 ltac:(lia)) as Hb.
  set (r := m mod 2 ^ k) in *. set (b := (m / 2 ^ k) mod 2) in *.
  assert (Hb' : b = 0 \/ b = 1) by lia.
  destruct Hb' as [-> | ->].
  - rewrite Z.mul_0_r, Z.add_0_r.
    destruct (Z.leb_spec (2 ^ k) r); [lia|]. reflexivity.
  - rewrite Z.mul_1_r.
    destruct (Z.leb_spec (2 ^ k) (r + 2 ^ k)); [|lia].
    destruct (Z.eqb_spec (r + 2 ^ k) 0); [lia|]. reflexivity.
Qed.

Lemma iter_shr_1 (m : Z) (k : nat) :
  0 <= m ->
  Nat.iter (S k) shr_1 (Build_shr_record m false false)
  = Build_shr_record (m / 2 ^ (Z.of_nat k + 1))
      (2 ^ Z.of_nat k <=? m mod 2 ^ (Z.of_nat k + 1))
      (negb (m mod 2 ^ Z.of_nat k =? 0)).
Proof.
  intros Hm. induction k as [|k IH].
  - cbn [Nat.iter]. rewrite shr_1_nonneg by lia.
    pose proof (odd_div_pow2 m 0 Hm ltac:(lia)) as Hodd.
    rewrite Z.pow_0_r, Z.div_1_r in Hodd. rewrite Hodd.
    change (Z.of_nat 0) with 0. rewrite Z.pow_0_r, Z.mod_1_r. reflexivity.
  - rewrite Nat.iter_succ, IH.
    rewrite shr_1_nonneg by (apply Z.div_pos; [lia | apply pow2_pos; lia]).
    rewrite Nat2Z.inj_succ. unfold Z.succ.
    rewrite Z.div_div by (try apply pow2_pos; lia).
    rewrite (Z.mul_comm _ 2), <- pow2_succ by lia.
    rewrite (odd_div_pow2 m (Z.of_nat k + 1)) by lia.
    rewrite sticky_step by lia. reflexivity.
Qed.

Lemma shr_pos (m : Z) (e n : Z) :
  0 <= m -> 0 < n ->
  shr (Build_shr_record m false false) e n
  = (Build_shr_record (m / 2 ^ n) (2 ^ (n - 1) <=? m mod 2 ^ n)
       (negb (m mod 2 ^ (n - 1) =? 0)), e + n).
Proof.
  intros Hm Hn. destruct n as [|p|p]; try lia.
  unfold shr. rewrite iter_pos_nat.
  destruct (Pos.to_nat p) as [|k] eqn:Hk; [lia|].
  rewrite iter_shr_1 by lia.
  replace (Z.of_nat k + 1) with (Zpos p) by lia.
  replace (Z.of_nat k) with (Zpos p - 1) by lia. reflexivity.
Qed.

Lemma pos_of_Z (z : Z) : 0 < z -> exists p, z = Zpos p.
Proof. intros Hz. destruct z as [|p|p]; try lia. exists p. reflexivity. Qed.

Lemma digits_pow2 (t : Z) (p : positive) : 0 <= t -> Zpos p = 2 ^ t -> Zpos (digits2_pos p) = t + 1.
Proof.
  intros Ht Hp. apply digits2_pos_unique; [|lia].
  replace (t + 1 - 1) with t by lia. rewrite pow2_succ by lia.
  pose proof (pow2_pos t Ht). lia.
Qed.

Lemma digits_shift (m m' : positive) (k : Z) :
  0 <= k -> Zpos m' = Zpos m * 2 ^ k ->
  Zpos (digits2_pos m') = Zpos (digits2_pos m) + k.
Proof.
  intros Hk Hm.
  pose proof (digits2_pos_le m' m 0 k ltac:(lia) Hk) as H1.
  pose proof (digits2_pos_le m m' k 0 Hk ltac:(lia)) as H2.
  rewrite Z.pow_0_r, Z.mul_1_r in H1, H2. lia.
Qed.

Lemma digits_mul_ge (mx my : positive) :
  Zpos (digits2_pos mx) + Zpos (digits2_pos my) - 1 <= Zpos (digits2_pos (mx * my)).
Proof.
  pose proof (digits2_pos_bounds mx) as [Hx _].
  pose proof (digits2_pos_bounds my) as [Hy _].
  pose proof (digits2_pos_bounds (mx * my)) as [_ Hxy].
  set (dx := Zpos (digits2_pos mx)) in *. set (dy := Zpos (digits2_pos my)) in *.
  set (d := Zpos (digits2_pos (mx * my))) in *.
  assert (0 < dx /\ 0 < dy) as [? ?] by (unfold dx, dy; lia).
  destruct (Z.le_gt_cases (dx + dy - 1) d) as [H1|H1]; [exact H1|exfalso].
  assert (Hp : 2 ^ (dx - 1) * 2 ^ (dy - 1) <= Zpos mx * Zpos my).
  { apply Z.mul_le_mono_nonneg; try lia; apply Z.lt_le_incl, pow2_pos; lia. }
  rewrite <- Z.pow_add_r in Hp by lia.
  assert (2 ^ d <= 2 ^ (dx - 1 + (dy - 1))) by (apply Z.pow_le_mono_r; lia).
  rewrite Pos2Z.inj_mul in Hxy. lia.
Qed.

Lemma SFltb_SFleb (x y : spec_float) : SFltb x y = true -> SFleb x y = true.
Proof. unfold SFltb, SFleb. destruct (SFcompare x y) as [[| |]|]; congruence. Qed.

Lemma SFleb_finite (p mu : positive) (e' eu : Z) :
  e' <= eu -> Zpos p <= Zpos mu * 2 ^ (eu - e') ->
  SFleb (S754_finite false p e') (S754_finite false mu eu) = true.
Proof.
  intros He Hp. unfold SFleb, SFcompare.
  destruct (Z.compare_spec e' eu) as [E|E|E]; try reflexivity; [|lia].
  subst. rewrite Z.sub_diag, Z.pow_0_r, Z.mul_1_r in Hp.
  rewrite Pos.compare_cont_spec. cbn [Pos.switch_Eq].
  destruct (Pos.compare_spec p mu); try reflexivity. lia.
Qed.

Lemma shl_align_fst (m : positive) (e ez : Z) :
  ez <= e -> Zpos (fst (shl_align m e ez)) = Zpos m * 2 ^ (e - ez).
Proof.
  intros He. unfold shl_align. destruct (ez - e) as [|d|d] eqn:Hd; cbn [fst].
  - replace (e - ez) with 0 by lia. lia.
  - lia.
  - rewrite pos_iter_xO. f_equal. f_equal. lia.
Qed.

Lemma shift_match (m s : Z) :
  0 < s ->
  match s with Zpos _ => Z.shiftl m s | Z0 => m | Zneg _ => 0 end = m * 2 ^ s.
Proof.
  intros Hs. destruct s as [|p|p]; try lia. apply Z.shiftl_mul_pow2. lia.
Qed.

Section Format.

Variables prec emax : Z.
Hypothesis Hprec : 1 < prec.
Hypothesis Hemax : prec < emax.

#[local] Set Default Proof Using "Hprec Hemax".

Local Abbreviation emin := (emin prec emax).
Local Abbreviation fexp := (fexp prec emax).
Local Abbreviation canonical := (Rounding.canonical prec emax).
Local Abbreviation rnd := Rounding.rnd.
Local Abbreviation pack := (Rounding.pack prec emax).


Lemma emin_neg : emin < 0.
Proof. unfold SpecFloat.emin. lia. Qed.

Lemma fexp_ge_emin (x : Z) : emin <= fexp x.
Proof. unfold SpecFloat.fexp. lia. Qed.

Lemma fexp_mono (x y : Z) : x <= y -> fexp x <= fexp y.
Proof. unfold SpecFloat.fexp. lia. Qed.

Lemma canonical_iff (m : positive) (e : Z) :
  canonical m e <->
  emin <= e /\ Zpos (digits2_pos m) <= prec /\ (Zpos (digits2_pos m) = prec \/ e = emin).
Proof. unfold Rounding.canonical, SpecFloat.fexp. lia. Qed.

Lemma canonical_mantissa_true (m : positive) (e : Z) :
  canonical_mantissa prec emax m e = true <-> canonical m e.
Proof. unfold canonical_mantissa, Rounding.canonical. apply Z.eqb_eq. Qed.

Lemma bounded_true (m : positive) (e : Z) :
  bounded prec emax m e = true <-> canonical m e /\ e <= emax - prec.
Proof.
  unfold bounded. rewrite andb_true_iff, canonical_mantissa_true, Z.leb_le. tauto.
Qed.

Lemma canonical_lt_pow (m : positive) (e : Z) : canonical m e -> Zpos m < 2 ^ prec.
Proof.
  intros Hc. apply canonical_iff in Hc as (_ & Hd & _).
  pose proof (digits2_pos_bounds m) as [_ Hhi].
  assert (2 ^ Zpos (digits2_pos m) <= 2 ^ prec) by (apply Z.pow_le_mono_r; lia). lia.
Qed.

(** The first shift of [binary_round_aux]. *)
Lemma shr_fexp_noop (m : Z) (e : Z) :
  fexp (Zdigits2 m + e) - e <= 0 ->
  shr_fexp prec emax m e loc_Exact = (Build_shr_record m false false, e).
Proof.
  intros Hn. unfold shr_fexp. cbn [shr_record_of_loc].
  destruct (fexp (Zdigits2 m + e) - e) as [|p|p]; try reflexivity. lia.
Qed.

Lemma shr_fexp_shift (m : Z) (e : Z) :
  0 <= m -> 0 < fexp (Zdigits2 m + e) - e ->
  let n := fexp (Zdigits2 m + e) - e in
  shr_fexp prec emax m e loc_Exact
  = (Build_shr_record (m / 2 ^ n) (2 ^ (n - 1) <=? m mod 2 ^ n)
       (negb (m mod 2 ^ (n - 1) =? 0)), fexp (Zdigits2 m + e)).
Proof.
  intros Hm Hn n. unfold shr_fexp. cbn [shr_record_of_loc].
  fold n. rewrite shr_pos by assumption. f_equal. unfold n. lia.
Qed.



Lemma binary_round_aux_rnd (sx : bool) (m : positive) (e : Z) :
  e <= fexp (Zpos (digits2_pos m) + e) ->
  binary_round_aux prec emax sx (Zpos m) e loc_Exact
  = pack sx (rnd (Zpos m) (fexp (Zpos (digits2_pos m) + e) - e))
      (fexp (Zpos (digits2_pos m) + e)).
Proof.
  intros He. unfold binary_round_aux, Rounding.pack, Rounding.rnd.
  set (e1 := fexp (Zpos (digits2_pos m) + e)) in *.
  destruct (Z.leb_spec (e1 - e) 0) as [Hn|Hn].
  - rewrite shr_fexp_noop by (rewrite Zdigits2_pos; fold e1; lia).
    cbn [shr_m loc_of_shr_record round_nearest_even].
    replace e1 with e by lia. reflexivity.
  - pose proof (shr_fexp_shift (Zpos m) e ltac:(lia)) as Hs.
    rewrite Zdigits2_pos in Hs. fold e1 in Hs. rewrite (Hs Hn).
    cbn [shr_m]. reflexivity.
Qed.

Lemma rnd_bounds (m n : Z) :
  0 <= m -> 0 < n ->
  m / 2 ^ n <= rnd m n <= m / 2 ^ n + 1 /\ (m mod 2 ^ n = 0 -> rnd m n = m / 2 ^ n).
Proof.
  intros Hm Hn. unfold Rounding.rnd. destruct (Z.leb_spec n 0); [lia|].
  pose proof (pow2_pos n ltac:(lia)) as Hp.
  pose proof (pow2_pos (n - 1) ltac:(lia)) as Hp1.
  assert (Hmm : m mod 2 ^ (n - 1) = 0 \/ m mod 2 ^ (n - 1) <> 0) by lia.
  split.
  - cbn [loc_of_shr_record].
    destruct (2 ^ (n - 1) <=? m mod 2 ^ n), (negb (m mod 2 ^ (n - 1) =? 0));
      cbn [round_nearest_even]; try lia.
    destruct (Z.even (m / 2 ^ n)); lia.
  - intros Hrem. rewrite Hrem.
    destruct (Z.leb_spec (2 ^ (n - 1)) 0); [lia|].
    assert (m mod 2 ^ (n - 1) = 0).
    { apply Z.mod_divide; [lia|]. apply Z.mod_divide in Hrem; [|lia].
      destruct Hrem as [c Hc]. exists (c * 2). rewrite Hc.
      rewrite (pow2_split (n - 1) n) by lia. replace (n - (n - 1)) with 1 by lia.
      rewrite Z.pow_1_r. lia. }
    rewrite H1. reflexivity.
Qed.

Lemma rnd_le (m n U : Z) :
  0 <= m -> 0 <= n -> m <= U * 2 ^ n -> rnd m n <= U.
Proof.
  intros Hm Hn HU. destruct (Z.eq_dec n 0) as [-> | Hn0].
  - unfold Rounding.rnd. simpl. rewrite Z.pow_0_r in HU. lia.
  - pose proof (rnd_bounds m n Hm ltac:(lia)) as [[_ Hhi] Hex].
    pose proof (pow2_pos n ltac:(lia)) as Hp.
    pose proof (Z.div_mod m (2 ^ n) ltac:(lia)) as Hdm.
    pose proof (Z.mod_pos_bound m (2 ^ n) Hp) as Hr.
    destruct (Z.eq_dec (m mod 2 ^ n) 0) as [H0|H0].
    + rewrite (Hex H0). nia.
    + assert (m / 2 ^ n < U) by nia. lia.
Qed.



Lemma pack_zero (sx : bool) (e1 : Z) : pack sx 0 e1 = S754_zero sx.
Proof.
  unfold Rounding.pack. destruct (Z.leb_spec (fexp (Zdigits2 0 + e1) - e1) 0) as [Hn|Hn].
  - rewrite shr_fexp_noop by exact Hn. reflexivity.
  - rewrite (shr_fexp_shift 0 e1 ltac:(lia) Hn). cbn [shr_m].
    rewrite Z.div_0_l; [reflexivity|]. apply Z.pow_nonzero; lia.
Qed.

Lemma pack_canonical (sx : bool) (p : positive) (e1 : Z) :
  canonical p e1 ->
  pack sx (Zpos p) e1
  = if e1 <=? emax - prec then S754_finite sx p e1 else S754_infinity sx.
Proof.
  intros Hc. unfold Rounding.pack. rewrite shr_fexp_noop; [reflexivity|].
  rewrite Zdigits2_pos. unfold Rounding.canonical in Hc. lia.
Qed.


Lemma pack_carry (sx : bool) (e1 : Z) (p p' : positive) :
  emin <= e1 -> Zpos p = 2 ^ prec -> Zpos p' = 2 ^ (prec - 1) ->
  pack sx (Zpos p) e1
  = if e1 + 1 <=? emax - prec then S754_finite sx p' (e1 + 1) else S754_infinity sx.
Proof.
  intros He Hp Hp'. unfold Rounding.pack.
  assert (Hd : Zdigits2 (Zpos p) = prec + 1) by (apply digits_pow2; [lia | exact Hp]).
  assert (Hn : fexp (Zdigits2 (Zpos p) + e1) - e1 = 1)
    by (rewrite Hd; unfold SpecFloat.fexp; lia).
  pose proof (shr_fexp_shift (Zpos p) e1 ltac:(lia) ltac:(lia)) as Hs.
  cbv zeta in Hs. rewrite Hn in Hs.
  replace (fexp (Zdigits2 (Zpos p) + e1)) with (e1 + 1) in Hs by lia.
  rewrite Hs. cbn [shr_m].
  rewrite Hp. rewrite Z.pow_1_r.
  replace (2 ^ prec / 2) with (Zpos p').
  2:{ rewrite Hp'. rewrite (pow2_split 1 prec) by lia. rewrite Z.pow_1_r.
      rewrite Z.mul_comm, Z.div_mul by lia. reflexivity. }
  reflexivity.
Qed.

(** What the rounded mantissa can be. *)
Lemma rnd_cases (m : positive) (e : Z) :
  let e1 := fexp (Zpos (digits2_pos m) + e) in
  e <= e1 ->
  rnd (Zpos m) (e1 - e) = 0
  \/ rnd (Zpos m) (e1 - e) = 2 ^ prec
  \/ exists p, rnd (Zpos m) (e1 - e) = Zpos p /\ canonical p e1.
Proof.
  intros e1 He. set (d := Zpos (digits2_pos m)) in *.
  pose proof (digits2_pos_bounds m) as [Hlo Hhi]. fold d in Hlo, Hhi.
  assert (Hd : 0 < d) by (unfold d; lia).
  destruct (Z.eq_dec (e1 - e) 0) as [Hn0|Hn0].
  - right. right. exists m. split.
    + unfold Rounding.rnd. rewrite Hn0. reflexivity.
    + assert (Hee : e = e1) by lia. unfold Rounding.canonical.
      rewrite <- Hee at 1 2. symmetry. exact Hee.
  - set (n := e1 - e) in *. assert (Hn : 0 < n) by lia.
    pose proof (rnd_bounds (Zpos m) n ltac:(lia) Hn) as [[Hq1 Hq2] _].
    set (m1 := rnd (Zpos m) n) in *.
    set (t := d - n).
    assert (Ht : t <= prec /\ (t = prec \/ e1 = emin))
      by (unfold t, n, e1, SpecFloat.fexp; lia).
    assert (He1 : emin <= e1) by apply fexp_ge_emin.
    pose proof (pow2_pos n ltac:(lia)) as Hpn.
    destruct (Z.le_gt_cases t 0) as [Ht0|Ht0].
    + (* the quotient is 0 *)
      assert (Hq : Zpos m / 2 ^ n = 0).
      { apply Z.div_small. split; [lia|].
        assert (2 ^ d <= 2 ^ n) by (apply Z.pow_le_mono_r; unfold t in Ht0; lia). lia. }
      rewrite Hq in Hq1, Hq2.
      assert (Hm1 : m1 = 0 \/ m1 = 1) by lia.
      destruct Hm1 as [Hm1|Hm1]; [left; exact Hm1|].
      right. right. exists 1%positive. split; [exact Hm1|].
      apply canonical_iff. simpl. lia.
    + (* the quotient has t digits *)
      assert (Hqlo : 2 ^ (t - 1) <= Zpos m / 2 ^ n).
      { apply Z.div_le_lower_bound; [lia|].
        rewrite <- Z.pow_add_r by lia. replace (n + (t - 1)) with (d - 1) by (unfold t; lia).
        exact Hlo. }
      assert (Hqhi : Zpos m / 2 ^ n < 2 ^ t).
      { apply Z.div_lt_upper_bound; [lia|].
        rewrite <- Z.pow_add_r by lia. replace (n + t) with d by (unfold t; lia).
        exact Hhi. }
      pose proof (pow2_pos (t - 1) ltac:(lia)) as Hpt.
      destruct (Z.eq_dec m1 (2 ^ t)) as [Hc|Hc].
      * destruct (Z.eq_dec t prec) as [Htp|Htp].
        -- right. left. rewrite Hc, Htp. reflexivity.
        -- right. right. destruct (pos_of_Z m1 ltac:(lia)) as [p Hp].
           exists p. split; [exact Hp|].
           apply canonical_iff. rewrite (digits_pow2 t p) by lia. lia.
      * right. right. destruct (pos_of_Z m1 ltac:(lia)) as [p Hp].
        exists p. split; [exact Hp|].
        apply canonical_iff.
        rewrite (digits2_pos_unique p t) by lia. lia.
Qed.

(** Rounding yields a valid number. *)
Lemma pow2_prec_pos : exists p p', Zpos p = 2 ^ prec /\ Zpos p' = 2 ^ (prec - 1).
Proof.
  destruct (pos_of_Z (2 ^ prec) (pow2_pos prec ltac:(lia))) as [p Hp].
  destruct (pos_of_Z (2 ^ (prec - 1)) (pow2_pos (prec - 1) ltac:(lia))) as [p' Hp'].
  exists p, p'. split; congruence.
Qed.

Lemma canonical_half (p' : positive) (e : Z) :
  Zpos p' = 2 ^ (prec - 1) -> emin <= e -> canonical p' e.
Proof.
  intros Hp' He. apply canonical_iff.
  rewrite (digits_pow2 (prec - 1) p') by lia. lia.
Qed.

Lemma binary_round_aux_valid (sx : bool) (m : positive) (e : Z) :
  e <= fexp (Zpos (digits2_pos m) + e) ->
  valid_binary prec emax (binary_round_aux prec emax sx (Zpos m) e loc_Exact) = true.
Proof.
  intros He. rewrite binary_round_aux_rnd by exact He.
  pose proof (fexp_ge_emin (Zpos (digits2_pos m) + e)) as He1.
  destruct (rnd_cases m e He) as [-> | [Hc | (p & -> & Hcan)]].
  - rewrite pack_zero. reflexivity.
  - destruct pow2_prec_pos as (p & p' & Hp & Hp'). rewrite Hc, <- Hp.
    rewrite (pack_carry sx _ p p') by assumption.
    destruct (Z.leb_spec (fexp (Zpos (digits2_pos m) + e) + 1) (emax - prec)); [|reflexivity].
    simpl. apply bounded_true. split; [apply canonical_half; [exact Hp'|lia] | lia].
  - rewrite pack_canonical by exact Hcan.
    destruct (Z.leb_spec (fexp (Zpos (digits2_pos m) + e)) (emax - prec)); [|reflexivity].
    simpl. apply bounded_true. split; assumption.
Qed.

(** Rounding does not exceed a representable upper bound. *)
Lemma binary_round_aux_le (sx : bool) (m mu : positive) (e eu : Z) :
  e <= fexp (Zpos (digits2_pos m) + e) ->
  canonical mu eu -> eu <= emax - prec -> e <= eu ->
  Zpos m <= Zpos mu * 2 ^ (eu - e) ->
  binary_round_aux prec emax sx (Zpos m) e loc_Exact = S754_zero sx
  \/ exists p e', binary_round_aux prec emax sx (Zpos m) e loc_Exact = S754_finite sx p e'
                  /\ canonical p e' /\ e' <= eu /\ Zpos p <= Zpos mu * 2 ^ (eu - e').
Proof.
  intros He Hcu Hbu Heu Hle. rewrite binary_round_aux_rnd by exact He.
  set (e1 := fexp (Zpos (digits2_pos m) + e)) in *.
  assert (He1 : emin <= e1) by apply fexp_ge_emin.
  assert (He1u : e1 <= eu).
  { unfold Rounding.canonical in Hcu. rewrite <- Hcu. apply fexp_mono.
    pose proof (digits2_pos_le m mu 0 (eu - e) ltac:(lia) ltac:(lia)) as Hd.
    rewrite Z.pow_0_r, Z.mul_1_r in Hd. specialize (Hd Hle). lia. }
  assert (HU : rnd (Zpos m) (e1 - e) <= Zpos mu * 2 ^ (eu - e1)).
  { apply rnd_le; [lia | lia |].
    rewrite <- Z.mul_assoc, <- Z.pow_add_r by lia.
    replace (eu - e1 + (e1 - e)) with (eu - e) by lia. exact Hle. }
  pose proof (rnd_cases m e He) as Hcases. cbv zeta in Hcases. fold e1 in Hcases.
  destruct Hcases as [Hz | [Hc | (p & Hp & Hcan)]].
  - left. rewrite Hz. apply pack_zero.
  - right. destruct pow2_prec_pos as (p & p' & Hp & Hp').
    rewrite Hc in HU |- *. rewrite <- Hp.
    rewrite (pack_carry sx _ p p') by assumption.
    pose proof (canonical_lt_pow mu eu Hcu) as Hmu.
    assert (He1u' : e1 + 1 <= eu).
    { destruct (Z.eq_dec e1 eu) as [E|E]; [|lia]. exfalso.
      rewrite E, Z.sub_diag, Z.pow_0_r in HU. lia. }
    destruct (Z.leb_spec (e1 + 1) (emax - prec)); [|lia].
    exists p', (e1 + 1). split; [reflexivity|].
    split; [apply canonical_half; [exact Hp'|lia]|]. split; [lia|].
    rewrite Hp'. rewrite (pow2_split 1 (eu - e1)) in HU by lia.
    rewrite (pow2_split 1 prec) in HU by lia. rewrite Z.pow_1_r in HU.
    replace (eu - (e1 + 1)) with (eu - e1 - 1) by lia. lia.
  - right. rewrite Hp in HU |- *. rewrite pack_canonical by exact Hcan.
    destruct (Z.leb_spec e1 (emax - prec)); [|lia].
    exists p, e1. repeat split; assumption.
Qed.

(** Rounding a representable value is exact. *)
Lemma binary_round_aux_exact (sx : bool) (m mc : positive) (e ec : Z) :
  canonical mc ec -> ec <= emax - prec -> e <= ec ->
  Zpos m = Zpos mc * 2 ^ (ec - e) ->
  binary_round_aux prec emax sx (Zpos m) e loc_Exact = S754_finite sx mc ec.
Proof.
  intros Hc Hb He Hm.
  assert (Hd : Zpos (digits2_pos m) + e = Zpos (digits2_pos mc) + ec).
  { pose proof (digits2_pos_le m mc 0 (ec - e) ltac:(lia) ltac:(lia)) as H1.
    pose proof (digits2_pos_le mc m (ec - e) 0 ltac:(lia) ltac:(lia)) as H2.
    rewrite Z.pow_0_r, Z.mul_1_r in H1, H2. lia. }
  assert (He1 : fexp (Zpos (digits2_pos m) + e) = ec) by (rewrite Hd; exact Hc).
  rewrite binary_round_aux_rnd by lia. rewrite He1.
  assert (Hr : rnd (Zpos m) (ec - e) = Zpos mc).
  { destruct (Z.eq_dec (ec - e) 0) as [E|E].
    - unfold Rounding.rnd. rewrite E in *. simpl. rewrite Z.pow_0_r in Hm. lia.
    - pose proof (rnd_bounds (Zpos m) (ec - e) ltac:(lia) ltac:(lia)) as [_ Hex].
      rewrite Hex; rewrite Hm.
      + apply Z.div_mul. apply Z.pow_nonzero; lia.
      + apply Z.mod_mul. apply Z.pow_nonzero; lia. }
  rewrite Hr, pack_canonical by exact Hc.
  destruct (Z.leb_spec ec (emax - prec)); [reflexivity | lia].
Qed.



(** [binary_round] first aligns the mantissa, then rounds. *)
Lemma binary_round_aligned (sx : bool) (m : positive) (e : Z) :
  exists m' e',
    binary_round prec emax sx m e = binary_round_aux prec emax sx (Zpos m') e' loc_Exact
    /\ e' <= fexp (Zpos (digits2_pos m') + e')
    /\ e' = Z.min e (fexp (Zpos (digits2_pos m) + e))
    /\ Zpos m' = Zpos m * 2 ^ (e - e').
Proof.
  unfold binary_round, shl_align.
  set (e1 := fexp (Zpos (digits2_pos m) + e)).
  destruct (e1 - e) as [|d|d] eqn:Hd.
  - exists m, e. rewrite Z.sub_diag, Z.pow_0_r. fold e1. repeat split; lia.
  - exists m, e. rewrite Z.sub_diag, Z.pow_0_r. fold e1. repeat split; lia.
  - exists (Pos.iter xO m d), e1.
    assert (Hm' : Zpos (Pos.iter xO m d) = Zpos m * 2 ^ (e - e1)).
    { rewrite pos_iter_xO. f_equal. f_equal. lia. }
    rewrite (digits_shift m _ (e - e1) ltac:(lia) Hm').
    replace (Zpos (digits2_pos m) + (e - e1) + e1) with (Zpos (digits2_pos m) + e) by lia.
    fold e1. repeat split; first [lia | exact Hm'].
Qed.

Lemma binary_round_valid (sx : bool) (m : positive) (e : Z) :
  valid_binary prec emax (binary_round prec emax sx m e) = true.
Proof.
  destruct (binary_round_aligned sx m e) as (m' & e' & -> & He' & _).
  apply binary_round_aux_valid. exact He'.
Qed.

Lemma binary_round_le (sx : bool) (m mu : positive) (e eu : Z) :
  canonical mu eu -> eu <= emax - prec -> e <= eu ->
  Zpos m <= Zpos mu * 2 ^ (eu - e) ->
  binary_round prec emax sx m e = S754_zero sx
  \/ exists p e', binary_round prec emax sx m e = S754_finite sx p e'
                  /\ canonical p e' /\ e' <= eu /\ Zpos p <= Zpos mu * 2 ^ (eu - e').
Proof.
  intros Hcu Hbu Heu Hle.
  destruct (binary_round_aligned sx m e) as (m' & e' & -> & He' & Hmin & Hm').
  apply binary_round_aux_le; try assumption; [lia|].
  rewrite Hm'. rewrite (pow2_split (eu - e) (eu - e')) by lia.
  replace (eu - e' - (eu - e)) with (e - e') by lia.
  pose proof (pow2_pos (e - e') ltac:(lia)). nia.
Qed.

(** Rounding a representable value is exact, whatever the exponent it is
    presented with. *)
Lemma binary_round_exact (sx : bool) (m mc : positive) (e ec k : Z) :
  canonical mc ec -> ec <= emax - prec -> k <= e -> k <= ec ->
  Zpos m * 2 ^ (e - k) = Zpos mc * 2 ^ (ec - k) ->
  binary_round prec emax sx m e = S754_finite sx mc ec.
Proof.
  intros Hc Hb Hke Hkc Hv.
  assert (Hd : Zpos (digits2_pos m) + e = Zpos (digits2_pos mc) + ec).
  { pose proof (digits2_pos_le m mc (e - k) (ec - k) ltac:(lia) ltac:(lia)) as H1.
    pose proof (digits2_pos_le mc m (ec - k) (e - k) ltac:(lia) ltac:(lia)) as H2. lia. }
  destruct (binary_round_aligned sx m e) as (m' & e' & -> & He' & Hmin & Hm').
  rewrite Hd in Hmin. unfold Rounding.canonical in Hc. rewrite Hc in Hmin.
  apply binary_round_aux_exact; try assumption; [lia|].
  rewrite Hm'.
  assert (Hpk : 0 < 2 ^ (e' - k)) by (apply pow2_pos; lia).
  apply (Z.mul_cancel_r _ _ (2 ^ (e' - k))); [lia|].
  rewrite <- !Z.mul_assoc, <- !Z.pow_add_r by lia.
  replace (e - e' + (e' - k)) with (e - k) by lia.
  replace (ec - e' + (e' - k)) with (ec - k) by lia. exact Hv.
Qed.


(** *** Multiplication *)


Lemma mul_aligned (mx my : positive) (ex ey : Z) :
  canonical mx ex -> canonical my ey ->
  ex + ey <= fexp (Zpos (digits2_pos (mx * my)) + (ex + ey)).
Proof.
  intros Hx Hy. apply canonical_iff in Hx as (Hx1 & Hx2 & Hx3).
  apply canonical_iff in Hy as (Hy1 & Hy2 & Hy3).
  pose proof (digits_mul_ge mx my) as Hd. pose proof emin_neg.
  assert (0 < Zpos (digits2_pos mx) /\ 0 < Zpos (digits2_pos my)) as [? ?] by lia.
  unfold SpecFloat.fexp. lia.
Qed.

Lemma SFmul_valid (x y : spec_float) :
  valid_binary prec emax x = true -> valid_binary prec emax y = true ->
  valid_binary prec emax (SFmul prec emax x y) = true.
Proof.
  intros Hx Hy. destruct x as [sx|sx| |sx mx ex], y as [sy|sy| |sy my ey]; try reflexivity.
  cbn [SFmul]. simpl in Hx, Hy.
  apply bounded_true in Hx as [Hx _]. apply bounded_true in Hy as [Hy _].
  apply binary_round_aux_valid. apply mul_aligned; assumption.
Qed.

(** Multiplying by a factor at most 1 does not increase a positive number. *)
Lemma SFmul_le_factor (mf ms : positive) (ef es : Z) :
  canonical mf ef -> canonical ms es -> es <= emax - prec ->
  ef <= 0 -> Zpos mf <= 2 ^ (- ef) ->
  SFmul prec emax (S754_finite false mf ef) (S754_finite false ms es) = S754_zero false
  \/ exists p e', SFmul prec emax (S754_finite false mf ef) (S754_finite false ms es)
                  = S754_finite false p e'
                  /\ canonical p e' /\ e' <= es /\ Zpos p <= Zpos ms * 2 ^ (es - e').
Proof.
  intros Hf Hs Hb Hef Hmf. cbn [SFmul xorb].
  apply binary_round_aux_le; try assumption.
  - apply mul_aligned; assumption.
  - lia.
  - rewrite Pos2Z.inj_mul. replace (es - (ef + es)) with (- ef) by lia.
    rewrite (Z.mul_comm (Zpos mf)). apply Z.mul_le_mono_nonneg_l; lia.
Qed.

(** *** Comparisons *)



(** A positive number below 1, and the number 1 itself, as values. *)
Lemma lt_one_value (one' mc : positive) (ec : Z) :
  Zpos one' = 2 ^ (prec - 1) -> canonical mc ec ->
  SFleb (S754_finite false mc ec) (S754_finite false one' (1 - prec)) = true ->
  ec <= 1 - prec /\ Zpos mc <= 2 ^ (- ec).
Proof.
  intros H1 Hc Hle. unfold SFleb, SFcompare in Hle.
  pose proof (canonical_lt_pow mc ec Hc) as Hm.
  destruct (Z.compare_spec ec (1 - prec)) as [E|E|E]; try discriminate.
  - subst ec. split; [lia|].
    rewrite Pos.compare_cont_spec in Hle. cbn [Pos.switch_Eq] in Hle.
    replace (- (1 - prec)) with (prec - 1) by lia. rewrite <- H1.
    destruct (Pos.compare_spec mc one'); try discriminate; lia.
  - split; [lia|].
    assert (2 ^ prec <= 2 ^ (- ec)) by (apply Z.pow_le_mono_r; lia). lia.
Qed.

(** *** Subtraction from 1 *)


Lemma SFsub_one_le (one' mc : positive) (ec : Z) :
  Zpos one' = 2 ^ (prec - 1) -> canonical mc ec ->
  ec <= 1 - prec -> Zpos mc < 2 ^ (- ec) ->
  let f := SFsub prec emax (S754_finite false one' (1 - prec)) (S754_finite false mc ec) in
  f = S754_zero false
  \/ exists mf ef, f = S754_finite false mf ef
                   /\ canonical mf ef /\ ef <= emax - prec /\ ef <= 0
                   /\ Zpos mf <= 2 ^ (- ef).
Proof.
  intros H1 Hc Hec Hmc f. unfold f. cbn [SFsub cond_Zopp].
  rewrite Z.min_r by lia. rewrite !shl_align_fst by lia.
  rewrite Z.sub_diag, Z.pow_0_r, Z.mul_1_r, H1.
  rewrite <- Z.pow_add_r by lia. replace (prec - 1 + (1 - prec - ec)) with (- ec) by lia.
  destruct (pos_of_Z (2 ^ (- ec) - Zpos mc) ltac:(lia)) as [z Hz]. rewrite Hz.
  cbn [binary_normalize].
  assert (Hone : canonical one' (1 - prec)).
  { apply canonical_half; [exact H1|]. unfold SpecFloat.emin. lia. }
  destruct (binary_round_le false z one' ec (1 - prec) Hone ltac:(lia) Hec)
    as [Hr | (p & e' & Hr & Hcan & He' & Hp)].
  - rewrite <- Hz, H1. rewrite <- Z.pow_add_r by lia.
    replace (prec - 1 + (1 - prec - ec)) with (- ec) by lia. lia.
  - left. exact Hr.
  - right. exists p, e'. split; [exact Hr|]. split; [exact Hcan|].
    split; [lia|]. split; [lia|].
    rewrite H1 in Hp. rewrite <- Z.pow_add_r in Hp by lia.
    replace (prec - 1 + (1 - prec - e')) with (- e') in Hp by lia. exact Hp.
Qed.

Lemma binary_normalize_valid (z e : Z) (s : bool) :
  valid_binary prec emax (binary_normalize prec emax z e s) = true.
Proof.
  destruct z as [|p|p]; cbn [binary_normalize]; [reflexivity| |]; apply binary_round_valid.
Qed.

Lemma SFsub_valid (x y : spec_float) :
  valid_binary prec emax x = true -> valid_binary prec emax y = true ->
  valid_binary prec emax (SFsub prec emax x y) = true.
Proof.
  intros Hx Hy.
  destruct x as [sx|sx| |sx mx ex], y as [sy|sy| |sy my ey]; cbn [SFsub];
    try reflexivity; try assumption;
    try (destruct sx, sy; reflexivity);
    try apply binary_normalize_valid.
Qed.


Lemma lt_one_value_strict (one' mc : positive) (ec : Z) :
  Zpos one' = 2 ^ (prec - 1) -> canonical mc ec ->
  SFltb (S754_finite false mc ec) (S754_finite false one' (1 - prec)) = true ->
  ec <= 1 - prec /\ Zpos mc < 2 ^ (- ec).
Proof.
  intros H1 Hc Hlt. unfold SFltb, SFcompare in Hlt.
  pose proof (canonical_lt_pow mc ec Hc) as Hm.
  destruct (Z.compare_spec ec (1 - prec)) as [E|E|E]; try discriminate.
  - subst ec. split; [lia|].
    rewrite Pos.compare_cont_spec in Hlt. cbn [Pos.switch_Eq] in Hlt.
    replace (- (1 - prec)) with (prec - 1) by lia. rewrite <- H1.
    destruct (Pos.compare_spec mc one'); try discriminate; lia.
  - split; [lia|].
    assert (2 ^ prec <= 2 ^ (- ec)) by (apply Z.pow_le_mono_r; lia). lia.
Qed.

(** *** Multiplication by 1 and division by itself *)


Lemma SFmul_one_r (one' : positive) (x : spec_float) :
  Zpos one' = 2 ^ (prec - 1) -> valid_binary prec emax x = true ->
  SFmul prec emax x (S754_finite false one' (1 - prec)) = x.
Proof.
  intros H1 Hx. destruct x as [sx|sx| |sx mx ex]; cbn [SFmul].
  - destruct sx; reflexivity.
  - destruct sx; reflexivity.
  - reflexivity.
  - simpl in Hx. apply bounded_true in Hx as [Hc Hb].
    replace (xorb sx false) with sx by (destruct sx; reflexivity).
    apply binary_round_aux_exact; try assumption; [lia|].
    rewrite Pos2Z.inj_mul, H1. f_equal. f_equal. lia.
Qed.

Lemma SFdiv_self (one' : positive) (s : bool) (m : positive) (e : Z) :
  Zpos one' = 2 ^ (prec - 1) ->
  SFdiv prec emax (S754_finite s m e) (S754_finite s m e)
  = S754_finite false one' (1 - prec).
Proof.
  intros H1. cbn [SFdiv]. unfold SFdiv_core_binary.
  replace (Zdigits2 (Zpos m) + e - (Zdigits2 (Zpos m) + e)) with 0 by lia.
  replace (Z.min (fexp 0) (e - e)) with (- prec)
    by (unfold SpecFloat.fexp, SpecFloat.emin; lia).
  replace (e - e - - prec) with prec by lia.
  rewrite (shift_match (Zpos m) prec) by lia.
  destruct (Z.div_eucl (Zpos m * 2 ^ prec) (Zpos m)) as [q r] eqn:Hqr.
  assert (Hq : q = 2 ^ prec).
  { change q with (fst (q, r)). rewrite <- Hqr.
    change (fst (Z.div_eucl (Zpos m * 2 ^ prec) (Zpos m)))
      with (Zpos m * 2 ^ prec / Zpos m).
    rewrite Z.mul_comm. apply Z.div_mul. lia. }
  assert (Hr : r = 0).
  { change r with (snd (q, r)). rewrite <- Hqr.
    change (snd (Z.div_eucl (Zpos m * 2 ^ prec) (Zpos m)))
      with ((Zpos m * 2 ^ prec) mod Zpos m).
    rewrite Z.mul_comm. apply Z.mod_mul. lia. }
  subst q r.
  replace (new_location (Zpos m) 0) with loc_Exact
    by (unfold new_location, new_location_even, new_location_odd;
        destruct (Z.even (Zpos m)); reflexivity).
  replace (xorb s s) with false by (destruct s; reflexivity).
  destruct (pos_of_Z (2 ^ prec) (pow2_pos prec ltac:(lia))) as [P HP]. rewrite HP.
  apply binary_round_aux_exact.
  - apply canonical_half; [exact H1|]. unfold SpecFloat.emin. lia.
  - lia.
  - lia.
  - rewrite <- HP, H1. replace (1 - prec - - prec) with 1 by lia.
    rewrite Z.pow_1_r. rewrite (pow2_split (prec - 1) prec) by lia.
    replace (prec - (prec - 1)) with 1 by lia. rewrite Z.pow_1_r. reflexivity.
Qed.

End Format.

(** ** Single and double precision *)

Lemma valid32_finite (s : bool) (m : positive) (e : Z) :
  F32.valid (S754_finite s m e) = true <-> canonical32 m e /\ e <= 104.
Proof. apply (bounded_true 24 128); reflexivity. Qed.

Lemma F32_mul_valid (x y : float) :
  F32.valid x = true -> F32.valid y = true -> F32.valid (F32.mul x y) = true.
Proof. apply (SFmul_valid 24 128); reflexivity. Qed.

Lemma F32_sub_valid (x y : float) :
  F32.valid x = true -> F32.valid y = true -> F32.valid (F32.sub x y) = true.
Proof. apply (SFsub_valid 24 128); reflexivity. Qed.

Lemma ltb_leb (x y : float) : Ieee.ltb x y = true -> Ieee.leb x y = true.
Proof. apply SFltb_SFleb. Qed.

(** *** The sigma update in single precision *)

Lemma fmax_floor_cases (y : float) :
  Ieee.fmax ShrinkWrap.sigmaFloor y = ShrinkWrap.sigmaFloor
  \/ (Ieee.fmax ShrinkWrap.sigmaFloor y = y /\ Ieee.ltb ShrinkWrap.sigmaFloor y = true).
Proof.
  unfold Ieee.fmax, ShrinkWrap.sigmaFloor.
  destruct y; first [left; reflexivity | idtac];
    match goal with
    | |- context [Ieee.ltb ?a ?b] => destruct (Ieee.ltb a b) eqn:E
    end; auto.
Qed.

Lemma cudaNextSigma_floor (c sigma : float) :
  Ieee.leb ShrinkWrap.sigmaFloor (ShrinkWrap.cudaNextSigma c sigma) = true.
Proof.
  unfold ShrinkWrap.cudaNextSigma.
  destruct (fmax_floor_cases (F32.mul (F32.sub F32.one c) sigma)) as [-> | [-> Hlt]].
  - reflexivity.
  - apply ltb_leb. exact Hlt.
Qed.

Lemma cudaNextSigma_valid (c sigma : float) :
  F32.valid c = true -> F32.valid sigma = true ->
  F32.valid (ShrinkWrap.cudaNextSigma c sigma) = true.
Proof.
  intros Hc Hs. unfold ShrinkWrap.cudaNextSigma.
  destruct (fmax_floor_cases (F32.mul (F32.sub F32.one c) sigma)) as [-> | [-> _]].
  - reflexivity.
  - apply F32_mul_valid; [|exact Hs]. apply F32_sub_valid; [reflexivity | exact Hc].
Qed.

(** For 0 < c < 1, the update does not increase a sigma above the floor. *)
Lemma cudaNextSigma_le (c sigma : float) :
  F32.valid c = true -> F32.valid sigma = true ->
  Ieee.ltb F32.zero c = true -> Ieee.ltb c F32.one = true ->
  Ieee.ltb ShrinkWrap.sigmaFloor sigma = true ->
  Ieee.leb (ShrinkWrap.cudaNextSigma c sigma) sigma = true.
Proof.
  intros Hc Hs Hc0 Hc1 Hfloor. unfold ShrinkWrap.cudaNextSigma.
  destruct (fmax_floor_cases (F32.mul (F32.sub F32.one c) sigma)) as [-> | [-> Hlt]].
  { apply ltb_leb. exact Hfloor. }
  destruct c as [sc|sc| |sc mc ec]; try discriminate Hc0.
  { destruct sc; discriminate. }
  destruct sc; [discriminate Hc0|].
  apply valid32_finite in Hc as [Hcan Hb].
  destruct (lt_one_value_strict 24 128 eq_refl eq_refl 8388608 mc ec eq_refl Hcan Hc1)
    as [Hec Hmc].
  pose proof (SFsub_one_le 24 128 eq_refl eq_refl 8388608 mc ec eq_refl Hcan Hec Hmc) as Hf.
  cbv zeta in Hf. change (1 - 24) with (-23) in Hf.
  change (SFsub 24 128 (S754_finite false 8388608 (-23)) (S754_finite false mc ec))
    with (F32.sub F32.one (S754_finite false mc ec)) in Hf.
  destruct sigma as [ss|ss| |ss ms es]; try discriminate Hfloor.
  - (* sigma = +inf *)
    destruct ss; [discriminate Hfloor|].
    destruct Hf as [Hf | (mf & ef & Hf & _)]; rewrite Hf in Hlt |- *;
      [discriminate Hlt | reflexivity].
  - destruct ss; [discriminate Hfloor|].
    apply valid32_finite in Hs as [Hscan Hsb].
    destruct Hf as [Hf | (mf & ef & Hf & Hfcan & Hfb & Hef & Hmf)];
      rewrite Hf in Hlt |- *; [discriminate Hlt|].
    destruct (SFmul_le_factor 24 128 eq_refl eq_refl mf ms ef es Hfcan Hscan Hsb Hef Hmf)
      as [Hz | (p & e' & Hp & _ & He' & Hle)];
      unfold F32.mul, Ieee.mul in Hlt |- *; simpl Ieee.fmt_prec in Hlt |- *;
      simpl Ieee.fmt_emax in Hlt |- *.
    + rewrite Hz in Hlt. discriminate Hlt.
    + rewrite Hp. apply SFleb_finite; [exact He' | exact Hle].
Qed.

(** *** Promotion to double and back *)

Lemma of_float_finite (s : bool) (m : positive) (e : Z) :
  canonical32 m e -> e <= 104 ->
  exists M, F64.of_float (S754_finite s m e)
            = S754_finite s M (e + Zpos (digits2_pos m) - 53)
            /\ Zpos M = Zpos m * 2 ^ (53 - Zpos (digits2_pos m))
            /\ canonical64 M (e + Zpos (digits2_pos m) - 53).
Proof.
  intros Hc Hb. apply (canonical_iff 24 128 eq_refl eq_refl) in Hc as (He & Hd & _).
  change (emin 24 128) with (-149) in He.
  set (d := Zpos (digits2_pos m)) in *.
  assert (Hd0 : 0 < d) by (unfold d; lia).
  destruct (pos_of_Z (Zpos m * 2 ^ (53 - d))) as [M HM].
  { pose proof (pow2_pos (53 - d) ltac:(lia)). lia. }
  symmetry in HM.
  assert (HcM : canonical64 M (e + d - 53)).
  { apply (canonical_iff 53 1024 eq_refl eq_refl).
    rewrite (digits_shift m M (53 - d) ltac:(lia) HM). fold d.
    change (emin 53 1024) with (-1074). lia. }
  exists M. split; [|split; assumption].
  unfold F64.of_float, Ieee.convert. simpl Ieee.fmt_prec. simpl Ieee.fmt_emax.
  apply (binary_round_exact 53 1024 eq_refl eq_refl s m M e (e + d - 53) (e + d - 53)).
  - exact HcM.
  - lia.
  - lia.
  - lia.
  - rewrite Z.sub_diag, Z.pow_0_r, Z.mul_1_r, HM. f_equal. f_equal. lia.
Qed.

Lemma of_double_of_float (x : float) :
  F32.valid x = true -> F32.of_double (F64.of_float x) = x.
Proof.
  intros Hx. destruct x as [s|s| |s m e]; [reflexivity | reflexivity | reflexivity |].
  apply valid32_finite in Hx as [Hc Hb].
  destruct (of_float_finite s m e Hc Hb) as (M & -> & HM & _).
  unfold F32.of_double, Ieee.convert. simpl Ieee.fmt_prec. simpl Ieee.fmt_emax.
  pose proof Hc as Hc'. apply (canonical_iff 24 128 eq_refl eq_refl) in Hc' as (_ & Hd & _).
  assert (0 < Zpos (digits2_pos m)) by lia.
  apply (binary_round_exact 24 128 eq_refl eq_refl s M m _ e
           (e + Zpos (digits2_pos m) - 53)).
  - exact Hc.
  - exact Hb.
  - lia.
  - lia.
  - rewrite Z.sub_diag, Z.pow_0_r, Z.mul_1_r, HM. f_equal. f_equal. lia.
Qed.

(** The literal [1.5] and its single-precision image. *)
Lemma floor64_of_float : F64.of_float ShrinkWrap.sigmaFloor = floor64.
Proof. vm_compute. reflexivity. Qed.

Lemma ltb_floor_of_float (x : float) :
  F32.valid x = true ->
  Ieee.ltb floor64 (F64.of_float x) = Ieee.ltb ShrinkWrap.sigmaFloor x.
Proof.
  intros Hx. destruct x as [s|s| |s m e]; [reflexivity | reflexivity | reflexivity |].
  apply valid32_finite in Hx as [Hc Hb].
  destruct (of_float_finite s m e Hc Hb) as (M & -> & HM & _).
  destruct s; [reflexivity|].
  apply (canonical_iff 24 128 eq_refl eq_refl) in Hc as (He & Hd & Hd').
  change (emin 24 128) with (-149) in He, Hd'.
  set (d := Zpos (digits2_pos m)) in *.
  assert (Hd0 : 0 < d) by (unfold d; lia).
  unfold Ieee.ltb, SFltb, SFcompare, floor64, ShrinkWrap.sigmaFloor.
  destruct (Z.compare_spec (-52) (e + d - 53)) as [E|E|E];
    destruct (Z.compare_spec (-23) e) as [E'|E'|E'];
    try (exfalso; clear HM; lia); try reflexivity.
  assert (Hd24 : 53 - d = 29) by (clear HM; lia).
  rewrite Hd24 in HM. change (2 ^ 29) with (Z.pos 536870912) in HM.
  rewrite <- Pos2Z.inj_mul in HM. apply Pos2Z.inj in HM. subst M.
  change 6755399441055744%positive with (12582912 * 536870912)%positive.
  rewrite !Pos.compare_cont_spec. cbn [Pos.switch_Eq].
  rewrite Pos.mul_compare_mono_r. reflexivity.
Qed.

Lemma shrinkWrapNextSigma_single (c sigma : float) :
  F32.valid c = true -> F32.valid sigma = true ->
  ShrinkWrap.shrinkWrapNextSigma c sigma = ShrinkWrap.cudaNextSigma c sigma.
Proof.
  intros Hc Hs. unfold ShrinkWrap.shrinkWrapNextSigma, ShrinkWrap.cudaNextSigma.
  change (F32.of_Z 1) with F32.one. change (F64.literal 15 1) with floor64.
  set (p := F32.mul (F32.sub F32.one c) sigma).
  assert (Hp : F32.valid p = true).
  { apply F32_mul_valid; [|exact Hs]. apply F32_sub_valid; [reflexivity | exact Hc]. }
  pose proof (ltb_floor_of_float p Hp) as Hlt.
  pose proof (of_double_of_float p Hp) as Hrt.
  destruct p as [s|s| |s m e] eqn:Ep.
  - unfold Ieee.fmax at 1. change (F64.of_float (S754_zero s)) with (S754_zero s) in *.
    unfold floor64 at 1. cbv iota. fold floor64. rewrite Hlt.
    unfold Ieee.fmax, ShrinkWrap.sigmaFloor. fold ShrinkWrap.sigmaFloor.
    destruct (Ieee.ltb ShrinkWrap.sigmaFloor (S754_zero s)); reflexivity.
  - unfold Ieee.fmax at 1. change (F64.of_float (S754_infinity s)) with (S754_infinity s) in *.
    unfold floor64 at 1. cbv iota. fold floor64. rewrite Hlt.
    unfold Ieee.fmax, ShrinkWrap.sigmaFloor. fold ShrinkWrap.sigmaFloor.
    destruct (Ieee.ltb ShrinkWrap.sigmaFloor (S754_infinity s)); reflexivity.
  - reflexivity.
  - apply valid32_finite in Hp as [Hcan Hb].
    destruct (of_float_finite s m e Hcan Hb) as (M & HM & _).
    rewrite HM in Hlt, Hrt |- *.
    unfold Ieee.fmax at 1. unfold floor64 at 1. cbv iota. fold floor64. rewrite Hlt.
    unfold Ieee.fmax, ShrinkWrap.sigmaFloor. fold ShrinkWrap.sigmaFloor.
    destruct (Ieee.ltb ShrinkWrap.sigmaFloor (S754_finite s m e)); [exact Hrt | reflexivity].
Qed.

(** ** The blur scale *)

Lemma orDefault_valid (x d : float) :
  F32.valid x = true -> F32.valid d = true -> F32.valid (ShrinkWrap.orDefault x d) = true.
Proof. intros Hx Hd. unfold ShrinkWrap.orDefault. destruct (Ieee.leb _ _); assumption. Qed.

Lemma sigma_decay_cuda (c sigma : float) :
  ShrinkWrap.cudaNextSigma c sigma = sigma_decay c sigma.
Proof. reflexivity. Qed.

Lemma sigma_decay_cpu (c sigma : float) :
  F32.valid c = true -> F32.valid sigma = true ->
  ShrinkWrap.shrinkWrapNextSigma c sigma = sigma_decay c sigma.
Proof. apply shrinkWrapNextSigma_single. Qed.

Lemma sigma_decay_valid (c sigma : float) :
  F32.valid c = true -> F32.valid sigma = true -> F32.valid (sigma_decay c sigma) = true.
Proof. apply cudaNextSigma_valid. Qed.

Lemma sigma_schedule_chain entry inner (c : float) i b rs b' :
  (forall i b, F32.valid (ShrinkWrap.sigma b) = true ->
               ShrinkWrap.sigma (entry i b) = sigma_decay c (ShrinkWrap.sigma b)) ->
  (forall b, ShrinkWrap.sigma (inner b) = ShrinkWrap.sigma b) ->
  F32.valid c = true ->
  cycles_from entry inner i b rs b' ->
  F32.valid (ShrinkWrap.sigma b) = true ->
  sigma_schedule (ShrinkWrap.sigma b) c rs.
Proof.
  intros Hentry Hinner Hc Hch. induction Hch as [|i b rs b' Hch IH]; intros Hb.
  - exact I.
  - cbn [sigma_schedule ShrinkWrap.cr_start ShrinkWrap.cr_hio_entry ShrinkWrap.cr_end].
    rewrite Hinner, Hentry by exact Hb.
    split; [reflexivity|]. split; [reflexivity|]. split; [reflexivity|].
    rewrite Hinner, Hentry in IH by exact Hb.
    apply IH. apply sigma_decay_valid; assumption.
Qed.

Lemma sigma_schedule_floor (c : float) (rs : list ShrinkWrap.cycle_record) :
  forall sigma0, sigma_schedule sigma0 c rs ->
  Forall (fun r => Ieee.leb ShrinkWrap.sigmaFloor
                     (ShrinkWrap.sigma (ShrinkWrap.cr_end r)) = true) rs.
Proof.
  induction rs as [|r rs IH]; intros sigma0 Hs; [constructor|].
  destruct Hs as (_ & _ & Hend & Hrest). constructor.
  - rewrite Hend. apply cudaNextSigma_floor.
  - exact (IH _ Hrest).
Qed.

Lemma sigma_schedule_nonincreasing (c : float) (rs : list ShrinkWrap.cycle_record) :
  F32.valid c = true -> Ieee.ltb F32.zero c = true -> Ieee.ltb c F32.one = true ->
  forall sigma0, F32.valid sigma0 = true -> sigma_schedule sigma0 c rs ->
  Forall (fun r => Ieee.ltb ShrinkWrap.sigmaFloor
                     (ShrinkWrap.sigma (ShrinkWrap.cr_start r)) = true ->
                   Ieee.leb (ShrinkWrap.sigma (ShrinkWrap.cr_end r))
                     (ShrinkWrap.sigma (ShrinkWrap.cr_start r)) = true) rs.
Proof.
  intros Hc Hc0 Hc1. induction rs as [|r rs IH]; intros sigma0 Hv Hs; [constructor|].
  destruct Hs as (Hstart & _ & Hend & Hrest). constructor.
  - rewrite Hend, Hstart. intros Habove. apply cudaNextSigma_le; assumption.
  - apply (IH _ (sigma_decay_valid c sigma0 Hc Hv) Hrest).
Qed.

Section SigmaSchedule.

Variable NDEBUG : bool.
Variables fftToRealSpace fftToFreqSpace : list Z -> list complex -> list complex.
Variable complexNormElementwise : list complex -> nat -> list float.
Variable gaussianBlur : list float -> Z -> Z -> float -> list float.
Variable vectorMax : list float -> nat -> float.
Variable applyComplexModulus : list complex -> list float -> nat -> list complex.
Variable calculateHioError : list complex -> list float -> nat -> float.

Local Abbreviation shrinkWrap :=
  (ShrinkWrap.shrinkWrap NDEBUG fftToRealSpace fftToFreqSpace complexNormElementwise
     gaussianBlur vectorMax applyComplexModulus calculateHioError).
Local Abbreviation cudaShrinkWrap :=
  (ShrinkWrap.cudaShrinkWrap NDEBUG fftToRealSpace fftToFreqSpace complexNormElementwise
     gaussianBlur vectorMax applyComplexModulus calculateHioError).
Local Abbreviation hioLoop :=
  (ShrinkWrap.hioLoop fftToRealSpace fftToFreqSpace applyComplexModulus).

(** The inner loop does not touch sigma. *)
Lemma hioLoop_sigma shape n intensity beta nHio (b : ShrinkWrap.buffers) :
  ShrinkWrap.sigma (hioLoop shape n intensity beta nHio b) = ShrinkWrap.sigma b.
Proof.
  unfold ShrinkWrap.hioLoop.
  apply (for_range_invariant (fun b' => ShrinkWrap.sigma b' = ShrinkWrap.sigma b));
    [|reflexivity].
  intros i s _ Hs. exact Hs.
Qed.

(** C9: in a reconstruction by either driver, sigma starts at sigma0
    (after defaulting), every executed outer cycle updates it exactly
    once, before its inner loop, to max(1.5, (1 - sigma_change) * sigma),
    and the next cycle starts from that value.  Hence sigma is at least
    1.5 after every update, and for 0 < sigma_change < 1 a cycle that
    starts with sigma above 1.5 does not end with a larger one. *)
Theorem sigma_schedule_of_drivers (rIoData : option (list float)) (Nx Ny : Z)
    (p : ShrinkWrap.parameters) (rs : list ShrinkWrap.cycle_record) :
  let sigma0 := ShrinkWrap.rSigma0 (ShrinkWrap.shrinkWrapDefaults p) in
  let c := ShrinkWrap.rSigmaChange (ShrinkWrap.shrinkWrapDefaults p) in
  F32.valid (ShrinkWrap.rSigma0 p) = true ->
  F32.valid (ShrinkWrap.rSigmaChange p) = true ->
  rs = history_of (shrinkWrap rIoData [Nx; Ny] p)
  \/ rs = history_of (cudaShrinkWrap rIoData Nx Ny p) ->
  sigma_schedule sigma0 c rs
  /\ Forall (fun r => Ieee.leb ShrinkWrap.sigmaFloor
                        (ShrinkWrap.sigma (ShrinkWrap.cr_end r)) = true) rs
  /\ (Ieee.ltb F32.zero c = true -> Ieee.ltb c F32.one = true ->
      Forall (fun r => Ieee.ltb ShrinkWrap.sigmaFloor
                         (ShrinkWrap.sigma (ShrinkWrap.cr_start r)) = true ->
                       Ieee.leb (ShrinkWrap.sigma (ShrinkWrap.cr_end r))
                         (ShrinkWrap.sigma (ShrinkWrap.cr_start r)) = true) rs).
Proof.
  intros sigma0 c Hv0 Hvc Hrs.
  assert (Hsigma0 : F32.valid sigma0 = true) by (apply orDefault_valid; [exact Hv0 | reflexivity]).
  assert (Hc : F32.valid c = true) by (apply orDefault_valid; [exact Hvc | reflexivity]).
  assert (Hsched : sigma_schedule sigma0 c rs).
  { destruct Hrs as [-> | ->].
    - destruct (shrinkWrap_history NDEBUG fftToRealSpace fftToFreqSpace
                  complexNormElementwise gaussianBlur vectorMax applyComplexModulus
                  calculateHioError rIoData Nx Ny p)
        as [-> | (intensity & rs & b' & b0 & out0 & _ & Hinit & -> & Hch)]; [exact I|].
      destruct (shrinkWrapInit_buffers _ _ _ _ _ _ _ _ _ _ _ Hinit) as (_ & _ & Hs0 & _).
      fold sigma0 in Hs0. rewrite <- Hs0 in Hsigma0 |- *.
      refine (sigma_schedule_chain _ _ c _ _ _ _ _ _ Hc Hch Hsigma0).
      + intros i b Hb. apply sigma_decay_cpu; assumption.
      + intros b. apply hioLoop_sigma.
    - destruct (cudaShrinkWrap_history NDEBUG fftToRealSpace fftToFreqSpace
                  complexNormElementwise gaussianBlur vectorMax applyComplexModulus
                  calculateHioError rIoData Nx Ny p)
        as [-> | (intensity & rs & b' & -> & Hch)]; [exact I|].
      refine (sigma_schedule_chain _ _ c _ _ _ _ _ _ Hc Hch Hsigma0).
      + intros i b Hb. reflexivity.
      + intros b. apply hioLoop_sigma. }
  split; [exact Hsched|]. split.
  - exact (sigma_schedule_floor c rs sigma0 Hsched).
  - intros Hc0 Hc1. exact (sigma_schedule_nonincreasing c rs Hc Hc0 Hc1 sigma0 Hsigma0 Hsched).
Qed.

End SigmaSchedule.

Lemma sigma_schedule_of_drivers_witness :
  let rs := history_of (OnePixel.shrinkWrap OnePixel.image [1; 1] three_cycles) in
  sigma_schedule (F32.of_Z 3) (Ieee.literal Ieee.binary32 25 2) rs
  /\ Forall (fun r => Ieee.leb ShrinkWrap.sigmaFloor
                        (ShrinkWrap.sigma (ShrinkWrap.cr_end r)) = true) rs
  /\ Forall (fun r => Ieee.ltb ShrinkWrap.sigmaFloor
                        (ShrinkWrap.sigma (ShrinkWrap.cr_start r)) = true ->
                      Ieee.leb (ShrinkWrap.sigma (ShrinkWrap.cr_end r))
                        (ShrinkWrap.sigma (ShrinkWrap.cr_start r)) = true) rs.
Proof.
  intros rs.
  destruct (sigma_schedule_of_drivers false OnePixel.fft OnePixel.fft
              Elementwise.complexNormElementwise OnePixel.gaussianBlur Reduce.vectorMax
              Elementwise.applyComplexModulus Reduce.hioError
              OnePixel.image 1 1 three_cycles rs eq_refl eq_refl (or_introl eq_refl))
    as (Hsched & Hfloor & Hdecr).
  split; [exact Hsched|]. split; [exact Hfloor|].
  apply Hdecr; reflexivity.
Defined.

(** On that run: three cycles, sigma 3 -> 2.25 -> 1.6875 -> 1.5. *)
Example sigma_schedule_three_cycles :
  map (fun r => ShrinkWrap.sigma (ShrinkWrap.cr_end r))
      (history_of (OnePixel.shrinkWrap OnePixel.image [1; 1] three_cycles))
  = [Ieee.literal Ieee.binary32 225 2; Ieee.literal Ieee.binary32 16875 4;
     Ieee.literal Ieee.binary32 15 1].
Proof. vm_compute. reflexivity. Qed.

(** ** The masked norm *)

(** *** Integers in single precision *)

Lemma of_Z_finite (z : Z) :
  0 < z < 2 ^ 24 ->
  exists m e, F32.of_Z z = S754_finite false m e /\ canonical32 m e
              /\ -23 <= e <= 0 /\ Zpos m = z * 2 ^ (- e).
Proof.
  intros Hz. destruct (pos_of_Z z) as [p ->]; [lia|].
  pose proof (digits2_pos_bounds p) as [Hlo Hhi].
  set (d := Zpos (digits2_pos p)) in *.
  assert (Hd : 0 < d <= 24).
  { split; [unfold d; lia|]. destruct (Z.le_gt_cases d 24) as [H|H]; [exact H|].
    assert (2 ^ 24 <= 2 ^ (d - 1)) by (apply Z.pow_le_mono_r; lia). lia. }
  destruct (pos_of_Z (Zpos p * 2 ^ (24 - d))) as [m Hm].
  { pose proof (pow2_pos (24 - d) ltac:(lia)). lia. }
  symmetry in Hm.
  assert (Hc : canonical32 m (d - 24)).
  { apply (canonical_iff 24 128 eq_refl eq_refl).
    rewrite (digits_shift p m (24 - d) ltac:(lia) Hm). fold d.
    change (emin 24 128) with (-149). lia. }
  exists m, (d - 24). split; [|split; [exact Hc|split; [lia|]]].
  - unfold F32.of_Z, Ieee.of_Z, binary_normalize. simpl Ieee.fmt_prec. simpl Ieee.fmt_emax.
    apply (binary_round_exact 24 128 eq_refl eq_refl false p m 0 (d - 24) (d - 24)).
    + exact Hc.
    + lia.
    + lia.
    + lia.
    + rewrite Z.sub_diag, Z.pow_0_r, Z.mul_1_r, Hm. f_equal. f_equal. lia.
  - rewrite Hm. f_equal. f_equal. lia.
Qed.

Lemma scaled_value (m : positive) (z e ez : Z) :
  -23 <= ez <= e -> e <= 0 -> Zpos m = z * 2 ^ (- e) ->
  Zpos m * 2 ^ (e - ez) * 2 ^ (ez + 23) = z * 2 ^ 23.
Proof.
  intros Hez He Hm. rewrite Hm. rewrite <- !Z.mul_assoc, <- !Z.pow_add_r by lia.
  f_equal. f_equal. lia.
Qed.

Lemma F32_add_of_Z (a b : Z) :
  0 <= a -> 0 <= b -> a + b < 2 ^ 24 ->
  F32.add (F32.of_Z a) (F32.of_Z b) = F32.of_Z (a + b).
Proof.
  intros Ha Hb Hab.
  destruct (Z.eq_dec a 0) as [-> | Ha0].
  { rewrite Z.add_0_l. change (F32.of_Z 0) with (S754_zero false).
    destruct (Z.eq_dec b 0) as [-> | Hb0]; [reflexivity|].
    destruct (of_Z_finite b) as (m & e & -> & _); [lia | reflexivity]. }
  destruct (Z.eq_dec b 0) as [-> | Hb0].
  { rewrite Z.add_0_r. change (F32.of_Z 0) with (S754_zero false).
    destruct (of_Z_finite a) as (m & e & -> & _); [lia | reflexivity]. }
  destruct (of_Z_finite a) as (ma & ea & -> & Hca & Hea & Hma); [lia|].
  destruct (of_Z_finite b) as (mb & eb & -> & Hcb & Heb & Hmb); [lia|].
  destruct (of_Z_finite (a + b)) as (mc & ec & -> & Hcc & Hec & Hmc); [lia|].
  unfold F32.add, Ieee.add, SFadd. simpl Ieee.fmt_prec. simpl Ieee.fmt_emax.
  cbv zeta. set (ez := Z.min ea eb).
  assert (Hez : -23 <= ez /\ ez <= ea /\ ez <= eb) by (unfold ez; lia).
  rewrite !shl_align_fst by lia. cbn [cond_Zopp].
  pose proof (scaled_value ma a ea ez ltac:(lia) ltac:(lia) Hma) as A.
  pose proof (scaled_value mb b eb ez ltac:(lia) ltac:(lia) Hmb) as B.
  pose proof (scaled_value mc (a + b) ec ec ltac:(lia) ltac:(lia) Hmc) as C.
  rewrite Z.sub_diag, Z.pow_0_r, Z.mul_1_r in C.
  clear Hma Hmb Hmc.
  destruct (pos_of_Z (Zpos ma * 2 ^ (ea - ez) + Zpos mb * 2 ^ (eb - ez))) as [S HS].
  { pose proof (pow2_pos (ea - ez) ltac:(lia)). pose proof (pow2_pos (eb - ez) ltac:(lia)).
    clear A B C. nia. }
  rewrite HS. cbn [binary_normalize].
  apply (binary_round_exact 24 128 eq_refl eq_refl false S mc ez ec (-23)).
  - exact Hcc.
  - lia.
  - lia.
  - lia.
  - replace (ez - -23) with (ez + 23) by lia. replace (ec - -23) with (ec + 23) by lia.
    rewrite <- HS, Z.mul_add_distr_r, A, B, C. ring.
Qed.

(** Counting by ones is exact up to 2^24. *)
Lemma F32_count (k : Z) :
  0 <= k < 2 ^ 24 -> F32.add (F32.of_Z k) F32.one = F32.of_Z (k + 1).
Proof.
  intros Hk. destruct (Z.eq_dec k (2 ^ 24 - 1)) as [-> | Hne].
  - vm_compute. reflexivity.
  - change F32.one with (F32.of_Z 1). apply F32_add_of_Z; lia.
Qed.

Lemma of_Z_normal (z : Z) :
  0 < z < 2 ^ 24 ->
  exists m e, F32.of_Z z = S754_finite false m e /\ canonical32 m e
              /\ -23 <= e <= 0 /\ Zpos m = z * 2 ^ (- e) /\ 2 ^ 23 <= Zpos m < 2 ^ 24.
Proof.
  intros Hz. destruct (of_Z_finite z Hz) as (m & e & Hm & Hc & He & Hv).
  exists m, e. repeat split; try assumption; try lia.
  - pose proof Hc as Hc'.
    apply (canonical_iff 24 128 eq_refl eq_refl) in Hc' as (_ & _ & [Hd | Hd]).
    + pose proof (digits2_pos_bounds m) as [Hlo _]. rewrite Hd in Hlo. exact Hlo.
    + change (emin 24 128) with (-149) in Hd. lia.
  - apply (canonical_lt_pow 24 128 eq_refl eq_refl m e Hc).
Qed.

Lemma F32_mul_of_Z (a b : Z) :
  0 <= a < 2 ^ 24 -> 0 <= b < 2 ^ 24 -> a * b < 2 ^ 24 ->
  F32.mul (F32.of_Z a) (F32.of_Z b) = F32.of_Z (a * b).
Proof.
  intros Ha Hb Hab.
  destruct (Z.eq_dec a 0) as [-> | Ha0].
  { rewrite Z.mul_0_l. change (F32.of_Z 0) with (S754_zero false).
    destruct (Z.eq_dec b 0) as [-> | Hb0]; [reflexivity|].
    destruct (of_Z_finite b) as (m & e & -> & _); [lia | reflexivity]. }
  destruct (Z.eq_dec b 0) as [-> | Hb0].
  { rewrite Z.mul_0_r. change (F32.of_Z 0) with (S754_zero false).
    destruct (of_Z_finite a) as (m & e & -> & _); [lia | reflexivity]. }
  destruct (of_Z_normal a) as (ma & ea & -> & Hca & Hea & Hma & Hna); [lia|].
  destruct (of_Z_normal b) as (mb & eb & -> & Hcb & Heb & Hmb & Hnb); [lia|].
  destruct (of_Z_normal (a * b)) as (mc & ec & -> & Hcc & Hec & Hmc & Hnc); [nia|].
  unfold F32.mul, Ieee.mul, SFmul. simpl Ieee.fmt_prec. simpl Ieee.fmt_emax.
  cbn [xorb].
  assert (Hprod : Zpos ma * Zpos mb = a * b * 2 ^ (- ea - eb)).
  { rewrite Hma, Hmb. replace (- ea - eb) with (- ea + - eb) by lia.
    rewrite Z.pow_add_r by lia. ring. }
  assert (Hle : ea + eb <= ec).
  { destruct (Z.le_gt_cases (ea + eb) ec) as [H|H]; [exact H|exfalso].
    assert (Hsplit : 2 ^ (- ec) = 2 ^ (- ea - eb) * 2 ^ (ea + eb - ec)).
    { rewrite <- Z.pow_add_r by lia. f_equal. lia. }
    assert (H2 : 2 <= 2 ^ (ea + eb - ec)).
    { change 2 with (2 ^ 1) at 1. apply Z.pow_le_mono_r; lia. }
    assert (Hbig : 2 ^ 23 * 2 ^ 23 <= Zpos ma * Zpos mb).
    { apply Z.mul_le_mono_nonneg; lia. }
    rewrite Hsplit, Z.mul_assoc, <- Hprod in Hmc.
    clear Hma Hmb Hprod Hsplit.
    set (P := Zpos ma * Zpos mb) in *. set (Q := 2 ^ (ea + eb - ec)) in *.
    change (2 ^ 23 * 2 ^ 23) with 70368744177664 in Hbig.
    change (2 ^ 24) with 16777216 in Hnc.
    clearbody P Q. clear - Hmc Hbig H2 Hnc. nia. }
  apply (binary_round_aux_exact 24 128 eq_refl eq_refl false (ma * mb) mc (ea + eb) ec).
  - exact Hcc.
  - lia.
  - exact Hle.
  - rewrite Pos2Z.inj_mul, Hprod, Hmc.
    rewrite <- (Z.mul_assoc (a * b) (2 ^ (- ec))), <- Z.pow_add_r by lia.
    f_equal. f_equal. lia.
Qed.

Lemma eqb_of_Z (z : Z) : 0 <= z < 2 ^ 24 -> Ieee.eqb (F32.of_Z z) (F32.of_Z z) = true.
Proof.
  intros Hz. destruct (Z.eq_dec z 0) as [-> | Hz0]; [reflexivity|].
  destruct (of_Z_finite z) as (m & e & -> & _); [lia|].
  unfold Ieee.eqb, SFeqb, SFcompare. rewrite Z.compare_refl, Pos.compare_cont_refl.
  reflexivity.
Qed.

Lemma pythagorean_norm : Elementwise.complexNorm pythagorean = F32.of_Z 5.
Proof. vm_compute. reflexivity. Qed.

(** *** The reduction *)

Lemma maskedPixels_S rData rIsMasked n inv :
  maskedPixels rData rIsMasked (S n) inv
  = maskedPixels rData rIsMasked n inv
    ++ (if Reduce.isMaskedPixel inv (rIsMasked !!! n) then [rData !!! n] else []).
Proof.
  unfold maskedPixels, maskedAmong. rewrite seq_S, flat_map_app. simpl.
  rewrite app_nil_r. reflexivity.
Qed.

Lemma maskedAmong_app rData rIsMasked inv l l' :
  maskedAmong rData rIsMasked inv (l ++ l')
  = maskedAmong rData rIsMasked inv l ++ maskedAmong rData rIsMasked inv l'.
Proof. apply flat_map_app. Qed.

(** The masked pixels an order adds are those of the array, up to their
    order. *)
Lemma covers_masked rData rIsMasked inv order n :
  covers order n ->
  Permutation (maskedAmong rData rIsMasked inv (Reduce.pixelsOf order))
    (maskedPixels rData rIsMasked n inv).
Proof.
  intros Hc. unfold maskedPixels, maskedAmong. apply Permutation_flat_map. exact Hc.
Qed.

Lemma maskedPixels_count rData rIsMasked n inv :
  (length (maskedPixels rData rIsMasked n inv) <= n)%nat.
Proof.
  induction n as [|n IH]; [simpl; lia|].
  rewrite maskedPixels_S, length_app.
  destruct (Reduce.isMaskedPixel _ _); cbn [length]; lia.
Qed.

(** Two counts add without rounding up to 2^24 inclusive. *)
Lemma F32_add_of_Z_le (a b : Z) :
  0 <= a -> 0 <= b -> a + b <= 2 ^ 24 ->
  F32.add (F32.of_Z a) (F32.of_Z b) = F32.of_Z (a + b).
Proof.
  intros Ha Hb Hab.
  destruct (Z.eq_dec (a + b) (2 ^ 24)) as [Htop | Hne];
    [|apply F32_add_of_Z; lia].
  rewrite Htop.
  destruct (Z.eq_dec a 0) as [-> | Ha0].
  { rewrite Z.add_0_l in Htop. subst b. vm_compute. reflexivity. }
  destruct (Z.eq_dec b 0) as [-> | Hb0].
  { rewrite Z.add_0_r in Htop. subst a. vm_compute. reflexivity. }
  destruct (of_Z_finite a) as (ma & ea & -> & Hca & Hea & Hma); [lia|].
  destruct (of_Z_finite b) as (mb & eb & -> & Hcb & Heb & Hmb); [lia|].
  change (F32.of_Z (2 ^ 24)) with (S754_finite false 8388608 1).
  unfold F32.add, Ieee.add, SFadd. simpl Ieee.fmt_prec. simpl Ieee.fmt_emax.
  cbv zeta. set (ez := Z.min ea eb).
  assert (Hez : -23 <= ez /\ ez <= ea /\ ez <= eb) by (unfold ez; lia).
  rewrite !shl_align_fst by lia. cbn [cond_Zopp].
  pose proof (scaled_value ma a ea ez ltac:(lia) ltac:(lia) Hma) as A.
  pose proof (scaled_value mb b eb ez ltac:(lia) ltac:(lia) Hmb) as B.
  clear Hma Hmb.
  destruct (pos_of_Z (Zpos ma * 2 ^ (ea - ez) + Zpos mb * 2 ^ (eb - ez))) as [S HS].
  { pose proof (pow2_pos (ea - ez) ltac:(lia)). pose proof (pow2_pos (eb - ez) ltac:(lia)).
    clear A B. nia. }
  rewrite HS. cbn [binary_normalize].
  apply (binary_round_exact 24 128 eq_refl eq_refl false S 8388608 ez 1 (-23)).
  - reflexivity.
  - lia.
  - lia.
  - lia.
  - replace (ez - -23) with (ez + 23) by lia.
    rewrite <- HS, Z.mul_add_distr_r, A, B, <- Z.mul_add_distr_r, Htop.
    reflexivity.
Qed.

Lemma F32_add_valid (x y : float) :
  F32.valid x = true -> F32.valid y = true -> F32.valid (F32.add x y) = true.
Proof.
  intros Hx Hy. unfold F32.valid, Ieee.valid, F32.add, Ieee.add.
  destruct x as [sx|sx| |sx mx ex], y as [sy|sy| |sy my ey]; cbn [SFadd];
    try reflexivity; try assumption;
    try (destruct sx, sy; reflexivity);
    try apply (binary_normalize_valid 24 128 eq_refl eq_refl).
Qed.

Lemma F32_of_Z_valid (z : Z) : F32.valid (F32.of_Z z) = true.
Proof. apply (binary_normalize_valid 24 128 eq_refl eq_refl). Qed.

Section Reduction.

Variable rData : list complex.
Variable rIsMasked : list float.
Variable rInvertMask : bool.

Local Abbreviation among := (maskedAmong rData rIsMasked rInvertMask).
Local Abbreviation countTerm :=
  (Reduce.maskedTerm rIsMasked rInvertMask (fun _ => F32.one)).
Local Abbreviation errorTerm :=
  (Reduce.maskedTerm rIsMasked rInvertMask
     (fun i => Elementwise.complexNorm (rData !!! i))).

(** Whatever the order, the count is exact up to 2^24. *)
Lemma reduce_count (order : Reduce.reduction) :
  Z.of_nat (length (among (Reduce.pixelsOf order))) <= 2 ^ 24 ->
  Reduce.reduce countTerm order
  = F32.of_Z (Z.of_nat (length (among (Reduce.pixelsOf order)))).
Proof.
  induction order as [|i|l IHl r IHr]; cbn [Reduce.reduce Reduce.pixelsOf].
  - reflexivity.
  - unfold Reduce.maskedTerm, maskedAmong. cbn [flat_map].
    destruct (Reduce.isMaskedPixel _ _); reflexivity.
  - rewrite maskedAmong_app, length_app. intros Hle.
    rewrite IHl, IHr by lia. rewrite F32_add_of_Z_le by lia. f_equal. lia.
Qed.

(** Whatever the order, moduli that are all 5 add without rounding
    while the sum stays below 2^24. *)
Lemma reduce_pythagorean (order : Reduce.reduction) :
  Forall (fun z => z = pythagorean) (among (Reduce.pixelsOf order)) ->
  5 * Z.of_nat (length (among (Reduce.pixelsOf order))) < 2 ^ 24 ->
  Reduce.reduce errorTerm order
  = F32.of_Z (5 * Z.of_nat (length (among (Reduce.pixelsOf order)))).
Proof.
  induction order as [|i|l IHl r IHr]; cbn [Reduce.reduce Reduce.pixelsOf].
  - reflexivity.
  - unfold Reduce.maskedTerm, maskedAmong. cbn [flat_map].
    destruct (Reduce.isMaskedPixel _ _); [|reflexivity].
    rewrite app_nil_r. intros Hall _. apply Forall_cons_1 in Hall as [-> _].
    apply pythagorean_norm.
  - rewrite maskedAmong_app, length_app. intros Hall Hlt.
    apply Forall_app in Hall as [Hl Hr].
    rewrite IHl, IHr by (try assumption; lia).
    rewrite F32_add_of_Z by lia. f_equal. lia.
Qed.

(** Every sum of moduli that are 5 is a single-precision number. *)
Lemma reduce_valid (order : Reduce.reduction) :
  Forall (fun z => z = pythagorean) (among (Reduce.pixelsOf order)) ->
  F32.valid (Reduce.reduce errorTerm order) = true.
Proof.
  induction order as [|i|l IHl r IHr]; cbn [Reduce.reduce Reduce.pixelsOf].
  - reflexivity.
  - unfold Reduce.maskedTerm, maskedAmong. cbn [flat_map].
    destruct (Reduce.isMaskedPixel _ _); [|reflexivity].
    rewrite app_nil_r. intros Hall. apply Forall_cons_1 in Hall as [-> _].
    rewrite pythagorean_norm. apply F32_of_Z_valid.
  - rewrite maskedAmong_app. intros Hall. apply Forall_app in Hall as [Hl Hr].
    apply F32_add_valid; auto.
Qed.

(** C7 (as amended): whatever the order in which the reduction adds,
    for an array of at most 2^24 pixels it returns as [n_masked] the
    exact number of masked pixels.  If every masked pixel holds
    [3 + 4i] and [5 * n_masked < 2^24] (the guard
    [totalError < 16777216] of the test), then [total_error] is exactly
    [5 * n_masked], whatever the unmasked pixels hold, and the
    comparison [nMaskedPixels * 5 == totalError] of the test is true. *)
Theorem masked_norm (orderError orderCount : Reduce.reduction) (N : nat) :
  let masked := maskedPixels rData rIsMasked N rInvertMask in
  let n_masked := Z.of_nat (length masked) in
  let r := Reduce.calculateHioError orderError orderCount rData rIsMasked rInvertMask in
  covers orderError N -> covers orderCount N ->
  Z.of_nat N <= 2 ^ 24 ->
  r.2 = F32.of_Z n_masked
  /\ (Forall (fun z => z = pythagorean) masked -> 5 * n_masked < 2 ^ 24 ->
      r.1 = F32.of_Z (5 * n_masked)
      /\ Ieee.eqb (F32.mul r.2 (F32.of_Z 5)) r.1 = true).
Proof.
  intros masked n_masked r HcE HcC HN.
  pose proof (maskedPixels_count rData rIsMasked N rInvertMask) as Hcount.
  fold masked in Hcount.
  pose proof (covers_masked rData rIsMasked rInvertMask orderError N HcE) as HpE.
  pose proof (covers_masked rData rIsMasked rInvertMask orderCount N HcC) as HpC.
  fold masked in HpE, HpC.
  assert (Hr2 : r.2 = F32.of_Z n_masked).
  { unfold r, Reduce.calculateHioError. cbn [snd].
    rewrite reduce_count; rewrite (Permutation_length HpC); [reflexivity|].
    fold n_masked. unfold n_masked. lia. }
  split; [exact Hr2|].
  intros Hall Hlt.
  assert (Hr1 : r.1 = F32.of_Z (5 * n_masked)).
  { unfold r, Reduce.calculateHioError. cbn [fst].
    rewrite reduce_pythagorean; rewrite ?(Permutation_length HpE); [reflexivity | | exact Hlt].
    eapply Permutation_Forall; [symmetry; exact HpE | exact Hall]. }
  split; [exact Hr1|].
  assert (Hn0 : 0 <= n_masked) by (unfold n_masked; lia).
  rewrite Hr1, Hr2, F32_mul_of_Z by (change (2 ^ 24) with 16777216 in *; lia).
  rewrite (Z.mul_comm n_masked 5). apply eqb_of_Z. lia.
Qed.

End Reduction.

Lemma maskedPixels_replicate (N k : nat) (z : complex) :
  (k <= N)%nat ->
  maskedPixels (replicate N z) (replicate N F32.one) k false = replicate k z.
Proof.
  intros Hk. induction k as [|k IH]; [reflexivity|].
  rewrite maskedPixels_S, IH by lia.
  rewrite !lookup_total_replicate_2 by lia.
  change (Reduce.isMaskedPixel false F32.one) with true. cbv iota.
  rewrite replicate_S_end. reflexivity.
Qed.

(** *** Integers that are not single-precision numbers *)

Example integer_value_of_Z : integer_value (F32.of_Z 16777220) = Some 16777220.
Proof. vm_compute. reflexivity. Qed.

(** An odd integer above 2^24 is not a single-precision number. *)
Lemma odd_not_representable (x : float) (k : Z) :
  2 ^ 23 <= k -> F32.valid x = true -> integer_value x <> Some (2 * k + 1).
Proof.
  intros Hk Hx. destruct x as [s|s| |s m e]; cbn [integer_value];
    try discriminate.
  { intros [= H]. change (2 ^ 23) with 8388608 in Hk. lia. }
  apply valid32_finite in Hx as [Hc _].
  pose proof (canonical_lt_pow 24 128 eq_refl eq_refl m e Hc) as Hm.
  change (2 ^ 24) with 16777216 in Hm. change (2 ^ 23) with 8388608 in Hk.
  destruct (Z.leb_spec 0 e) as [He|He].
  - intros [= H]. destruct s; cbn [cond_Zopp] in H; [lia|].
    destruct (Z.eq_dec e 0) as [-> | He0].
    + rewrite Z.pow_0_r in H. lia.
    + replace e with (e - 1 + 1) in H by lia. rewrite pow2_succ in H by lia.
      set (q := 2 ^ (e - 1)) in *. clearbody q. clear - H.
      assert (Hq : Zpos m * (2 * q) = 2 * (Zpos m * q)) by ring.
      rewrite Hq in H. set (t := Zpos m * q) in *. clearbody t. lia.
  - destruct (Z.eqb_spec (Zpos m mod 2 ^ (- e)) 0) as [Hmod|Hmod]; [|discriminate].
    intros [= H]. destruct s; cbn [cond_Zopp] in H.
    + pose proof (Z.div_pos (Zpos m) (2 ^ (- e)) ltac:(lia)
                    (pow2_pos (- e) ltac:(lia))). lia.
    + pose proof (Z.div_mod (Zpos m) (2 ^ (- e))
                    ltac:(pose proof (pow2_pos (- e) ltac:(lia)); lia)) as Hdm.
      rewrite Hmod, H, Z.add_0_r in Hdm.
      assert (H2 : 2 <= 2 ^ (- e)).
      { change 2 with (2 ^ 1) at 1. apply Z.pow_le_mono_r; lia. }
      set (q := 2 ^ (- e)) in *. clearbody q. clear - Hdm H2 Hm Hk. nia.
Qed.

(** C7, the claim as stated fails: 3355445 <= 2^24 pixels, all masked
    and all holding [3 + 4i].  Whatever the order of the additions, the
    count is exact, but [total_error] is not [5 * n_masked]: the value
    5 * 3355445 = 16777225 is odd and above 2^24, hence not a [float]
    at all. *)
Lemma masked_norm_counterexample :
  let N := Z.to_nat 3355445 in
  let rData := replicate N pythagorean in
  let rIsMasked := replicate N F32.one in
  Z.of_nat N <= 2 ^ 24
  /\ maskedPixels rData rIsMasked N false = replicate N pythagorean
  /\ forall orderError orderCount : Reduce.reduction,
       covers orderError N -> covers orderCount N ->
       let r := Reduce.calculateHioError orderError orderCount rData rIsMasked false in
       r.2 = F32.of_Z 3355445
       /\ integer_value r.1 <> Some (5 * 3355445).
Proof.
  intros N rData rIsMasked.
  assert (HN : Z.of_nat N = 3355445) by (unfold N; rewrite Z2Nat.id; lia).
  assert (Hmasked : maskedPixels rData rIsMasked N false = replicate N pythagorean)
    by (apply maskedPixels_replicate; lia).
  split; [lia|]. split; [exact Hmasked|].
  intros orderError orderCount HcE HcC r.
  pose proof (covers_masked rData rIsMasked false orderError N HcE) as HpE.
  pose proof (covers_masked rData rIsMasked false orderCount N HcC) as HpC.
  rewrite Hmasked in HpE, HpC. split.
  - unfold r, Reduce.calculateHioError. cbn [snd].
    rewrite (reduce_count rData rIsMasked false);
      rewrite (Permutation_length HpC), length_replicate, HN;
      [reflexivity | lia].
  - change (5 * 3355445) with (2 * 8388612 + 1).
    apply odd_not_representable; [change (2 ^ 23) with 8388608; lia|].
    unfold r, Reduce.calculateHioError. cbn [fst]. apply reduce_valid.
    eapply Permutation_Forall; [symmetry; exact HpE|].
    apply Forall_replicate. reflexivity.
Qed.

Lemma masked_norm_witness :
  let r := Reduce.calculateHioError masked_example_tree (Reduce.sequential 3)
             masked_example_data masked_example_mask false in
  r.2 = F32.of_Z 2 /\ r.1 = F32.of_Z 10
  /\ Ieee.eqb (F32.mul r.2 (F32.of_Z 5)) r.1 = true.
Proof.
  intros r.
  destruct (masked_norm masked_example_data masked_example_mask false
              masked_example_tree (Reduce.sequential 3) 3
              ltac:(unfold covers; simpl; reflexivity)
              ltac:(unfold covers; simpl; reflexivity) ltac:(simpl; lia))
    as (Hcount & Hsum).
  split; [exact Hcount|].
  apply Hsum; [|simpl; lia].
  repeat (apply Forall_cons_2; [reflexivity|]). apply Forall_nil_2.
Defined.

(** ** The modulus projection *)

Lemma F32_div_self (m : positive) (e : Z) :
  F32.div (S754_finite false m e) (S754_finite false m e) = F32.one.
Proof. apply (SFdiv_self 24 128 eq_refl eq_refl 8388608 false m e). reflexivity. Qed.

Lemma F32_mul_one_r (x : float) : F32.valid x = true -> F32.mul x F32.one = x.
Proof. apply (SFmul_one_r 24 128 eq_refl eq_refl 8388608 x). reflexivity. Qed.

(** A pixel whose modulus already is the (positive, finite) amplitude
    is left as it is. *)
Lemma complexModulusPixel_fixed (z : complex) (amplitude : float) (m : positive) (e : Z) :
  F32.valid (Re z) = true -> F32.valid (Im z) = true ->
  amplitude = S754_finite false m e ->
  Elementwise.complexNorm z = amplitude ->
  Elementwise.complexModulusPixel z amplitude = z.
Proof.
  intros HRe HIm -> Hnorm. unfold Elementwise.complexModulusPixel. rewrite Hnorm.
  change (Ieee.ltb F32.zero (S754_finite false m e)) with true. cbv iota zeta.
  rewrite F32_div_self, !F32_mul_one_r by assumption.
  destruct z; reflexivity.
Qed.

Lemma applyComplexModulus_lookup (src : list complex) (amplitude : list float)
    (n i : nat) :
  length src = n ->
  Elementwise.applyComplexModulus src amplitude n !! i
  = (fun z => Elementwise.complexModulusPixel z (amplitude !!! i)) <$> src !! i.
Proof.
  intros Hn. unfold Elementwise.applyComplexModulus.
  rewrite for_each_lookup by exact Hn. reflexivity.
Qed.

Lemma applyComplexModulus_length (src : list complex) (amplitude : list float) (n : nat) :
  length src = n -> length (Elementwise.applyComplexModulus src amplitude n) = n.
Proof. intros Hn. unfold Elementwise.applyComplexModulus. apply for_each_length, Hn. Qed.

(** C8 (as amended): one application of the modulus projection sets
    [dst[i] = src[i] * (amplitude[i] / |src[i]|)] wherever [|src[i]| > 0].
    A second application with the same amplitudes leaves bitwise
    unchanged every pixel whose modulus, as computed in single precision
    after the first application, is its (positive, finite) amplitude. *)
Theorem modulus_projection_twice (src : list complex) (amplitude : list float) (n : nat) :
  length src = n ->
  let once := Elementwise.applyComplexModulus src amplitude n in
  let twice := Elementwise.applyComplexModulus once amplitude n in
  (forall i z, src !! i = Some z ->
     Ieee.ltb F32.zero (Elementwise.complexNorm z) = true ->
     once !! i = Some (F32.mul (Re z) (F32.div (amplitude !!! i) (Elementwise.complexNorm z)),
                       F32.mul (Im z) (F32.div (amplitude !!! i) (Elementwise.complexNorm z))))
  /\ (forall i z m e, once !! i = Some z ->
        F32.valid (Re z) = true -> F32.valid (Im z) = true ->
        amplitude !!! i = S754_finite false m e ->
        Elementwise.complexNorm z = amplitude !!! i ->
        twice !! i = Some z).
Proof.
  intros Hn once twice. split.
  - intros i z Hz Hpos. unfold once. rewrite applyComplexModulus_lookup by exact Hn.
    rewrite Hz. cbn [fmap option_fmap option_map]. unfold Elementwise.complexModulusPixel.
    rewrite Hpos. reflexivity.
  - intros i z m e Hz HRe HIm Ha Hnorm. unfold twice.
    rewrite applyComplexModulus_lookup by (apply applyComplexModulus_length, Hn).
    fold once. rewrite Hz. cbn [fmap option_fmap option_map]. f_equal.
    apply (complexModulusPixel_fixed z _ m e); assumption.
Qed.

(** C8, the claim as stated fails.  With the amplitude -1 the pixel
    [1 + 0i], of modulus 1, changes its sign at every application, and
    every operation involved is exact.  With the amplitude 1 the pixel
    [1 + 1i] shows the effect of rounding: the first application gives
    11863283 * 2^-24 in both components; the modulus of that pixel
    rounds to 1 - 2^-24, and the second application moves both
    components to 11863284 * 2^-24. *)
Lemma modulus_projection_counterexample :
  let project src amplitude := Elementwise.applyComplexModulus src amplitude 1 in
  let flipped := [(F32.one, F32.zero)] in
  let rounded := [(F32.one, F32.one)] in
  Ieee.ltb F32.zero (Elementwise.complexNorm (F32.one, F32.zero)) = true
  /\ project flipped [F32.of_Z (-1)] = [(F32.of_Z (-1), S754_zero true)]
  /\ project (project flipped [F32.of_Z (-1)]) [F32.of_Z (-1)] = [(F32.one, F32.zero)]
  /\ Ieee.ltb F32.zero (Elementwise.complexNorm (F32.one, F32.one)) = true
  /\ project rounded [F32.one]
     = [(S754_finite false 11863283 (-24), S754_finite false 11863283 (-24))]
  /\ project (project rounded [F32.one]) [F32.one]
     = [(S754_finite false 11863284 (-24), S754_finite false 11863284 (-24))]
  /\ project (project flipped [F32.of_Z (-1)]) [F32.of_Z (-1)]
     <> project flipped [F32.of_Z (-1)]
  /\ project (project rounded [F32.one]) [F32.one] <> project rounded [F32.one].
Proof.
  intros project flipped rounded.
  repeat (split; [vm_compute; reflexivity|]).
  split; intros Heq; vm_compute in Heq; discriminate Heq.
Qed.

Lemma modulus_projection_twice_witness :
  let src := [(F32.of_Z 6, F32.of_Z 8)] in
  let amplitude := [F32.of_Z 5] in
  let once := Elementwise.applyComplexModulus src amplitude 1 in
  once = [(F32.of_Z 3, F32.of_Z 4)]
  /\ Elementwise.applyComplexModulus once amplitude 1 = once.
Proof.
  intros src amplitude once.
  assert (Honce : once = [(F32.of_Z 3, F32.of_Z 4)]) by (vm_compute; reflexivity).
  split; [exact Honce|].
  destruct (modulus_projection_twice src amplitude 1 eq_refl) as [_ Hfix].
  apply list_eq. intros [|i].
  - transitivity (Some (F32.of_Z 3, F32.of_Z 4)); [|rewrite Honce; reflexivity].
    apply (Hfix 0%nat (F32.of_Z 3, F32.of_Z 4) 10485760%positive (-21)).
    + fold once. rewrite Honce. reflexivity.
    + reflexivity.
    + reflexivity.
    + reflexivity.
    + reflexivity.
  - rewrite Honce. reflexivity.
Defined.

(** ** [fftShift] *)


Lemma for_range_ind {S : Type} (P : nat -> S -> Prop) (n : nat)
    (body : nat -> S -> S) (s : S) :
  P 0%nat s -> (forall i s, (i < n)%nat -> P i s -> P (Datatypes.S i) (body i s)) ->
  P n (for_range n body s).
Proof.
  intros H0 Hstep. induction n as [|n IH]; [exact H0|].
  rewrite for_range_S. apply Hstep; [lia|]. apply IH. intros i s' Hi. apply Hstep. lia.
Qed.

Lemma mod_wrap (N y : Z) :
  0 < N -> 0 <= y < 2 * N -> y mod N = if y <? N then y else y - N.
Proof.
  intros HN Hy. destruct (Z.ltb_spec y N).
  - apply Z.mod_small. lia.
  - symmetry. apply (Z.mod_unique y N 1); lia.
Qed.

Lemma div_mod_row (N q r : Z) :
  0 <= r < N -> (q * N + r) / N = q /\ (q * N + r) mod N = r.
Proof.
  intros Hr. split.
  - symmetry. apply (Z.div_unique (q * N + r) N q r); lia.
  - symmetry. apply (Z.mod_unique (q * N + r) N q r); lia.
Qed.

Lemma row_decompose (N k : Z) :
  0 < N -> 0 <= k -> exists q r, k = q * N + r /\ 0 <= r < N /\ 0 <= q.
Proof.
  intros HN Hk. exists (k / N), (k mod N).
  pose proof (Z.div_mod k N ltac:(lia)). pose proof (Z.mod_pos_bound k N HN).
  pose proof (Z.div_pos k N Hk HN). lia.
Qed.

Section Shift.
Variables Nx Ny : Z.
Hypothesis HNx : 0 < Nx.
Hypothesis HNy : 0 <= Ny.

Local Abbreviation h := (Ny / 2).
Local Abbreviation a := (Nx / 2).

Local Abbreviation tau := (fftShiftTarget Nx Ny).
Local Abbreviation tau' := (fftShiftOrigin Nx Ny).

Lemma half_bounds : 0 <= a < Nx /\ 0 <= h /\ 2 * h <= Ny.
Proof.
  pose proof (Z.div_mod Nx 2 ltac:(lia)). pose proof (Z.mod_pos_bound Nx 2 ltac:(lia)).
  pose proof (Z.div_mod Ny 2 ltac:(lia)). pose proof (Z.mod_pos_bound Ny 2 ltac:(lia)).
  lia.
Qed.

Lemma tau_spec (q r : Z) :
  0 <= r < Nx ->
  tau (q * Nx + r) = (q + h) * Nx + (if r + a <? Nx then r + a else r + a - Nx).
Proof.
  intros Hr. unfold fftShiftTarget. destruct (div_mod_row Nx q r Hr) as [-> ->].
  pose proof half_bounds. rewrite mod_wrap by lia. reflexivity.
Qed.

Lemma tau'_spec (q r : Z) :
  0 <= r < Nx ->
  tau' (q * Nx + r) = (q - h) * Nx + (if r + Nx - a <? Nx then r + Nx - a else r - a).
Proof.
  intros Hr. unfold fftShiftOrigin. destruct (div_mod_row Nx q r Hr) as [-> ->].
  pose proof half_bounds. rewrite mod_wrap by lia.
  destruct (_ <? _); f_equal; lia.
Qed.

Lemma tau_range (c : Z) :
  0 <= c < h * Nx -> h * Nx <= tau c < 2 * h * Nx /\ tau' (tau c) = c.
Proof.
  intros Hc. destruct (row_decompose Nx c HNx ltac:(lia)) as (q & r & -> & Hr & Hq).
  pose proof half_bounds as Hb.
  assert (q < h) by nia.
  rewrite tau_spec by exact Hr.
  destruct (Z.ltb_spec (r + a) Nx).
  - split; [nia|]. rewrite tau'_spec by lia.
    destruct (Z.ltb_spec (r + a + Nx - a) Nx); [lia|]. ring.
  - split; [nia|]. rewrite tau'_spec by lia.
    destruct (Z.ltb_spec (r + a - Nx + Nx - a) Nx); [|lia]. ring.
Qed.

Lemma tau'_range (k : Z) :
  h * Nx <= k < 2 * h * Nx -> 0 <= tau' k < h * Nx /\ tau (tau' k) = k.
Proof.
  intros Hk. pose proof half_bounds as Hb.
  destruct (row_decompose Nx k HNx ltac:(nia)) as (q & r & -> & Hr & Hq).
  assert (h <= q < 2 * h) by nia.
  rewrite tau'_spec by exact Hr.
  destruct (Z.ltb_spec (r + Nx - a) Nx).
  - split; [nia|]. rewrite tau_spec by lia.
    destruct (Z.ltb_spec (r + Nx - a + a) Nx); [lia|]. ring.
  - split; [nia|]. rewrite tau_spec by lia.
    destruct (Z.ltb_spec (r - a + a) Nx); [|lia]. ring.
Qed.


Lemma shiftedIndex_target (ix iy : Z) :
  Nx * Ny < 2 ^ 32 -> 0 <= ix < Nx -> 0 <= iy < h ->
  wrap_unsigned (iy * Nx + ix) = iy * Nx + ix
  /\ FftShift.shiftedIndex Nx Ny ix iy = tau (iy * Nx + ix).
Proof.
  intros Hov Hix Hiy. pose proof half_bounds as Hb.
  assert (HNy2 : 2 <= Ny) by lia.
  assert (Hrow : (iy + h) * Nx + Nx <= Nx * Ny) by nia.
  change (2 ^ 32) with 4294967296 in Hov.
  unfold FftShift.shiftedIndex, wrap_unsigned. change (2 ^ 32) with 4294967296.
  split; [apply Z.mod_small; nia|].
  rewrite (Z.mod_small (iy + h)) by nia.
  rewrite (Z.mod_small (iy + h) Ny) by lia.
  rewrite (Z.mod_small (ix + a)) by nia.
  rewrite tau_spec by exact Hix. rewrite (mod_wrap Nx) by lia.
  apply Z.mod_small. destruct (Z.ltb_spec (ix + a) Nx); nia.
Qed.

End Shift.

Section FftShiftProperties.
Context {T_COMPLEX : Type} `{Inhabited T_COMPLEX}.
Variables Nx Ny : Z.
Variable data : list T_COMPLEX.
Hypothesis HNx : 0 < Nx.
Hypothesis HNy : 0 <= Ny.
Hypothesis Hov : Nx * Ny < 2 ^ 32.
Hypothesis Hlen : 2 * (Ny / 2) * Nx <= Z.of_nat (length data).

Local Abbreviation h := (Ny / 2).
Local Abbreviation tau := (fftShiftTarget Nx Ny).
Local Abbreviation tau' := (fftShiftOrigin Nx Ny).
Local Abbreviation after := (fftShiftSourceAfter Nx Ny).

Local Abbreviation swapped := (fftShiftSwapped Nx Ny data).

Lemma swapped_start : swapped 0 (Ok data).
Proof.
  split; [reflexivity|]. intros k. unfold fftShiftSourceAfter.
  destruct (Z.ltb_spec (Z.of_nat k) 0); [lia|].
  destruct (Z.ltb_spec (tau' (Z.of_nat k)) 0) as [Hneg|Hneg].
  - rewrite andb_true_r. destruct (_ && _) eqn:E; [|f_equal; lia].
    apply andb_true_iff in E as [E1 E2].
    apply Z.leb_le in E1. apply Z.ltb_lt in E2.
    pose proof (tau'_range Nx Ny HNx HNy (Z.of_nat k) ltac:(lia)). lia.
  - rewrite andb_false_r. f_equal. lia.
Qed.

Lemma swapped_step (c : Z) (st : result (list T_COMPLEX)) :
  0 <= c < h * Nx -> swapped c st ->
  swapped (c + 1) (d <- st ;; FftShift.swap c (tau c) d).
Proof.
  intros Hc Hst. destruct st as [d| |]; try contradiction.
  destruct Hst as [Hd Hk]. cbn [result_bind].
  destruct (tau_range Nx Ny HNx HNy c Hc) as [Ht Hback].
  unfold FftShift.swap. rewrite Hd.
  destruct (Z.leb_spec 0 c); [|lia]. destruct (Z.ltb_spec c (Z.of_nat (length data))); [|lia].
  destruct (Z.leb_spec 0 (tau c)); [|lia].
  destruct (Z.ltb_spec (tau c) (Z.of_nat (length data))); [|lia].
  cbn [andb]. split; [rewrite !length_insert; exact Hd|].
  assert (Hdc : d !! Z.to_nat c = data !! Z.to_nat c).
  { rewrite Hk. f_equal. f_equal. rewrite Z2Nat.id by lia. unfold fftShiftSourceAfter.
    destruct (Z.ltb_spec c c); [lia|].
    destruct (Z.leb_spec (h * Nx) c); [lia|]. reflexivity. }
  assert (Hdt : d !! Z.to_nat (tau c) = data !! Z.to_nat (tau c)).
  { rewrite Hk. f_equal. f_equal. rewrite Z2Nat.id by lia. unfold fftShiftSourceAfter.
    destruct (Z.ltb_spec (tau c) c); [lia|]. rewrite Hback.
    destruct (Z.ltb_spec c c); [lia|]. rewrite andb_false_r. reflexivity. }
  assert (Hgc : d !! Z.to_nat c = Some (d !!! Z.to_nat c))
    by (apply list_lookup_lookup_total_lt; lia).
  assert (Hgt : d !! Z.to_nat (tau c) = Some (d !!! Z.to_nat (tau c)))
    by (apply list_lookup_lookup_total_lt; lia).
  intros k.
  destruct (decide (k = Z.to_nat c)) as [-> | Hkc].
  { rewrite list_lookup_insert_eq by (rewrite length_insert; lia).
    rewrite <- Hgt, Hdt. f_equal. f_equal. rewrite Z2Nat.id by lia.
    unfold fftShiftSourceAfter. destruct (Z.ltb_spec c (c + 1)); [reflexivity | lia]. }
  rewrite list_lookup_insert_ne by congruence.
  destruct (decide (k = Z.to_nat (tau c))) as [-> | Hkt].
  { rewrite list_lookup_insert_eq by lia.
    rewrite <- Hgc, Hdc. f_equal. f_equal. rewrite Z2Nat.id by lia.
    unfold fftShiftSourceAfter. destruct (Z.ltb_spec (tau c) (c + 1)); [lia|].
    rewrite Hback.
    destruct (Z.leb_spec (h * Nx) (tau c)); [|lia].
    destruct (Z.ltb_spec (tau c) (2 * h * Nx)); [|lia].
    destruct (Z.ltb_spec c (c + 1)); [reflexivity | lia]. }
  rewrite list_lookup_insert_ne by congruence.
  rewrite Hk. f_equal. f_equal. unfold fftShiftSourceAfter.
  assert (Z.of_nat k <> c) by lia.
  destruct (Z.ltb_spec (Z.of_nat k) c), (Z.ltb_spec (Z.of_nat k) (c + 1)); try lia;
    try reflexivity.
  destruct ((h * Nx <=? Z.of_nat k) && (Z.of_nat k <? 2 * h * Nx)) eqn:E; cbn [andb];
    [|reflexivity].
  apply andb_true_iff in E as [E1 E2]. apply Z.leb_le in E1. apply Z.ltb_lt in E2.
  destruct (tau'_range Nx Ny HNx HNy (Z.of_nat k) ltac:(lia)) as [Hr Hfw].
  assert (tau' (Z.of_nat k) <> c).
  { intros Heq. rewrite Heq in Hfw. lia. }
  destruct (Z.ltb_spec (tau' (Z.of_nat k)) c), (Z.ltb_spec (tau' (Z.of_nat k)) (c + 1));
    try lia; reflexivity.
Qed.

Lemma fftShift_swapped : swapped (h * Nx) (FftShift.fftShift data Nx Ny).
Proof.
  pose proof (half_bounds Nx Ny HNx HNy) as Hb.
  unfold FftShift.fftShift.
  replace (h * Nx) with (Z.of_nat (Z.to_nat h) * Nx) by lia.
  apply (for_range_ind (fun iy st => swapped (Z.of_nat iy * Nx) st)).
  { exact swapped_start. }
  intros iy st Hiy Hst.
  replace (Z.of_nat (S iy) * Nx) with (Z.of_nat iy * Nx + Z.of_nat (Z.to_nat Nx)) by lia.
  apply (for_range_ind (fun ix st => swapped (Z.of_nat iy * Nx + Z.of_nat ix) st)).
  { rewrite Z.add_0_r. exact Hst. }
  intros ix st' Hix Hst'.
  destruct (shiftedIndex_target Nx Ny HNx HNy (Z.of_nat ix) (Z.of_nat iy) Hov
              ltac:(lia) ltac:(lia)) as [-> ->].
  replace (Z.of_nat iy * Nx + Z.of_nat (S ix))
    with (Z.of_nat iy * Nx + Z.of_nat ix + 1) by lia.
  apply swapped_step; [nia | exact Hst'].
Qed.

End FftShiftProperties.

(** What [fftShift] computes, for all sizes: the value at index [k]
    comes from index [fftShiftSource Nx Ny k]. *)
Lemma fftShift_source {T_COMPLEX : Type} `{Inhabited T_COMPLEX}
    (data : list T_COMPLEX) (Nx Ny : Z) :
  0 <= Nx -> 0 <= Ny -> Nx * Ny < 2 ^ 32 ->
  2 * (Ny / 2) * Nx <= Z.of_nat (length data) ->
  exists d, FftShift.fftShift data Nx Ny = Ok d
            /\ length d = length data
            /\ forall k : nat, d !! k = data !! Z.to_nat (fftShiftSource Nx Ny (Z.of_nat k)).
Proof.
  intros HNx HNy Hov Hlen.
  destruct (Z.eq_dec Nx 0) as [-> | HNx0].
  { exists data. split; [|split; [reflexivity|]].
    - unfold FftShift.fftShift. apply (for_range_invariant (fun st => st = Ok data));
        [|reflexivity].
      intros i s _ ->. reflexivity.
    - intros k. unfold fftShiftSource, fftShiftSourceAfter. rewrite !Z.mul_0_r.
      destruct (Z.ltb_spec (Z.of_nat k) 0); [lia|]. rewrite andb_false_r. cbn [andb].
      f_equal. lia. }
  pose proof (fftShift_swapped Nx Ny data ltac:(lia) HNy Hov Hlen) as Hsw.
  destruct (FftShift.fftShift data Nx Ny) as [d| |]; try contradiction.
  exists d. split; [reflexivity|]. exact Hsw.
Qed.

Lemma fftShiftSource_cases (Nx Ny k : Z) :
  0 < Nx -> 0 <= Ny -> 0 <= k ->
  fftShiftSource Nx Ny k
  = if k <? Ny / 2 * Nx then fftShiftTarget Nx Ny k
    else if k <? 2 * (Ny / 2) * Nx then fftShiftOrigin Nx Ny k else k.
Proof.
  intros HNx HNy Hk. unfold fftShiftSource, fftShiftSourceAfter.
  destruct (Z.ltb_spec k (Ny / 2 * Nx)); [reflexivity|].
  destruct (Z.leb_spec (Ny / 2 * Nx) k); [|lia]. cbn [andb].
  destruct (Z.ltb_spec k (2 * (Ny / 2) * Nx)); [|reflexivity]. cbn [andb].
  destruct (tau'_range Nx Ny HNx HNy k ltac:(lia)) as [Hr _].
  destruct (Z.ltb_spec (fftShiftOrigin Nx Ny k) (Ny / 2 * Nx)); [reflexivity | lia].
Qed.

Lemma fftShiftSource_involutive (Nx Ny k : Z) :
  0 <= Nx -> 0 <= Ny -> 0 <= k ->
  0 <= fftShiftSource Nx Ny k
  /\ fftShiftSource Nx Ny (fftShiftSource Nx Ny k) = k.
Proof.
  intros HNx HNy Hk.
  destruct (Z.eq_dec Nx 0) as [-> | HNx0].
  { unfold fftShiftSource, fftShiftSourceAfter. rewrite !Z.mul_0_r.
    destruct (Z.ltb_spec k 0); [lia|]. rewrite andb_false_r. cbn [andb].
    destruct (Z.ltb_spec k 0); [lia|]. rewrite andb_false_r. cbn [andb]. lia. }
  assert (HNx' : 0 < Nx) by lia.
  rewrite (fftShiftSource_cases Nx Ny k HNx' HNy Hk).
  destruct (Z.ltb_spec k (Ny / 2 * Nx)).
  - destruct (tau_range Nx Ny HNx' HNy k ltac:(lia)) as [Hr Hback].
    split; [lia|]. rewrite fftShiftSource_cases by lia.
    destruct (Z.ltb_spec (fftShiftTarget Nx Ny k) (Ny / 2 * Nx)); [lia|].
    destruct (Z.ltb_spec (fftShiftTarget Nx Ny k) (2 * (Ny / 2) * Nx)); [exact Hback | lia].
  - destruct (Z.ltb_spec k (2 * (Ny / 2) * Nx)).
    + destruct (tau'_range Nx Ny HNx' HNy k ltac:(lia)) as [Hr Hfw].
      split; [lia|]. rewrite fftShiftSource_cases by lia.
      destruct (Z.ltb_spec (fftShiftOrigin Nx Ny k) (Ny / 2 * Nx)); [exact Hfw | lia].
    + split; [lia|]. rewrite fftShiftSource_cases by lia.
      destruct (Z.ltb_spec k (Ny / 2 * Nx)); [lia|].
      destruct (Z.ltb_spec k (2 * (Ny / 2) * Nx)); [lia | reflexivity].
Qed.

(** X1: applying [fftShift] twice gives back the array, whatever the
    sizes (even or odd), as long as the buffer holds the rows that are
    exchanged and [Nx * Ny] fits an [unsigned]. *)
Theorem fftShift_involution {T_COMPLEX : Type} `{Inhabited T_COMPLEX}
    (data : list T_COMPLEX) (Nx Ny : Z) :
  0 <= Nx -> 0 <= Ny -> Nx * Ny < 2 ^ 32 ->
  2 * (Ny / 2) * Nx <= Z.of_nat (length data) ->
  exists d, FftShift.fftShift data Nx Ny = Ok d
            /\ FftShift.fftShift d Nx Ny = Ok data.
Proof.
  intros HNx HNy Hov Hlen.
  destruct (fftShift_source data Nx Ny HNx HNy Hov Hlen) as (d & Hd & Hdl & Hdk).
  exists d. split; [exact Hd|].
  destruct (fftShift_source d Nx Ny HNx HNy Hov ltac:(lia)) as (d2 & Hd2 & Hd2l & Hd2k).
  rewrite Hd2. f_equal. apply list_eq. intros k.
  rewrite Hd2k.
  destruct (fftShiftSource_involutive Nx Ny (Z.of_nat k) HNx HNy ltac:(lia)) as [Hpos Hinv].
  rewrite Hdk. rewrite Z2Nat.id by exact Hpos. rewrite Hinv. f_equal. lia.
Qed.

Lemma fftShift_involution_witness :
  exists d, FftShift.fftShift [1; 2; 3; 4; 5; 6; 7; 8; 9] 3 3 = Ok d
            /\ FftShift.fftShift d 3 3 = Ok [1; 2; 3; 4; 5; 6; 7; 8; 9].
Proof.
  apply (fftShift_involution [1; 2; 3; 4; 5; 6; 7; 8; 9] 3 3);
    [lia | lia | reflexivity | change (6 <= 9); lia].
Defined.

(** X2: for even [Nx] and [Ny], [fftShift] is the shift of the comment
    in the source, [newArray[i] = array[(i+N/2)%N]] along both axes:
    pixel (ix, iy) receives the value of pixel ((ix+Nx/2)%Nx,
    (iy+Ny/2)%Ny).  The buffer keeps its length, and what lies behind
    the image is left alone. *)
Theorem fftShift_even {T_COMPLEX : Type} `{Inhabited T_COMPLEX}
    (data : list T_COMPLEX) (Nx Ny : Z) :
  0 <= Nx -> 0 <= Ny -> Nx mod 2 = 0 -> Ny mod 2 = 0 -> Nx * Ny < 2 ^ 32 ->
  Nx * Ny <= Z.of_nat (length data) ->
  exists d, FftShift.fftShift data Nx Ny = Ok d
            /\ length d = length data
            /\ (forall ix iy, 0 <= ix < Nx -> 0 <= iy < Ny ->
                  d !! Z.to_nat (iy * Nx + ix)
                  = data !! Z.to_nat ((iy + Ny / 2) mod Ny * Nx + (ix + Nx / 2) mod Nx))
            /\ (forall k : nat, Nx * Ny <= Z.of_nat k -> d !! k = data !! k).
Proof.
  intros HNx HNy HeX HeY Hov Hlen.
  pose proof (Z.div_mod Nx 2 ltac:(lia)) as HdX. pose proof (Z.div_mod Ny 2 ltac:(lia)) as HdY.
  rewrite HeX in HdX. rewrite HeY in HdY.
  destruct (fftShift_source data Nx Ny HNx HNy Hov ltac:(nia)) as (d & Hd & Hdl & Hdk).
  exists d. split; [exact Hd|]. split; [exact Hdl|]. split.
  - intros ix iy Hix Hiy. assert (HNx' : 0 < Nx) by lia.
    rewrite Hdk. f_equal. f_equal. rewrite Z2Nat.id by nia.
    rewrite fftShiftSource_cases by (try lia; nia).
    destruct (Z.ltb_spec (iy * Nx + ix) (Ny / 2 * Nx)).
    + assert (iy < Ny / 2) by nia.
      unfold fftShiftTarget. destruct (div_mod_row Nx iy ix Hix) as [-> ->].
      rewrite (Z.mod_small (iy + Ny / 2) Ny) by lia. reflexivity.
    + assert (Ny / 2 <= iy) by nia.
      destruct (Z.ltb_spec (iy * Nx + ix) (2 * (Ny / 2) * Nx)); [|nia].
      unfold fftShiftOrigin. destruct (div_mod_row Nx iy ix Hix) as [-> ->].
      rewrite (mod_wrap Ny (iy + Ny / 2)) by lia.
      destruct (Z.ltb_spec (iy + Ny / 2) Ny); [lia|].
      replace (ix + Nx - Nx / 2) with (ix + Nx / 2) by lia.
      f_equal. f_equal. lia.
  - intros k Hk. rewrite Hdk. f_equal.
    destruct (Z.eq_dec Nx 0) as [HNx0 | HNx0].
    + unfold fftShiftSource, fftShiftSourceAfter. rewrite HNx0, !Z.mul_0_r.
      destruct (Z.ltb_spec (Z.of_nat k) 0); [lia|]. rewrite andb_false_r. cbn [andb]. lia.
    + rewrite fftShiftSource_cases by lia.
      destruct (Z.ltb_spec (Z.of_nat k) (Ny / 2 * Nx)); [nia|].
      destruct (Z.ltb_spec (Z.of_nat k) (2 * (Ny / 2) * Nx)); [nia | lia].
Qed.

Lemma fftShift_even_witness :
  exists d, FftShift.fftShift [1; 2; 3; 4; 5; 6; 7; 8; 9] 4 2 = Ok d
            /\ length d = 9%nat
            /\ d !! 0%nat = Some 7 /\ d !! 5%nat = Some 4 /\ d !! 8%nat = Some 9.
Proof.
  destruct (fftShift_even [1; 2; 3; 4; 5; 6; 7; 8; 9] 4 2)
    as (d & Hd & Hl & Hpix & Hrest); [lia | lia | reflexivity | reflexivity
                                     | reflexivity | simpl; lia |].
  exists d. split; [exact Hd|]. split; [exact Hl|].
  split; [exact (Hpix 0 0 ltac:(lia) ltac:(lia))|].
  split; [exact (Hpix 1 1 ltac:(lia) ltac:(lia))|].
  apply (Hrest 8%nat). lia.
Defined.

(** X3: for odd [Ny] the loop over [iy < Ny/2] never reaches the last
    row, which stays where it is, so the result is not the circular
    shift of the rows; in particular an image of a single row (or of no
    row) is left unchanged, whatever the buffer. *)
Theorem fftShift_odd_rows {T_COMPLEX : Type} `{Inhabited T_COMPLEX}
    (data : list T_COMPLEX) (Nx Ny : Z) :
  (0 <= Ny <= 1 -> FftShift.fftShift data Nx Ny = Ok data)
  /\ (0 <= Nx -> 0 <= Ny -> Ny mod 2 = 1 -> Nx * Ny < 2 ^ 32 ->
      Nx * Ny <= Z.of_nat (length data) ->
      exists d, FftShift.fftShift data Nx Ny = Ok d
                /\ forall ix, 0 <= ix < Nx ->
                     d !! Z.to_nat ((Ny - 1) * Nx + ix)
                     = data !! Z.to_nat ((Ny - 1) * Nx + ix)).
Proof.
  split.
  - intros HNy. unfold FftShift.fftShift.
    replace (Ny / 2) with 0; [reflexivity|].
    symmetry. apply Z.div_small. lia.
  - intros HNx HNy Hodd Hov Hlen.
    pose proof (Z.div_mod Ny 2 ltac:(lia)) as HdY. rewrite Hodd in HdY.
    assert (Hq : 0 <= Ny / 2 /\ 1 <= Ny) by lia.
    destruct (fftShift_source data Nx Ny HNx HNy Hov ltac:(nia)) as (d & Hd & Hdl & Hdk).
    exists d. split; [exact Hd|]. intros ix Hix.
    rewrite Hdk. f_equal. f_equal. rewrite Z2Nat.id by nia.
    rewrite fftShiftSource_cases by (try lia; nia).
    destruct (Z.ltb_spec ((Ny - 1) * Nx + ix) (Ny / 2 * Nx)); [nia|].
    destruct (Z.ltb_spec ((Ny - 1) * Nx + ix) (2 * (Ny / 2) * Nx)); [nia | reflexivity].
Qed.

Lemma fftShift_odd_rows_witness :
  FftShift.fftShift [1; 2; 3] 3 1 = Ok [1; 2; 3]
  /\ exists d, FftShift.fftShift [1; 2; 3; 4; 5; 6] 2 3 = Ok d
               /\ d !! 4%nat = Some 5 /\ d !! 5%nat = Some 6.
Proof.
  destruct (fftShift_odd_rows [1; 2; 3] 3 1) as [H1 _].
  destruct (fftShift_odd_rows [1; 2; 3; 4; 5; 6] 2 3) as [_ H2].
  split; [apply H1; lia|].
  destruct H2 as (d & Hd & Hrow); [lia | lia | reflexivity | reflexivity | simpl; lia|].
  exists d. split; [exact Hd|].
  split; [exact (Hrow 0 ltac:(lia)) | exact (Hrow 1 ltac:(lia))].
Defined.

Section FftShiftBounds.
Context {T_COMPLEX : Type} `{Inhabited T_COMPLEX}.
Variables Nx Ny : Z.
Variable data : list T_COMPLEX.
Hypothesis HNx : 0 < Nx.
Hypothesis HNy : 0 <= Ny.
Hypothesis Hov : Nx * Ny < 2 ^ 32.

Local Abbreviation inside := (fftShiftInside Nx Ny data).

Lemma inside_step (c : Z) (st : result (list T_COMPLEX)) :
  0 <= c -> inside c st ->
  inside (c + 1) (d <- st ;; FftShift.swap c (fftShiftTarget Nx Ny c) d).
Proof.
  intros Hc Hst. destruct st as [d| |]; try contradiction; [|exact I].
  destruct Hst as [Hd Hprev]. cbn [result_bind]. unfold FftShift.swap. rewrite Hd.
  destruct (_ && _) eqn:E; [|exact I].
  apply andb_true_iff in E as [E Ht]. apply Z.ltb_lt in Ht.
  split; [rewrite !length_insert; exact Hd|].
  intros c' Hc'. destruct (Z.eq_dec c' c) as [-> | Hne]; [exact Ht | apply Hprev; lia].
Qed.

Lemma fftShift_inside : inside (Ny / 2 * Nx) (FftShift.fftShift data Nx Ny).
Proof.
  pose proof (half_bounds Nx Ny HNx HNy) as Hb.
  unfold FftShift.fftShift.
  replace (Ny / 2 * Nx) with (Z.of_nat (Z.to_nat (Ny / 2)) * Nx) by lia.
  apply (for_range_ind (fun iy st => inside (Z.of_nat iy * Nx) st)).
  { split; [reflexivity|]. intros c' Hc'. lia. }
  intros iy st Hiy Hst.
  replace (Z.of_nat (S iy) * Nx) with (Z.of_nat iy * Nx + Z.of_nat (Z.to_nat Nx)) by lia.
  apply (for_range_ind (fun ix st => inside (Z.of_nat iy * Nx + Z.of_nat ix) st)).
  { rewrite Z.add_0_r. exact Hst. }
  intros ix st' Hix Hst'.
  destruct (shiftedIndex_target Nx Ny HNx HNy (Z.of_nat ix) (Z.of_nat iy) Hov
              ltac:(lia) ltac:(lia)) as [-> ->].
  replace (Z.of_nat iy * Nx + Z.of_nat (S ix))
    with (Z.of_nat iy * Nx + Z.of_nat ix + 1) by lia.
  apply inside_step; [nia | exact Hst'].
Qed.

End FftShiftBounds.

(** X4: [fftShift] reads and writes the indices below
    [2 * (Ny/2) * Nx]: on a buffer with fewer elements the call runs
    into an access outside the buffer, and on any larger one it is
    defined. *)
Theorem fftShift_bounds {T_COMPLEX : Type} `{Inhabited T_COMPLEX}
    (data : list T_COMPLEX) (Nx Ny : Z) :
  0 < Nx -> 0 <= Ny -> Nx * Ny < 2 ^ 32 ->
  (Z.of_nat (length data) < 2 * (Ny / 2) * Nx ->
   FftShift.fftShift data Nx Ny = Undefined)
  /\ (2 * (Ny / 2) * Nx <= Z.of_nat (length data) ->
      exists d, FftShift.fftShift data Nx Ny = Ok d /\ length d = length data).
Proof.
  intros HNx HNy Hov. split.
  - intros Hshort. pose proof (fftShift_inside Nx Ny data HNx HNy Hov) as Hin.
    destruct (FftShift.fftShift data Nx Ny) as [d| |]; [exfalso | contradiction | reflexivity].
    destruct Hin as [_ Hprev].
    pose proof (half_bounds Nx Ny HNx HNy) as Hb.
    destruct (tau'_range Nx Ny HNx HNy (2 * (Ny / 2) * Nx - 1) ltac:(nia)) as [Hr Hfw].
    specialize (Hprev _ Hr). rewrite Hfw in Hprev. lia.
  - intros Hlen.
    destruct (fftShift_source data Nx Ny ltac:(lia) HNy Hov Hlen) as (d & Hd & Hdl & _).
    exists d. split; assumption.
Qed.

Lemma fftShift_bounds_witness :
  FftShift.fftShift [1; 2; 3; 4; 5] 3 2 = Undefined
  /\ exists d, FftShift.fftShift [1; 2; 3; 4; 5; 6] 3 2 = Ok d /\ length d = 6%nat.
Proof.
  destruct (fftShift_bounds [1; 2; 3; 4; 5] 3 2) as [H1 _]; [lia | lia | reflexivity|].
  destruct (fftShift_bounds [1; 2; 3; 4; 5; 6] 3 2) as [_ H2]; [lia | lia | reflexivity|].
  split; [apply H1; change (5 < 6); lia | apply H2; change (6 <= 6); lia].
Defined.

(** ** [checkIfReal] *)


Section FormatSign.
Variables prec emax : Z.
Hypothesis Hprec : 1 < prec.
Hypothesis Hemax : prec < emax.

(** Rounding a mantissa at an exponent of the format never gives zero. *)
Lemma binary_round_nonzero (sx : bool) (m : positive) (e : Z) :
  emin prec emax <= e ->
  (exists p e2, binary_round prec emax sx m e = S754_finite sx p e2)
  \/ binary_round prec emax sx m e = S754_infinity sx.
Proof.
  intros He.
  destruct (binary_round_aligned prec emax Hprec Hemax sx m e)
    as (m' & e' & -> & He' & He'eq & Hm').
  rewrite (binary_round_aux_rnd prec emax Hprec Hemax) by exact He'.
  pose proof (fexp_ge_emin prec emax Hprec Hemax (Zpos (digits2_pos m') + e')) as He1.
  destruct (rnd_cases prec emax Hprec Hemax m' e' He') as [Hz | [Hc | (p & -> & Hcan)]].
  - exfalso.
    pose proof (fexp_ge_emin prec emax Hprec Hemax (Zpos (digits2_pos m) + e)) as Hg.
    assert (He'min : emin prec emax <= e') by lia.
    set (n := fexp prec emax (Zpos (digits2_pos m') + e') - e') in *.
    assert (Hn : n <= Zpos (digits2_pos m') - 1).
    { unfold n, fexp. lia. }
    destruct (Z.leb_spec n 0) as [Hn0 | Hn0].
    + unfold Rounding.rnd in Hz. destruct (Z.leb_spec n 0); lia.
    + destruct (rnd_bounds prec emax Hprec Hemax (Zpos m') n ltac:(lia) Hn0) as [[Hlo _] _].
      pose proof (digits2_pos_bounds m') as [Hd _].
      assert (2 ^ n <= 2 ^ (Zpos (digits2_pos m') - 1)) by (apply Z.pow_le_mono_r; lia).
      assert (1 <= Zpos m' / 2 ^ n).
      { apply Z.div_le_lower_bound; [apply pow2_pos; lia | lia]. }
      lia.
  - destruct (pow2_prec_pos prec emax Hprec Hemax) as (p & p' & Hp & Hp').
    rewrite Hc, <- Hp.
    rewrite (pack_carry prec emax Hprec Hemax sx _ p p') by assumption.
    destruct (_ <=? _); [left; eauto | right; reflexivity].
  - rewrite (pack_canonical prec emax Hprec Hemax) by exact Hcan.
    destruct (_ <=? _); [left; eauto | right; reflexivity].
Qed.

End FormatSign.

Lemma F32_of_Z_positive (n : Z) :
  0 < n ->
  (exists m e, F32.of_Z n = S754_finite false m e) \/ F32.of_Z n = S754_infinity false.
Proof.
  intros Hn. destruct n as [|p|p]; try lia.
  apply (binary_round_nonzero 24 128 eq_refl eq_refl false p 0). unfold emin. lia.
Qed.

Lemma F32_div_zero_count (n : Z) : 0 < n -> F32.div F32.zero (F32.of_Z n) = F32.zero.
Proof.
  intros Hn. destruct (F32_of_Z_positive n Hn) as [(m & e & ->) | ->]; reflexivity.
Qed.

Lemma accumulate_nan_r (avg : float) : CheckIfReal.accumulate avg S754_nan = S754_nan.
Proof. unfold CheckIfReal.accumulate. destruct (F64.of_float avg); reflexivity. Qed.

Lemma accumulate_nan_l (x : float) : CheckIfReal.accumulate S754_nan x = S754_nan.
Proof. reflexivity. Qed.

Lemma accumulate_zero (s : bool) : CheckIfReal.accumulate F32.zero (S754_zero s) = F32.zero.
Proof. destruct s; reflexivity. Qed.

(** X5: on an empty array ([rnElements = 0]) both averages are 0/0,
    a NaN, and the assertion [avgIm < 1e-5] fails: unless compiled with
    NDEBUG, the check aborts. *)
Theorem checkIfReal_empty (NDEBUG : bool) (rData : list complex) :
  CheckIfReal.averages rData 0 = Ok (S754_nan, S754_nan)
  /\ CheckIfReal.checkIfReal NDEBUG rData 0
     = if NDEBUG then Ok (S754_nan, S754_nan) else AssertionFailed.
Proof.
  assert (Ha : CheckIfReal.averages rData 0 = Ok (S754_nan, S754_nan)).
  { unfold CheckIfReal.averages. destruct (Z.ltb_spec (Z.of_nat (length rData)) 0); [lia|].
    reflexivity. }
  split; [exact Ha|]. unfold CheckIfReal.checkIfReal. rewrite Ha.
  destruct NDEBUG; reflexivity.
Qed.

(** X6: a NaN among the imaginary parts makes the average a NaN, and
    the assertion fails. *)
Theorem checkIfReal_nan (rData : list complex) (rnElements : Z) (i : nat) :
  rnElements <= Z.of_nat (length rData) -> Z.of_nat i < rnElements ->
  Im (rData !!! i) = S754_nan ->
  (exists avgRe, CheckIfReal.averages rData rnElements = Ok (avgRe, S754_nan))
  /\ CheckIfReal.checkIfReal false rData rnElements = AssertionFailed.
Proof.
  intros Hlen Hi Hnan.
  assert (Ha : exists avgRe, CheckIfReal.averages rData rnElements = Ok (avgRe, S754_nan)).
  { unfold CheckIfReal.averages.
    destruct (Z.ltb_spec (Z.of_nat (length rData)) rnElements); [lia|].
    assert (Hsum : (i < Z.to_nat rnElements)%nat ->
                   (for_range (Z.to_nat rnElements)
                      (fun i '(avgRe, avgIm) =>
                         (CheckIfReal.accumulate avgRe (Re (rData !!! i)),
                          CheckIfReal.accumulate avgIm (Im (rData !!! i))))
                      (F32.zero, F32.zero)).2 = S754_nan).
    { apply (for_range_ind (fun k s => (i < k)%nat -> s.2 = S754_nan)); [lia|].
      intros k [sr si] _ IH Hk. cbn [snd] in *.
      destruct (decide (k = i)) as [-> | Hne].
      - rewrite Hnan. apply accumulate_nan_r.
      - rewrite IH by lia. reflexivity. }
    specialize (Hsum ltac:(lia)).
    destruct (for_range _ _ _) as [sr si]. cbn [snd] in Hsum. subst si.
    eexists. reflexivity. }
  split; [exact Ha|]. destruct Ha as [avgRe Ha].
  unfold CheckIfReal.checkIfReal. rewrite Ha. reflexivity.
Qed.

Lemma checkIfReal_nan_witness :
  (exists avgRe, CheckIfReal.averages [(F32.one, F32.zero); (F32.one, S754_nan)] 2
                 = Ok (avgRe, S754_nan))
  /\ CheckIfReal.checkIfReal false [(F32.one, F32.zero); (F32.one, S754_nan)] 2
     = AssertionFailed.
Proof.
  apply (checkIfReal_nan [(F32.one, F32.zero); (F32.one, S754_nan)] 2 1);
    [simpl; lia | lia | reflexivity].
Defined.

(** X7: on a non-empty array whose imaginary parts are all zero (of
    either sign) the printed average of the imaginary parts is +0 and
    the assertion passes. *)
Theorem checkIfReal_real (NDEBUG : bool) (rData : list complex) (rnElements : Z) :
  0 < rnElements <= Z.of_nat (length rData) ->
  (forall i : nat, Z.of_nat i < rnElements -> exists s, Im (rData !!! i) = S754_zero s) ->
  exists avgRe, CheckIfReal.checkIfReal NDEBUG rData rnElements = Ok (avgRe, F32.zero).
Proof.
  intros Hn Hreal. unfold CheckIfReal.checkIfReal, CheckIfReal.averages.
  destruct (Z.ltb_spec (Z.of_nat (length rData)) rnElements); [lia|].
  assert (Hsum : (for_range (Z.to_nat rnElements)
                    (fun i '(avgRe, avgIm) =>
                       (CheckIfReal.accumulate avgRe (Re (rData !!! i)),
                        CheckIfReal.accumulate avgIm (Im (rData !!! i))))
                    (F32.zero, F32.zero)).2 = F32.zero).
  { apply (for_range_invariant (fun s : float * float => s.2 = F32.zero)); [|reflexivity].
    intros k [sr si] Hk IH. cbn [snd] in *. subst si.
    destruct (Hreal k ltac:(lia)) as [s ->]. apply accumulate_zero. }
  destruct (for_range _ _ _) as [sr si]. cbn [snd] in Hsum. subst si.
  rewrite F32_div_zero_count by lia. cbn [result_bind snd].
  change (Ieee.ltb (F64.of_float F32.zero) (F64.literal 1 5)) with true.
  unfold c_assert. rewrite orb_true_r. cbn [result_bind]. eexists. reflexivity.
Qed.

Lemma checkIfReal_real_witness :
  exists avgRe,
    CheckIfReal.checkIfReal false [(F32.one, F32.zero); (F32.of_Z (-3), S754_zero true)] 2
    = Ok (avgRe, F32.zero).
Proof.
  apply (checkIfReal_real false [(F32.one, F32.zero); (F32.of_Z (-3), S754_zero true)] 2).
  - simpl. lia.
  - intros [|[|i]] Hi; [exists false; reflexivity | exists true; reflexivity | lia].
Defined.

(** ** The outer loop of the drivers *)


Section OuterLoop.

Variable NDEBUG : bool.
Variables fftToRealSpace fftToFreqSpace : list Z -> list complex -> list complex.
Variable complexNormElementwise : list complex -> nat -> list float.
Variable gaussianBlur : list float -> Z -> Z -> float -> list float.
Variable vectorMax : list float -> nat -> float.
Variable applyComplexModulus : list complex -> list float -> nat -> list complex.
Variable calculateHioError : list complex -> list float -> nat -> float.

Local Abbreviation shrinkWrap :=
  (ShrinkWrap.shrinkWrap NDEBUG fftToRealSpace fftToFreqSpace complexNormElementwise
     gaussianBlur vectorMax applyComplexModulus calculateHioError).
Local Abbreviation cudaShrinkWrap :=
  (ShrinkWrap.cudaShrinkWrap NDEBUG fftToRealSpace fftToFreqSpace complexNormElementwise
     gaussianBlur vectorMax applyComplexModulus calculateHioError).
Local Abbreviation shrinkWrapCycles :=
  (ShrinkWrap.shrinkWrapCycles fftToRealSpace fftToFreqSpace complexNormElementwise
     gaussianBlur vectorMax applyComplexModulus calculateHioError).
Local Abbreviation hioLoop :=
  (ShrinkWrap.hioLoop fftToRealSpace fftToFreqSpace applyComplexModulus).

Local Abbreviation exits := (loop_exits calculateHioError).

Lemma run_from_nil test i budget : run_from test i [] budget -> budget = 0%nat.
Proof.
  intros (_ & _ & _ & Hlast). destruct budget as [|budget]; [reflexivity|].
  destruct (Hlast ltac:(simpl; lia)) as (r & Hr & _). discriminate Hr.
Qed.

Lemma run_from_single test i r budget :
  ShrinkWrap.cr_index r = i -> test r = true -> run_from test i [r] (S budget).
Proof.
  intros Hi Ht. repeat split.
  - simpl. lia.
  - intros [|k] r' [= <-]. rewrite Hi. lia.
  - intros [|k] r' Hr Hk; simpl in Hk; lia.
  - intros _. exists r. split; [reflexivity | exact Ht].
Qed.

Lemma run_from_cons test i r rs budget :
  ShrinkWrap.cr_index r = i -> test r = false ->
  run_from test (i + 1) rs budget -> run_from test i (r :: rs) (S budget).
Proof.
  intros Hi Ht (Hlen & Hidx & Hmid & Hlast). repeat split.
  - simpl. lia.
  - intros [|k] r' Hr.
    + injection Hr as <-. rewrite Hi. lia.
    + rewrite (Hidx k r' Hr). lia.
  - intros [|k] r' Hr Hk.
    + injection Hr as <-. exact Ht.
    + apply (Hmid k r' Hr). simpl in Hk. lia.
  - intros Hlt. simpl in Hlt.
    destruct rs as [|r1 rs1].
    + pose proof (run_from_nil test (i + 1) budget
                    (conj Hlen (conj Hidx (conj Hmid Hlast)))) as ->. lia.
    + destruct (Hlast ltac:(lia)) as (r' & Hr' & Ht'). exists r'. split; [|exact Ht'].
      rewrite last_cons, Hr'. reflexivity.
Qed.

Lemma shrinkWrapCycles_run (Nx Ny : Z) (n : nat) (intensity : list float)
    (p : ShrinkWrap.parameters) (remaining : nat) :
  forall iCycle b out hist,
  exists rs,
    (shrinkWrapCycles remaining iCycle Nx Ny n intensity p b out hist).2 = hist ++ rs
    /\ run_from (exits n p) iCycle rs remaining.
Proof.
  induction remaining as [|remaining IH]; intros iCycle b out hist.
  - exists []. simpl. rewrite app_nil_r. split; [reflexivity|].
    repeat split; simpl; try lia; intros; discriminate.
  - simpl.
    set (entry := ShrinkWrap.shrinkWrapUpdateMask _ _ _ Nx Ny n p b).
    set (b' := hioLoop [Nx; Ny] n intensity _ _ entry).
    set (r := ShrinkWrap.CycleRecord iCycle b entry b').
    destruct (_ && _) eqn:Econv.
    { exists [r]. split; [reflexivity|]. apply run_from_single; [reflexivity|].
      unfold loop_exits, converged. cbn [ShrinkWrap.cr_end r]. rewrite Econv. reflexivity. }
    destruct (_ <=? _) eqn:Ecnt.
    { exists [r]. split; [reflexivity|]. apply run_from_single; [reflexivity|].
      unfold loop_exits. cbn [ShrinkWrap.cr_index r]. rewrite Ecnt. apply orb_true_r. }
    match goal with
    | |- context [shrinkWrapCycles remaining ?i Nx Ny n intensity p b' ?o ?h] =>
        destruct (IH i b' o h) as (rs & Hrs & Hrun)
    end.
    exists (r :: rs). split.
    + rewrite Hrs, <- app_assoc. reflexivity.
    + apply run_from_cons; [reflexivity | | exact Hrun].
      unfold loop_exits, converged. cbn [ShrinkWrap.cr_end ShrinkWrap.cr_index r].
      rewrite Econv, Ecnt. reflexivity.
Qed.

(** Within the budget [rnCycles] the second exit of the loop body,
    [if ( iCycleShrinkWrap >= rnCycles ) break;], is never taken. *)
Lemma run_from_stopped_by (n : nat) (p : ShrinkWrap.parameters)
    (rs : list ShrinkWrap.cycle_record) :
  run_from (exits n p) 0 rs (Z.to_nat (ShrinkWrap.rnCycles p)) ->
  stopped_by (converged calculateHioError n p) rs (Z.to_nat (ShrinkWrap.rnCycles p)).
Proof.
  intros (Hlen & Hidx & Hmid & Hlast).
  assert (Hdead : forall k r, rs !! k = Some r ->
                    exits n p r = converged calculateHioError n p r).
  { intros k r Hr. unfold loop_exits. rewrite (Hidx k r Hr).
    apply lookup_lt_Some in Hr.
    destruct (Z.leb_spec (ShrinkWrap.rnCycles p) (0 + Z.of_nat k)); [lia|].
    apply orb_false_r. }
  repeat split.
  - exact Hlen.
  - intros k r Hr. rewrite (Hidx k r Hr). lia.
  - intros k r Hr Hk. rewrite <- (Hdead k r Hr). exact (Hmid k r Hr Hk).
  - intros Hlt. destruct (Hlast Hlt) as (r & Hr & Ht). exists r. split; [exact Hr|].
    rewrite last_lookup in Hr. rewrite <- (Hdead _ r Hr). exact Ht.
Qed.


Lemma shrinkWrap_run (intensity : list float) (Nx Ny : Z) (p : ShrinkWrap.parameters) :
  0 < Nx -> 0 < Ny -> Nx * Ny < 2 ^ 32 -> (pixels Nx Ny <= length intensity)%nat ->
  let p' := ShrinkWrap.shrinkWrapDefaults p in
  stopped_by (converged calculateHioError (pixels Nx Ny) p')
    (history_of (shrinkWrap (Some intensity) [Nx; Ny] p))
    (Z.to_nat (ShrinkWrap.rnCycles p')).
Proof.
  intros HNx HNy Hsmall Hlen p'.
  destruct (shrinkWrap_returns NDEBUG fftToRealSpace fftToFreqSpace complexNormElementwise
              gaussianBlur vectorMax applyComplexModulus calculateHioError
              intensity Nx Ny p HNx HNy Hsmall Hlen)
    as (b0 & out0 & b & out & hist & _ & Hcycles & ->).
  fold p' in Hcycles.
  destruct (shrinkWrapCycles_run Nx Ny (pixels Nx Ny) intensity p'
              (Z.to_nat (ShrinkWrap.rnCycles p')) 0 b0 out0 [])
    as (rs & Hrs & Hrun).
  rewrite Hcycles in Hrs.
  cbn [snd] in Hrs. cbn [history_of ShrinkWrap.history]. rewrite Hrs. cbn [app].
  apply run_from_stopped_by. exact Hrun.
Qed.



End OuterLoop.

(** ** The buffers of the drivers *)

Lemma for_each_length_any {A : Type} `{Inhabited A} (n : nat) (f : nat -> A -> A)
    (l : list A) :
  length (for_each n f l) = length l.
Proof.
  unfold for_each. apply (for_range_invariant (fun d => length d = length l)); [|reflexivity].
  intros i d _ Hd. rewrite length_insert. exact Hd.
Qed.

Lemma for_each_take_drop {A : Type} `{Inhabited A} (n : nat) (f : nat -> A -> A)
    (l : list A) :
  (n <= length l)%nat -> for_each n f l = imap f (take n l) ++ drop n l.
Proof. intros Hn. unfold for_each. apply for_each_prefix. exact Hn. Qed.

Lemma for_each_tail {A : Type} `{Inhabited A} (n : nat) (f : nat -> A -> A) (l : list A) :
  (n <= length l)%nat -> drop n (for_each n f l) = drop n l.
Proof.
  intros Hn. unfold for_each. rewrite for_each_prefix by exact Hn.
  rewrite drop_app_length'; [reflexivity|].
  rewrite length_imap, length_take. lia.
Qed.

(** *** Real and complex buffers *)

Lemma copyToRealPart_lookup (source : list float) (n : nat) (target : list complex) (i : nat) :
  length target = n -> (i < n)%nat ->
  Elementwise.copyToRealPart source n target !! i = Some (source !!! i, F32.zero).
Proof.
  intros Hlen Hi. unfold Elementwise.copyToRealPart.
  rewrite for_each_lookup by exact Hlen.
  destruct (lookup_lt_is_Some_2 target i ltac:(lia)) as [x Hx].
  unfold complex in *. rewrite Hx. reflexivity.
Qed.

(** The second copy loop undoes the first on the first [nElements]
    entries and leaves the rest of its target alone. *)
Lemma copyFromRealPart_copyToRealPart (source : list float) (nElements : nat)
    (target : list complex) (out : list float) :
  length target = nElements -> (nElements <= length source)%nat ->
  (nElements <= length out)%nat ->
  Elementwise.copyFromRealPart
    (Elementwise.copyToRealPart source nElements target) nElements out
  = take nElements source ++ drop nElements out.
Proof.
  intros Hlen Hn Hout. unfold Elementwise.copyFromRealPart at 1.
  rewrite for_each_take_drop by exact Hout. f_equal.
  apply list_eq. intros i. rewrite list_lookup_imap.
  destruct (decide (i < nElements)%nat) as [Hi | Hi].
  - rewrite !lookup_take_lt by exact Hi.
    destruct (lookup_lt_is_Some_2 out i ltac:(lia)) as [y Hy]. rewrite Hy.
    destruct (lookup_lt_is_Some_2 source i ltac:(lia)) as [x Hx]. rewrite Hx.
    cbn [fmap option_fmap option_map]. f_equal.
    rewrite (list_lookup_total_correct _ _ _
               (copyToRealPart_lookup source nElements target i Hlen Hi)).
    unfold Re. cbn [fst]. apply list_lookup_total_correct. exact Hx.
  - rewrite !lookup_take_ge by lia. reflexivity.
Qed.

(** X11: storing a real array into the real parts of a complex buffer
    and reading the real parts back returns the array: the two copy
    loops of the driver are inverse to each other on the first
    [nElements] entries, and nothing else is touched. *)
Theorem copy_real_part_round_trip (source : list float) (nElements : nat)
    (target : list complex) :
  length target = nElements -> (nElements <= length source)%nat ->
  Elementwise.copyFromRealPart
    (Elementwise.copyToRealPart source nElements target) nElements source
  = source.
Proof.
  intros Hlen Hn.
  rewrite copyFromRealPart_copyToRealPart by (assumption || lia).
  apply take_drop.
Qed.

Lemma copy_real_part_round_trip_witness :
  Elementwise.copyFromRealPart
    (Elementwise.copyToRealPart [F32.one; F32.of_Z 2; F32.of_Z 3] 2
       [(F32.of_Z 7, F32.of_Z 8); (F32.of_Z 9, F32.one)])
    2 [F32.one; F32.of_Z 2; F32.of_Z 3]
  = [F32.one; F32.of_Z 2; F32.of_Z 3].
Proof.
  apply (copy_real_part_round_trip [F32.one; F32.of_Z 2; F32.of_Z 3] 2
           [(F32.of_Z 7, F32.of_Z 8); (F32.of_Z 9, F32.one)]); [reflexivity | simpl; lia].
Defined.

Section DriverBuffers.

Variable NDEBUG : bool.
Variables fftToRealSpace fftToFreqSpace : list Z -> list complex -> list complex.
Variable complexNormElementwise : list complex -> nat -> list float.
Variable gaussianBlur : list float -> Z -> Z -> float -> list float.
Variable vectorMax : list float -> nat -> float.
Variable applyComplexModulus : list complex -> list float -> nat -> list complex.
Variable calculateHioError : list complex -> list float -> nat -> float.

Local Abbreviation shrinkWrap :=
  (ShrinkWrap.shrinkWrap NDEBUG fftToRealSpace fftToFreqSpace complexNormElementwise
     gaussianBlur vectorMax applyComplexModulus calculateHioError).
Local Abbreviation cudaShrinkWrap :=
  (ShrinkWrap.cudaShrinkWrap NDEBUG fftToRealSpace fftToFreqSpace complexNormElementwise
     gaussianBlur vectorMax applyComplexModulus calculateHioError).
Local Abbreviation hioLoop :=
  (ShrinkWrap.hioLoop fftToRealSpace fftToFreqSpace applyComplexModulus).

Lemma hioLoop_keeps shape n intensity beta nHio (b : ShrinkWrap.buffers) :
  let b' := hioLoop shape n intensity beta nHio b in
  ShrinkWrap.isMasked b' = ShrinkWrap.isMasked b
  /\ ShrinkWrap.sigma b' = ShrinkWrap.sigma b
  /\ length (ShrinkWrap.gPrevious b') = length (ShrinkWrap.gPrevious b).
Proof.
  unfold ShrinkWrap.hioLoop.
  apply (for_range_invariant
           (fun b' => ShrinkWrap.isMasked b' = ShrinkWrap.isMasked b
                      /\ ShrinkWrap.sigma b' = ShrinkWrap.sigma b
                      /\ length (ShrinkWrap.gPrevious b') = length (ShrinkWrap.gPrevious b)));
    [|auto].
  intros i s _ (Hm & Hs & Hg). unfold ShrinkWrap.hioStep.
  cbn [ShrinkWrap.isMasked ShrinkWrap.sigma ShrinkWrap.gPrevious].
  split; [exact Hm|]. split; [exact Hs|].
  unfold Elementwise.applyHioDomainConstraints. rewrite for_each_length_any. exact Hg.
Qed.

(** X12: the inner HIO loop never touches the mask or sigma, and keeps
    the size of [gPrevious]: in every executed cycle of either driver the
    error is evaluated on the mask computed at the top of that cycle. *)
Theorem inner_loop_keeps_mask (rIoData : option (list float)) (Nx Ny : Z)
    (p : ShrinkWrap.parameters) (rs : list ShrinkWrap.cycle_record) :
  rs = history_of (shrinkWrap rIoData [Nx; Ny] p)
  \/ rs = history_of (cudaShrinkWrap rIoData Nx Ny p) ->
  Forall (fun r =>
            ShrinkWrap.isMasked (ShrinkWrap.cr_end r)
            = ShrinkWrap.isMasked (ShrinkWrap.cr_hio_entry r)
            /\ ShrinkWrap.sigma (ShrinkWrap.cr_end r)
               = ShrinkWrap.sigma (ShrinkWrap.cr_hio_entry r)
            /\ length (ShrinkWrap.gPrevious (ShrinkWrap.cr_end r))
               = length (ShrinkWrap.gPrevious (ShrinkWrap.cr_hio_entry r))) rs.
Proof.
  intros [-> | ->].
  - destruct (shrinkWrap_history NDEBUG fftToRealSpace fftToFreqSpace
                complexNormElementwise gaussianBlur vectorMax applyComplexModulus
                calculateHioError rIoData Nx Ny p)
      as [-> | (intensity & rs & b' & b0 & out0 & _ & _ & -> & Hch)]; [constructor|].
    eapply Forall_impl; [exact (cycles_from_Forall _ _ _ _ _ _ Hch)|].
    intros r [_ ->]. apply hioLoop_keeps.
  - destruct (cudaShrinkWrap_history NDEBUG fftToRealSpace fftToFreqSpace
                complexNormElementwise gaussianBlur vectorMax applyComplexModulus
                calculateHioError rIoData Nx Ny p)
      as [-> | (intensity & rs & b' & -> & Hch)]; [constructor|].
    eapply Forall_impl; [exact (cycles_from_Forall _ _ _ _ _ _ Hch)|].
    intros r [_ ->]. apply hioLoop_keeps.
Qed.




(** X15: the parameters in effect after the defaulting are a fixed
    point of it: calling either driver with them gives the same run;
    and none of the real parameters in effect compares [<= 0], nor is a
    count of the accelerator driver 0. *)
Theorem effective_parameters (rIoData : option (list float)) (rSize : list Z)
    (W H : Z) (p : ShrinkWrap.parameters) :
  let q := ShrinkWrap.cudaShrinkWrapDefaults p in
  shrinkWrap rIoData rSize (ShrinkWrap.shrinkWrapDefaults p) = shrinkWrap rIoData rSize p
  /\ cudaShrinkWrap rIoData W H q = cudaShrinkWrap rIoData W H p
  /\ Forall (fun x => Ieee.leb x F32.zero = false)
       [ShrinkWrap.rTargetError q; ShrinkWrap.rHioBeta q;
        ShrinkWrap.rIntensityCutOffAutoCorel q; ShrinkWrap.rIntensityCutOff q;
        ShrinkWrap.rSigma0 q; ShrinkWrap.rSigmaChange q]
  /\ ShrinkWrap.rnCycles q <> 0 /\ ShrinkWrap.rnHioCycles q <> 0.
Proof.
  intros q.
  assert (Hreal : forall x d, Ieee.leb d F32.zero = false ->
            ShrinkWrap.orDefault (ShrinkWrap.orDefault x d) d = ShrinkWrap.orDefault x d
            /\ Ieee.leb (ShrinkWrap.orDefault x d) F32.zero = false).
  { intros x d Hd. unfold ShrinkWrap.orDefault.
    destruct (Ieee.leb x F32.zero) eqn:E; rewrite ?Hd, ?E; auto. }
  assert (Hcount : forall n,
            ShrinkWrap.orDefaultCount (ShrinkWrap.orDefaultCount n 20) 20
            = ShrinkWrap.orDefaultCount n 20
            /\ ShrinkWrap.orDefaultCount n 20 <> 0).
  { intros n. unfold ShrinkWrap.orDefaultCount.
    destruct (Z.eqb_spec n 0) as [-> | Hn]; [split; [reflexivity | discriminate]|].
    destruct (Z.eqb_spec n 0); [contradiction|]. split; [reflexivity | exact Hn]. }
  pose proof (Hreal (ShrinkWrap.rTargetError p) ShrinkWrap.default_rTargetError eq_refl)
    as [E1 P1].
  pose proof (Hreal (ShrinkWrap.rHioBeta p) ShrinkWrap.default_rHioBeta eq_refl) as [E2 P2].
  pose proof (Hreal (ShrinkWrap.rIntensityCutOffAutoCorel p)
                ShrinkWrap.default_rIntensityCutOffAutoCorel eq_refl) as [E3 P3].
  pose proof (Hreal (ShrinkWrap.rIntensityCutOff p) ShrinkWrap.default_rIntensityCutOff
                eq_refl) as [E4 P4].
  pose proof (Hreal (ShrinkWrap.rSigma0 p) ShrinkWrap.default_rSigma0 eq_refl) as [E5 P5].
  pose proof (Hreal (ShrinkWrap.rSigmaChange p) ShrinkWrap.default_rSigmaChange eq_refl)
    as [E6 P6].
  pose proof (Hcount (ShrinkWrap.rnCycles p)) as [E7 P7].
  pose proof (Hcount (ShrinkWrap.rnHioCycles p)) as [E8 P8].
  assert (Hcpu : ShrinkWrap.shrinkWrapDefaults (ShrinkWrap.shrinkWrapDefaults p)
                 = ShrinkWrap.shrinkWrapDefaults p).
  { unfold ShrinkWrap.shrinkWrapDefaults at 1 3.
    cbn [ShrinkWrap.shrinkWrapDefaults ShrinkWrap.rnCycles ShrinkWrap.rTargetError
         ShrinkWrap.rHioBeta ShrinkWrap.rIntensityCutOffAutoCorel
         ShrinkWrap.rIntensityCutOff ShrinkWrap.rSigma0 ShrinkWrap.rSigmaChange
         ShrinkWrap.rnHioCycles].
    rewrite E1, E2, E3, E4, E5, E6, E8. reflexivity. }
  assert (Hcuda : ShrinkWrap.cudaShrinkWrapDefaults q = q).
  { unfold q. unfold ShrinkWrap.cudaShrinkWrapDefaults at 1 3.
    cbn [ShrinkWrap.cudaShrinkWrapDefaults ShrinkWrap.rnCycles ShrinkWrap.rTargetError
         ShrinkWrap.rHioBeta ShrinkWrap.rIntensityCutOffAutoCorel
         ShrinkWrap.rIntensityCutOff ShrinkWrap.rSigma0 ShrinkWrap.rSigmaChange
         ShrinkWrap.rnHioCycles].
    rewrite E1, E2, E3, E4, E5, E6, E7, E8. reflexivity. }
  split; [unfold ShrinkWrap.shrinkWrap; rewrite Hcpu; reflexivity|].
  split; [unfold ShrinkWrap.cudaShrinkWrap; rewrite Hcuda; reflexivity|].
  split; [|split; [exact P7 | exact P8]].
  repeat (apply Forall_cons_2; [assumption|]). apply Forall_nil_2.
Qed.

End DriverBuffers.

(** ** Calls of [calcGaussianKernel] *)

Section Kernel1dCalls.

Variable NDEBUG : bool.
Variable T_Prec : Ieee.format.
Variable exp_fin : float -> float.

Local Abbreviation calcGaussianKernel :=
  (GaussianKernel.calcGaussianKernel NDEBUG T_Prec exp_fin).

(** X16: when the caller's buffer is announced shorter than the kernel
    ([rnWeights < 2n + 1]), the call only reports the length needed and
    writes nothing. *)
Theorem calcGaussianKernel_query (rSigma : float) (buffer : list float)
    (rnWeights : Z) (rMinAbsoluteError : float) (n : Z) :
  Ieee.ltb F64.zero rMinAbsoluteError = true ->
  Ieee.leb F64.zero rSigma = true ->
  Ieee.to_int (GaussianKernel.halfWidth rSigma) = Some n -> 0 <= n < 2 ^ 30 ->
  rnWeights < 2 * n + 1 ->
  calcGaussianKernel rSigma (Some buffer) rnWeights rMinAbsoluteError
  = Ok (2 * n + 1, Some buffer).
Proof.
  intros Heps Hsigma Hn Hrange Hcap.
  destruct (kernel_length n Hrange) as (Htwice & Hw & Hu).
  unfold GaussianKernel.calcGaussianKernel. rewrite Hn, Heps, Hsigma.
  replace (bool_decide (Some buffer <> None)) with true
    by (symmetry; apply bool_decide_eq_true; discriminate).
  replace (c_assert NDEBUG true) with (Ok tt) by (destruct NDEBUG; reflexivity).
  cbn [result_bind]. rewrite Htwice. cbn [result_bind]. rewrite Hw. cbn [result_bind].
  replace (0 <? 2 * n + 1) with true by (symmetry; apply Z.ltb_lt; lia).
  replace (c_assert NDEBUG true) with (Ok tt) by (destruct NDEBUG; reflexivity).
  cbn [result_bind]. rewrite Hu.
  destruct (Z.ltb_spec rnWeights (2 * n + 1)); [reflexivity|lia].
Qed.

(** X17: for a half width [n] of at most 46340 (beyond it the [int]
    product [i*i] overflows) a call with a buffer of at least [2n + 1]
    elements returns [2n + 1]; element [j] of the first [2n + 1] is the
    weight of distance [j - n] divided by the sum of all weights, and
    the elements behind them keep their values. *)
Theorem calcGaussianKernel_fills (rSigma : float) (buffer : list float)
    (rnWeights : Z) (rMinAbsoluteError : float) (n : Z) :
  Ieee.ltb F64.zero rMinAbsoluteError = true ->
  Ieee.leb F64.zero rSigma = true ->
  Ieee.to_int (GaussianKernel.halfWidth rSigma) = Some n -> 0 <= n <= 46340 ->
  2 * n + 1 <= rnWeights ->
  2 * n + 1 <= Z.of_nat (length buffer) ->
  exists ws,
    calcGaussianKernel rSigma (Some buffer) rnWeights rMinAbsoluteError
    = Ok (2 * n + 1, Some ws)
    /\ length ws = length buffer
    /\ (forall j : nat, Z.of_nat j < 2 * n + 1 ->
          ws !! j
          = Some (Ieee.convert T_Prec
                    (F64.div
                       (F64.of_float
                          (GaussianKernel.weightOf T_Prec exp_fin
                             (GaussianKernel.coeff_a rSigma) (GaussianKernel.coeff_b rSigma)
                             ((Z.of_nat j - n) * (Z.of_nat j - n))))
                       (kernelSum T_Prec exp_fin rSigma n))))
    /\ (forall j : nat, 2 * n + 1 <= Z.of_nat j -> ws !! j = buffer !! j).
Proof.
  intros Heps Hsigma Hn Hrange Hcap Hlen.
  exact (calcGaussianKernel_weights NDEBUG T_Prec exp_fin rSigma buffer rnWeights
           rMinAbsoluteError n Heps Hsigma Hn Hrange Hcap Hlen).
Qed.

(** X18: for a half width [n] of at most 46340 the kernel written is
    symmetric about its centre, bit for bit: the elements [n + i] and
    [n - i] are equal. *)
Theorem calcGaussianKernel_mirror (rSigma : float) (buffer : list float)
    (rnWeights : Z) (rMinAbsoluteError : float) (n : Z) (i : Z) :
  Ieee.ltb F64.zero rMinAbsoluteError = true ->
  Ieee.leb F64.zero rSigma = true ->
  Ieee.to_int (GaussianKernel.halfWidth rSigma) = Some n -> 0 <= n <= 46340 ->
  2 * n + 1 <= rnWeights ->
  2 * n + 1 <= Z.of_nat (length buffer) ->
  0 <= i <= n ->
  exists ws w,
    calcGaussianKernel rSigma (Some buffer) rnWeights rMinAbsoluteError
    = Ok (2 * n + 1, Some ws)
    /\ ws !! Z.to_nat (n + i) = Some w /\ ws !! Z.to_nat (n - i) = Some w.
Proof.
  intros Heps Hsigma Hn Hrange Hcap Hlen Hi.
  destruct (calcGaussianKernel_weights NDEBUG T_Prec exp_fin rSigma buffer rnWeights
              rMinAbsoluteError n Heps Hsigma Hn Hrange Hcap Hlen)
    as (ws & Hcall & _ & Hws & _).
  exists ws. eexists. split; [exact Hcall|].
  rewrite !Hws by lia.
  replace (Z.of_nat (Z.to_nat (n + i)) - n) with i by lia.
  replace (Z.of_nat (Z.to_nat (n - i)) - n) with (- i) by lia.
  rewrite calcGaussianKernel_symmetric. split; reflexivity.
Qed.

(** From the half width 46341 on, the first pass of the first loop
    already leaves the range of [int]. *)
Lemma fillWeights_overflow (a b : float) (n : Z) (buffer : list float) (k : nat) :
  46341 <= n ->
  for_range (S k) (GaussianKernel.fillWeight T_Prec exp_fin a b n) (Ok (buffer, F64.zero))
  = Undefined.
Proof.
  intros Hn. induction k as [|k IH].
  - rewrite for_range_S. unfold for_range. cbn [foldl seq].
    unfold GaussianKernel.fillWeight. cbn [result_bind].
    rewrite weight_overflow; [reflexivity|].
    unfold GaussianKernel.loopVar. lia.
  - rewrite for_range_S, IH. reflexivity.
Qed.

(** X27: from the half width 46341 on (sigma of about 16067 and more)
    a call that fills the buffer is undefined, however long the buffer
    is: the first weight needs the [int] product [i*i] for
    [i = -nNeighbors], which overflows. *)
Theorem calcGaussianKernel_overflow (rSigma : float) (buffer : list float)
    (rnWeights : Z) (rMinAbsoluteError : float) (n : Z) :
  Ieee.ltb F64.zero rMinAbsoluteError = true ->
  Ieee.leb F64.zero rSigma = true ->
  Ieee.to_int (GaussianKernel.halfWidth rSigma) = Some n -> 46341 <= n < 2 ^ 30 ->
  2 * n + 1 <= rnWeights ->
  2 * n + 1 <= Z.of_nat (length buffer) ->
  calcGaussianKernel rSigma (Some buffer) rnWeights rMinAbsoluteError = Undefined.
Proof.
  intros Heps Hsigma Hn Hrange Hcap Hlen.
  destruct (kernel_length n ltac:(lia)) as (Htwice & Hw & Hu).
  unfold GaussianKernel.calcGaussianKernel. rewrite Hn, Heps, Hsigma.
  replace (bool_decide (Some buffer <> None)) with true
    by (symmetry; apply bool_decide_eq_true; discriminate).
  replace (c_assert NDEBUG true) with (Ok tt) by (destruct NDEBUG; reflexivity).
  cbn [result_bind]. rewrite Htwice. cbn [result_bind]. rewrite Hw. cbn [result_bind].
  replace (0 <? 2 * n + 1) with true by (symmetry; apply Z.ltb_lt; lia).
  replace (c_assert NDEBUG true) with (Ok tt) by (destruct NDEBUG; reflexivity).
  cbn [result_bind]. rewrite Hu.
  destruct (Z.ltb_spec rnWeights (2 * n + 1)); [lia|].
  destruct (Z.ltb_spec (Z.of_nat (length buffer)) (2 * n + 1)); [lia|].
  unfold GaussianKernel.fillWeights, GaussianKernel.nIterations.
  replace (Z.to_nat (2 * n + 1)) with (S (Z.to_nat (2 * n))) by lia.
  rewrite fillWeights_overflow by lia. reflexivity.
Qed.

End Kernel1dCalls.

Lemma calcGaussianKernel_query_witness :
  GaussianKernel.calcGaussianKernel false Ieee.binary32 (fun _ => F64.one)
    F64.one (Some kernel_example_buffer) 0 F64.one
  = Ok (7, Some kernel_example_buffer).
Proof.
  apply (calcGaussianKernel_query false Ieee.binary32 (fun _ => F64.one)
           F64.one kernel_example_buffer 0 F64.one 3);
    [reflexivity | reflexivity | vm_compute; reflexivity | lia | lia].
Defined.

Lemma calcGaussianKernel_fills_witness :
  exists ws,
    GaussianKernel.calcGaussianKernel false Ieee.binary32 (fun _ => F64.one)
      F64.one (Some kernel_example_buffer) 9 F64.one
    = Ok (7, Some ws)
    /\ length ws = length kernel_example_buffer
    /\ (forall j : nat, Z.of_nat j < 7 ->
          ws !! j = Some (kernelWeight Ieee.binary32 (fun _ => F64.one) F64.one 3
                            (Z.of_nat j - 3)))
    /\ (forall j : nat, 7 <= Z.of_nat j -> ws !! j = kernel_example_buffer !! j).
Proof.
  apply (calcGaussianKernel_fills false Ieee.binary32 (fun _ => F64.one)
           F64.one kernel_example_buffer 9 F64.one 3);
    [reflexivity | reflexivity | vm_compute; reflexivity | lia | lia
    | simpl; lia].
Defined.

Lemma calcGaussianKernel_mirror_witness :
  exists ws w,
    GaussianKernel.calcGaussianKernel false Ieee.binary32 (fun _ => F64.one)
      F64.one (Some kernel_example_buffer) 9 F64.one
    = Ok (7, Some ws)
    /\ ws !! Z.to_nat (3 + 2) = Some w /\ ws !! Z.to_nat (3 - 2) = Some w.
Proof.
  apply (calcGaussianKernel_mirror false Ieee.binary32 (fun _ => F64.one)
           F64.one kernel_example_buffer 9 F64.one 3 2);
    [reflexivity | reflexivity | vm_compute; reflexivity | lia | lia
    | simpl; lia | lia].
Defined.

Lemma calcGaussianKernel_overflow_witness :
  GaussianKernel.calcGaussianKernel false Ieee.binary32 (fun _ => F64.one)
    (F64.of_Z 16067) (Some (replicate (Z.to_nat 92689) F32.zero)) 92689 F64.one
  = Undefined.
Proof.
  apply (calcGaussianKernel_overflow false Ieee.binary32 (fun _ => F64.one)
           (F64.of_Z 16067) (replicate (Z.to_nat 92689) F32.zero) 92689 F64.one 46344);
    [reflexivity | reflexivity | vm_compute; reflexivity
    | change (2 ^ 30) with 1073741824; lia | lia
    | rewrite length_replicate; lia].
Defined.

(** ** [calcGaussianKernel2d] on a buffer with a spare element *)

Section Kernel2dSpare.

Variable NDEBUG : bool.
Variable weight2d : float -> Z -> Z -> Z -> Z -> Z -> Z -> float.
Variable T_Prec : Ieee.format.
Variable rSigma : float.
Variables rCenterX rCenterY : Z.
Variable rWeights : list float.
Variables rnWeightsX rnWeightsY : Z.

Hypothesis HX : 0 <= rnWeightsX.
Hypothesis HY : 0 <= rnWeightsY.
Hypothesis Hsmall : rnWeightsX * rnWeightsY < 2 ^ 32 - 1.
Hypothesis Hspare : rnWeightsX * rnWeightsY < Z.of_nat (length rWeights).

Local Abbreviation filled :=
  (filled2d weight2d rSigma rCenterX rCenterY rWeights rnWeightsX rnWeightsY).
Local Abbreviation fillStep :=
  (GaussianKernel.fillStep weight2d rSigma rCenterX rCenterY rnWeightsX rnWeightsY).

Lemma index2d_bound (ix iy : Z) :
  0 <= ix < rnWeightsX -> 0 <= iy < rnWeightsY ->
  0 <= iy * rnWeightsX + ix < rnWeightsX * rnWeightsY.
Proof. intros Hx Hy. nia. Qed.

Lemma index2d_inj (ix iy ix' iy' : Z) :
  0 <= ix < rnWeightsX -> 0 <= ix' < rnWeightsX ->
  iy * rnWeightsX + ix = iy' * rnWeightsX + ix' -> ix = ix' /\ iy = iy'.
Proof.
  intros Hx Hx' Heq.
  assert (iy = iy') by nia. subst iy'. lia.
Qed.

Lemma fillStep_filled (k m : nat) (st : result GaussianKernel.state2d) :
  Z.of_nat k < rnWeightsX -> Z.of_nat m < rnWeightsY ->
  filled k m st -> filled k (S m) (fillStep (Z.of_nat k) (Z.of_nat m) st).
Proof using HX HY Hsmall Hspare.
  intros Hk Hm (s & -> & Hlen & Hsum & Hdone & Hrest).
  pose proof (index2d_bound (Z.of_nat k) (Z.of_nat m) ltac:(lia) ltac:(lia)) as Hidx.
  unfold GaussianKernel.fillStep. cbn [result_bind].
  assert (Hw : wrap_unsigned (Z.of_nat m * rnWeightsX + Z.of_nat k)
               = Z.of_nat m * rnWeightsX + Z.of_nat k).
  { unfold wrap_unsigned. apply Z.mod_small. lia. }
  rewrite Hw. unfold GaussianKernel.store.
  replace (0 <=? Z.of_nat m * rnWeightsX + Z.of_nat k) with true
    by (symmetry; apply Z.leb_le; lia).
  replace (Z.of_nat m * rnWeightsX + Z.of_nat k
           <? Z.of_nat (length (GaussianKernel.weights2d s))) with true
    by (symmetry; apply Z.ltb_lt; lia).
  cbn [andb result_bind].
  eexists. split; [reflexivity|]. cbn [GaussianKernel.weights2d GaussianKernel.sum2d].
  split; [rewrite length_insert; exact Hlen|]. split.
  { unfold columnSum2d in *. rewrite for_range_S, <- Hsum. reflexivity. }
  split.
  - intros ix iy Hx Hy Hcov.
    destruct (decide (ix = Z.of_nat k /\ iy = Z.of_nat m)) as [[-> ->]|Hne].
    + rewrite list_lookup_insert_eq by lia. reflexivity.
    + rewrite list_lookup_insert_ne.
      * apply Hdone; [assumption|assumption|]. lia.
      * intros Heq. apply Hne.
        apply Z2Nat.inj in Heq; [|lia|pose proof (index2d_bound ix iy Hx Hy); lia].
        symmetry in Heq. apply index2d_inj in Heq; [tauto|lia|lia].
  - intros j Hj. rewrite list_lookup_insert_ne by lia. apply Hrest. exact Hj.
Qed.

Lemma fillColumn_filled (k : nat) (st : result GaussianKernel.state2d) :
  Z.of_nat k < rnWeightsX ->
  filled k 0 st ->
  filled (S k) 0
    (for_range (Z.to_nat rnWeightsY) (fun iy st => fillStep (Z.of_nat k) (Z.of_nat iy) st)
       st).
Proof using HX HY Hsmall Hspare.
  intros Hk Hst.
  assert (Hcol : filled k (Z.to_nat rnWeightsY)
                   (for_range (Z.to_nat rnWeightsY)
                      (fun iy st => fillStep (Z.of_nat k) (Z.of_nat iy) st) st)).
  { apply (for_range_ind (fun m st => filled k m st)); [exact Hst|].
    intros m st' Hm Hst'. apply fillStep_filled; [lia|lia|exact Hst']. }
  destruct Hcol as (s & -> & Hlen & Hsum & Hdone & Hrest).
  exists s. split; [reflexivity|]. split; [exact Hlen|]. split.
  { rewrite Hsum. unfold columnsSum2d. rewrite for_range_S. reflexivity. }
  split; [|exact Hrest].
  intros ix iy Hx Hy Hcov. apply Hdone; [assumption|assumption|]. lia.
Qed.

Lemma fill_filled :
  filled (Z.to_nat rnWeightsX) 0
    (for_range (Z.to_nat rnWeightsX)
       (fun ix st =>
          for_range (Z.to_nat rnWeightsY)
            (fun iy st => fillStep (Z.of_nat ix) (Z.of_nat iy) st) st)
       (Ok (GaussianKernel.State2d rWeights F64.zero []))).
Proof using HX HY Hsmall Hspare.
  apply (for_range_ind (fun k st => filled k 0 st)).
  - eexists. split; [reflexivity|].
    cbn [GaussianKernel.weights2d GaussianKernel.sum2d].
    split; [reflexivity|]. split; [reflexivity|]. split; [|reflexivity].
    intros ix iy Hx Hy Hcov. lia.
  - intros k st Hk Hst. apply fillColumn_filled; [lia|exact Hst].
Qed.

Lemma normalizeStep_normalized (s0 : GaussianKernel.state2d) (i : nat)
    (st : result GaussianKernel.state2d) :
  (i < length (GaussianKernel.weights2d s0))%nat ->
  normalized2d T_Prec s0 i st ->
  normalized2d T_Prec s0 (S i) (GaussianKernel.normalizeStep T_Prec (Z.of_nat i) st).
Proof.
  intros Hi (s & -> & Hlen & Hsum & Hdone & Hrest).
  unfold GaussianKernel.normalizeStep, GaussianKernel.load, GaussianKernel.store.
  cbn [result_bind].
  replace (0 <=? Z.of_nat i) with true by (symmetry; apply Z.leb_le; lia).
  replace (Z.of_nat i <? Z.of_nat (length (GaussianKernel.weights2d s))) with true
    by (symmetry; apply Z.ltb_lt; lia).
  cbn [andb result_bind]. rewrite Nat2Z.id.
  eexists. split; [reflexivity|].
  cbn [GaussianKernel.weights2d GaussianKernel.sum2d].
  split; [rewrite length_insert; exact Hlen|]. split; [exact Hsum|]. split.
  - intros j Hj. destruct (decide (j = i)) as [->|Hne].
    + rewrite list_lookup_insert_eq by lia.
      destruct (lookup_lt_is_Some_2 (GaussianKernel.weights2d s) i ltac:(lia))
        as [v Hv].
      rewrite (list_lookup_total_correct _ _ _ Hv).
      rewrite <- (Hrest i (le_n i)), Hv, Hsum. reflexivity.
    + rewrite list_lookup_insert_ne by lia. apply Hdone. lia.
  - intros j Hj. rewrite list_lookup_insert_ne by lia. apply Hrest. lia.
Qed.

(** X19: with one spare element behind the [X * Y] weights, and
    [X * Y] below the largest [unsigned], the call
    returns; pixel (ix, iy) is stored at index [iy * X + ix] and holds
    its weight divided by the sum of all weights; the spare element
    [X * Y] is divided by that sum as well; later elements keep their
    values. *)
Theorem calcGaussianKernel2d_spare_element :
  Ieee.leb F64.zero rSigma = true ->
  rCenterX <= rnWeightsX -> rCenterY <= rnWeightsY ->
  let normalize v :=
    Ieee.convert T_Prec
      (F64.div (F64.of_float v)
         (kernelSum2d weight2d rSigma rCenterX rCenterY rnWeightsX rnWeightsY)) in
  exists s,
    GaussianKernel.calcGaussianKernel2d NDEBUG weight2d T_Prec rSigma rCenterX rCenterY
      rWeights rnWeightsX rnWeightsY = Ok s
    /\ length (GaussianKernel.weights2d s) = length rWeights
    /\ (forall ix iy : Z,
          0 <= ix < rnWeightsX -> 0 <= iy < rnWeightsY ->
          GaussianKernel.weights2d s !! Z.to_nat (iy * rnWeightsX + ix)
          = Some (normalize
                    (weight2d rSigma rCenterX rCenterY rnWeightsX rnWeightsY ix iy)))
    /\ GaussianKernel.weights2d s !! Z.to_nat (rnWeightsX * rnWeightsY)
       = normalize <$> rWeights !! Z.to_nat (rnWeightsX * rnWeightsY)
    /\ (forall j : nat, rnWeightsX * rnWeightsY < Z.of_nat j ->
          GaussianKernel.weights2d s !! j = rWeights !! j).
Proof using HX HY Hsmall Hspare.
  intros Hsigma Hcx Hcy normalize.
  unfold GaussianKernel.calcGaussianKernel2d. rewrite Hsigma.
  replace (0 <=? rnWeightsX) with true by (symmetry; apply Z.leb_le; lia).
  replace (0 <=? rnWeightsY) with true by (symmetry; apply Z.leb_le; lia).
  replace (rCenterX <=? rnWeightsX) with true by (symmetry; apply Z.leb_le; lia).
  replace (rCenterY <=? rnWeightsY) with true by (symmetry; apply Z.leb_le; lia).
  replace (c_assert NDEBUG true) with (Ok tt) by (destruct NDEBUG; reflexivity).
  cbn [result_bind]. cbv zeta.
  destruct fill_filled as (s0 & -> & Hlen0 & Hsum0 & Hdone0 & Hrest0).
  assert (Hw : wrap_unsigned (rnWeightsX * rnWeightsY) = rnWeightsX * rnWeightsY).
  { unfold wrap_unsigned. apply Z.mod_small. nia. }
  rewrite Hw.
  destruct (Z.eqb_spec (rnWeightsX * rnWeightsY) (2 ^ 32 - 1)) as [Hlast|_]; [lia|].
  assert (Hnorm : normalized2d T_Prec s0 (S (Z.to_nat (rnWeightsX * rnWeightsY)))
                    (for_range (S (Z.to_nat (rnWeightsX * rnWeightsY)))
                       (fun i st => GaussianKernel.normalizeStep T_Prec (Z.of_nat i) st)
                       (Ok s0))).
  { apply (for_range_ind (fun i st => normalized2d T_Prec s0 i st)).
    - exists s0. repeat split; try reflexivity. intros j Hj. lia.
    - intros i st Hi Hst. apply normalizeStep_normalized; [lia|exact Hst]. }
  destruct Hnorm as (s & -> & Hlen & Hsum & Hdone & Hrest).
  assert (Hs0 : GaussianKernel.sum2d s0
                = kernelSum2d weight2d rSigma rCenterX rCenterY rnWeightsX rnWeightsY).
  { rewrite Hsum0. reflexivity. }
  rewrite Hs0 in Hdone.
  exists s. split; [reflexivity|]. split; [lia|]. split; [|split].
  - intros ix iy Hx Hy. pose proof (index2d_bound ix iy Hx Hy) as Hidx.
    rewrite Hdone by lia. rewrite (Hdone0 ix iy Hx Hy) by lia. reflexivity.
  - rewrite Hdone by lia. rewrite Hrest0 by lia. reflexivity.
  - intros j Hj. rewrite Hrest by lia. apply Hrest0. lia.
Qed.

End Kernel2dSpare.

Lemma calcGaussianKernel2d_spare_element_witness :
  exists s,
    GaussianKernel.calcGaussianKernel2d false (fun _ _ _ _ _ ix iy => F32.of_Z (ix + iy + 1))
      Ieee.binary32 F64.one 0 0 kernel2d_example_buffer 3 2 = Ok s
    /\ length (GaussianKernel.weights2d s) = length kernel2d_example_buffer.
Proof.
  destruct (calcGaussianKernel2d_spare_element false
              (fun _ _ _ _ _ ix iy => F32.of_Z (ix + iy + 1))
              Ieee.binary32 F64.one 0 0 kernel2d_example_buffer 3 2
              ltac:(lia) ltac:(lia) ltac:(reflexivity) ltac:(simpl; lia)
              ltac:(reflexivity) ltac:(lia) ltac:(lia))
    as (s & Hs & Hlen & _).
  exists s. split; [exact Hs | exact Hlen].
Defined.

(** ** Bit masks *)

Lemma land_pow2 (x k : Z) :
  0 <= k -> (Z.land x (2 ^ k) =? 0) = negb (Z.testbit x k).
Proof.
  intros Hk. destruct (Z.testbit x k) eqn:Hbit; cbn [negb].
  - apply Z.eqb_neq. intros Hz.
    assert (Hb : Z.testbit (Z.land x (2 ^ k)) k = true).
    { rewrite Z.land_spec, Hbit, Z.pow2_bits_true by lia. reflexivity. }
    rewrite Hz, Z.bits_0 in Hb. discriminate.
  - apply Z.eqb_eq. apply Z.bits_inj'. intros n Hn.
    rewrite Z.land_spec, Z.bits_0.
    destruct (Z.eq_dec n k) as [->|Hne].
    + rewrite Hbit. reflexivity.
    + rewrite Z.pow2_bits_false by lia. apply andb_false_r.
Qed.

(** X20: for a field of 1 to 32 bits at an offset below 32, [bfe]
    returns the word with every bit outside the field cleared; the field
    stays at its place, it is not moved down to bit 0. *)
Theorem bfe_bits (src offset nBits : Z) :
  0 <= src < 2 ^ 32 -> 0 <= offset < 32 -> 1 <= nBits <= 32 ->
  exists v,
    BitMask.bfe src offset nBits = Ok v
    /\ forall i : Z, 0 <= i ->
         Z.testbit v i
         = Z.testbit src i && (offset <=? i) && (i <? offset + nBits).
Proof.
  intros Hsrc Hoff Hn. unfold BitMask.bfe.
  assert (Hw : wrap_unsigned (32 - nBits) = 32 - nBits).
  { unfold wrap_unsigned. apply Z.mod_small. change (2 ^ 32) with 4294967296. lia. }
  rewrite Hw.
  replace (32 - nBits <? 32) with true by (symmetry; apply Z.ltb_lt; lia).
  replace (offset <? 32) with true by (symmetry; apply Z.ltb_lt; lia).
  cbn [andb]. eexists. split; [reflexivity|].
  intros i Hi. rewrite Z.land_spec. unfold wrap_unsigned.
  change 4294967295 with (Z.ones 32).
  destruct (Z.ltb_spec i 32) as [Hlt|Hge].
  - rewrite Z.mod_pow2_bits_low by lia.
    rewrite Z.shiftl_spec by lia.
    destruct (Z.leb_spec offset i) as [Hle|Hgt].
    + rewrite Z.shiftr_spec by lia.
      destruct (Z.ltb_spec i (offset + nBits)) as [Hin|Hout].
      * rewrite Z.ones_spec_low by lia. destruct (Z.testbit src i); reflexivity.
      * rewrite Z.ones_spec_high by lia. destruct (Z.testbit src i); reflexivity.
    + rewrite Z.testbit_neg_r by lia. destruct (Z.testbit src i); reflexivity.
  - rewrite Z.mod_pow2_bits_high by lia.
    assert (Hs : Z.testbit src i = false).
    { destruct (Z.eq_dec src 0) as [->|Hne]; [apply Z.bits_0|].
      apply Z.bits_above_log2; [lia|].
      apply Z.lt_le_trans with 32; [|lia]. apply Z.log2_lt_pow2; lia. }
    rewrite Hs. reflexivity.
Qed.

Lemma bfe_bits_witness :
  exists v,
    BitMask.bfe 858993459 4 1 = Ok v
    /\ forall i : Z, 0 <= i ->
         Z.testbit v i = Z.testbit 858993459 i && (4 <=? i) && (i <? 4 + 1).
Proof.
  apply (bfe_bits 858993459 4 1); [change (2 ^ 32) with 4294967296; lia | lia | lia].
Defined.

Section UnpackProperties.

Context {T_MASK : Type} `{Inhabited T_MASK}.
Variable of_bool : bool -> T_MASK.
Variable nBits : Z.
Variable ceilDiv : Z -> Z -> Z.
Variable NDEBUG : bool.
Variable rMask : list T_MASK.
Variable rPackedBits : list Z.
Variable nElements : Z.

Hypothesis HnBits : 0 < nBits.
Hypothesis Hmask : 0 <= nElements <= Z.of_nat (length rMask).
Hypothesis Hpacked : nElements <= nBits * Z.of_nat (length rPackedBits).
Hypothesis HceilDiv : nElements <= ceilDiv nElements nBits * nBits.

Local Abbreviation unpackBit := (BitMask.unpackBit of_bool nBits ceilDiv NDEBUG).
Local Abbreviation unpackWord := (BitMask.unpackWord of_bool nBits ceilDiv NDEBUG).
Local Abbreviation unpackWords := (BitMask.unpackWords of_bool nBits ceilDiv NDEBUG).
Local Abbreviation done := (unpacked of_bool nBits rPackedBits rMask).

Lemma unpackBit_step (w : Z) (b : nat) (st : result (list T_MASK * Z * Z)) :
  0 <= w -> w * nBits < nElements -> Z.of_nat b < nBits ->
  (exists m bm,
      st = Ok (m, Z.min (w * nBits + Z.of_nat b) nElements, bm)
      /\ done (Z.min (w * nBits + Z.of_nat b) nElements) m
      /\ (w * nBits + Z.of_nat b <= nElements -> bm = 2 ^ (nBits - 1 - Z.of_nat b))) ->
  exists m bm,
    unpackBit rPackedBits nElements w st
    = Ok (m, Z.min (w * nBits + Z.of_nat (S b)) nElements, bm)
    /\ done (Z.min (w * nBits + Z.of_nat (S b)) nElements) m
    /\ (w * nBits + Z.of_nat (S b) <= nElements
        -> bm = 2 ^ (nBits - 1 - Z.of_nat (S b))).
Proof using HnBits Hmask Hpacked HceilDiv.
  intros Hw Hstart Hb (m & bm & -> & (Hlen & Hdone & Hrest) & Hbm).
  unfold BitMask.unpackBit. cbn [result_bind].
  destruct (Z.leb_spec nElements (Z.min (w * nBits + Z.of_nat b) nElements))
    as [Hbreak|Hgo].
  - exists m, bm. rewrite !Z.min_r by lia.
    rewrite Z.min_r in Hdone, Hrest by lia.
    split; [reflexivity|]. split; [split; [exact Hlen|split; assumption]|]. lia.
  - assert (He : Z.min (w * nBits + Z.of_nat b) nElements = w * nBits + Z.of_nat b)
      by lia.
    rewrite He in *. specialize (Hbm ltac:(lia)). subst bm.
    assert (Hpow : 0 < 2 ^ (nBits - 1 - Z.of_nat b)) by (apply Z.pow_pos_nonneg; lia).
    replace (2 ^ (nBits - 1 - Z.of_nat b) =? 0) with false
      by (symmetry; apply Z.eqb_neq; lia).
    replace (w * nBits + Z.of_nat b <? nElements) with true
      by (symmetry; apply Z.ltb_lt; lia).
    replace (w <? ceilDiv nElements nBits) with true
      by (symmetry; apply Z.ltb_lt; nia).
    cbn [negb]. replace (c_assert NDEBUG true) with (Ok tt)
      by (destruct NDEBUG; reflexivity).
    cbn [result_bind]. unfold BitMask.read, BitMask.write.
    replace (0 <=? w) with true by (symmetry; apply Z.leb_le; lia).
    replace (w <? Z.of_nat (length rPackedBits)) with true
      by (symmetry; apply Z.ltb_lt; nia).
    replace (0 <=? w * nBits + Z.of_nat b) with true
      by (symmetry; apply Z.leb_le; nia).
    replace (w * nBits + Z.of_nat b <? Z.of_nat (length m)) with true
      by (symmetry; apply Z.ltb_lt; lia).
    cbn [andb result_bind].
    eexists. eexists. split.
    { f_equal. f_equal. f_equal. lia. }
    assert (He' : Z.min (w * nBits + Z.of_nat (S b)) nElements
                  = w * nBits + Z.of_nat b + 1) by lia.
    rewrite He'. split; [split; [|split]|].
    + rewrite length_insert. exact Hlen.
    + intros i Hi. destruct (Z.eq_dec i (w * nBits + Z.of_nat b)) as [->|Hne].
      * rewrite list_lookup_insert_eq by nia. f_equal. f_equal.
        rewrite land_pow2 by lia. rewrite negb_involutive.
        unfold packedBit.
        assert (Hq : (w * nBits + Z.of_nat b) / nBits = w)
          by (symmetry; apply (Z.div_unique _ _ _ (Z.of_nat b)); lia).
        assert (Hr : (w * nBits + Z.of_nat b) mod nBits = Z.of_nat b)
          by (symmetry; apply (Z.mod_unique _ _ w); lia).
        rewrite Hq, Hr. reflexivity.
      * rewrite list_lookup_insert_ne by nia. apply Hdone. lia.
    + intros j Hj. rewrite list_lookup_insert_ne by nia. apply Hrest. lia.
    + intros _. rewrite Z.shiftr_div_pow2 by lia.
      change (2 ^ 1) with 2.
      destruct (Z.eq_dec (nBits - 1 - Z.of_nat b) 0) as [Hz|Hnz].
      * rewrite Hz. replace (nBits - 1 - Z.of_nat (S b)) with (-1) by lia.
        reflexivity.
      * replace (nBits - 1 - Z.of_nat b) with (Z.succ (nBits - 1 - Z.of_nat (S b)))
          by lia.
        rewrite Z.pow_succ_r by lia. rewrite Z.mul_comm, Z.div_mul by lia.
        reflexivity.
Qed.

Lemma unpackWord_done (w : Z) (m : list T_MASK) :
  0 <= w -> w * nBits < nElements -> done (w * nBits) m ->
  exists m',
    unpackWord rPackedBits nElements w m (w * nBits)
    = Ok (m', Z.min ((w + 1) * nBits) nElements)
    /\ done (Z.min ((w + 1) * nBits) nElements) m'.
Proof using HnBits Hmask Hpacked HceilDiv.
  intros Hw Hstart Hdone. unfold BitMask.unpackWord.
  assert (Hloop :
    exists m' bm,
      for_range (Z.to_nat nBits) (fun _ st => unpackBit rPackedBits nElements w st)
        (Ok (m, w * nBits, Z.shiftl 1 (nBits - 1)))
      = Ok (m', Z.min (w * nBits + Z.of_nat (Z.to_nat nBits)) nElements, bm)
      /\ done (Z.min (w * nBits + Z.of_nat (Z.to_nat nBits)) nElements) m'
      /\ (w * nBits + Z.of_nat (Z.to_nat nBits) <= nElements
          -> bm = 2 ^ (nBits - 1 - Z.of_nat (Z.to_nat nBits)))).
  { apply (for_range_ind
             (fun b st =>
                exists m' bm,
                  st = Ok (m', Z.min (w * nBits + Z.of_nat b) nElements, bm)
                  /\ done (Z.min (w * nBits + Z.of_nat b) nElements) m'
                  /\ (w * nBits + Z.of_nat b <= nElements
                      -> bm = 2 ^ (nBits - 1 - Z.of_nat b)))).
    - exists m, (Z.shiftl 1 (nBits - 1)).
      replace (Z.min (w * nBits + Z.of_nat 0) nElements) with (w * nBits) by lia.
      split; [reflexivity|]. split; [exact Hdone|].
      intros _. rewrite Z.shiftl_1_l. f_equal. lia.
    - intros b st Hb Hst. apply unpackBit_step; [lia|lia|lia|exact Hst]. }
  destruct Hloop as (m' & bm & -> & Hdone' & _). cbn [result_bind fst snd].
  replace (w * nBits + Z.of_nat (Z.to_nat nBits)) with ((w + 1) * nBits) in Hdone'
    by lia.
  exists m'. split; [|exact Hdone'].
  f_equal. f_equal. lia.
Qed.

Lemma unpackWords_done (fuel : nat) (w : Z) (m : list T_MASK) :
  0 <= w -> nElements <= w * nBits + Z.of_nat fuel ->
  done (Z.min (w * nBits) nElements) m ->
  exists m',
    unpackWords fuel rPackedBits nElements w m (Z.min (w * nBits) nElements)
    = Some (Ok m')
    /\ done nElements m'.
Proof using HnBits Hmask Hpacked HceilDiv.
  revert w m. induction fuel as [|fuel IH]; intros w m Hw Hfuel Hdone.
  - cbn [BitMask.unpackWords].
    destruct (Z.ltb_spec (Z.min (w * nBits) nElements) nElements); [lia|].
    exists m. split; [reflexivity|].
    replace (Z.min (w * nBits) nElements) with nElements in Hdone by lia.
    exact Hdone.
  - cbn [BitMask.unpackWords].
    destruct (Z.ltb_spec (Z.min (w * nBits) nElements) nElements) as [Hlt|Hge].
    + assert (He : Z.min (w * nBits) nElements = w * nBits) by lia.
      rewrite He in *.
      destruct (unpackWord_done w m Hw ltac:(lia) Hdone) as (m1 & -> & Hdone1).
      apply IH; [lia|nia|exact Hdone1].
    + exists m. split; [reflexivity|].
      replace (Z.min (w * nBits) nElements) with nElements in Hdone by lia.
      exact Hdone.
Qed.

Lemma unpackBitMask_done :
  exists m,
    BitMask.unpackBitMask of_bool nBits ceilDiv NDEBUG (Z.to_nat nElements)
      rMask rPackedBits nElements = Some (Ok m)
    /\ done nElements m.
Proof using HnBits Hmask Hpacked HceilDiv.
  unfold BitMask.unpackBitMask.
  destruct (unpackWords_done (Z.to_nat nElements) 0 rMask ltac:(lia) ltac:(lia))
    as (m & Hrun & Hdone).
  { replace (Z.min (0 * nBits) nElements) with 0 by lia.
    split; [reflexivity|]. split; [intros i Hi; lia|reflexivity]. }
  replace (Z.min (0 * nBits) nElements) with 0 in Hrun by lia.
  exists m. split; [exact Hrun|exact Hdone].
Qed.

(** X21: [unpackBitMask] returns without a failed assertion and without
    an access outside its arrays; element [i] of the first [nElements]
    is the conversion of bit [nBits - 1 - i mod nBits] of word
    [i / nBits] (most significant bit first), and the elements from
    [nElements] on keep their values.  [nElements] passes of the outer
    loop are enough. *)
Theorem unpackBitMask_unpacks :
  exists m,
    BitMask.unpackBitMask of_bool nBits ceilDiv NDEBUG (Z.to_nat nElements)
      rMask rPackedBits nElements = Some (Ok m)
    /\ length m = length rMask
    /\ (forall i : Z, 0 <= i < nElements ->
          m !! Z.to_nat i
          = Some (of_bool
                    (Z.testbit (rPackedBits !!! Z.to_nat (i / nBits))
                       (nBits - 1 - i mod nBits))))
    /\ (forall j : nat, nElements <= Z.of_nat j -> m !! j = rMask !! j).
Proof using HnBits Hmask Hpacked HceilDiv.
  destruct unpackBitMask_done as (m & Hrun & Hdone).
  exists m. split; [exact Hrun|exact Hdone].
Qed.

(** X22: for 32-bit words the unpacked mask agrees with [bfe], as the
    visual check of the test prints it: element [i] is the conversion of
    [bfe( packed[i / 32], 31 - i mod 32, 1 ) != 0]. *)
Theorem unpackBitMask_bfe :
  nBits = 32 ->
  Forall (fun packed => 0 <= packed < 2 ^ 32) rPackedBits ->
  exists m,
    BitMask.unpackBitMask of_bool nBits ceilDiv NDEBUG (Z.to_nat nElements)
      rMask rPackedBits nElements = Some (Ok m)
    /\ forall i : Z, 0 <= i < nElements ->
         exists v,
           BitMask.bfe (rPackedBits !!! Z.to_nat (i / 32)) (31 - i mod 32) 1 = Ok v
           /\ m !! Z.to_nat i = Some (of_bool (negb (v =? 0))).
Proof using HnBits Hmask Hpacked HceilDiv.
  intros Hbits Hwords.
  destruct unpackBitMask_done as (m & Hrun & _ & Hdone & _).
  exists m. split; [exact Hrun|]. intros i Hi.
  pose proof (Z.mod_pos_bound i 32 ltac:(lia)) as Hmod.
  unfold BitMask.bfe.
  change (wrap_unsigned (32 - 1)) with 31.
  change (Z.shiftr 4294967295 31) with 1.
  replace (31 - i mod 32 <? 32) with true by (symmetry; apply Z.ltb_lt; lia).
  cbn [Z.ltb Z.compare andb]. eexists. split; [reflexivity|].
  rewrite (Hdone i Hi). f_equal. f_equal. unfold packedBit. rewrite Hbits.
  rewrite Z.shiftl_1_l.
  assert (Hsmall : wrap_unsigned (2 ^ (31 - i mod 32)) = 2 ^ (31 - i mod 32)).
  { unfold wrap_unsigned. apply Z.mod_small. split; [apply Z.pow_nonneg; lia|].
    apply Z.pow_lt_mono_r; lia. }
  rewrite Hsmall, Z.land_comm, land_pow2 by lia.
  rewrite negb_involutive. f_equal.
Qed.

End UnpackProperties.

Lemma unpackBitMask_unpacks_witness :
  exists m,
    BitMask.unpackBitMask id 32 unpack_example_ceilDiv false (Z.to_nat 30)
      unpack_example_mask unpack_example_packed 30 = Some (Ok m)
    /\ length m = length unpack_example_mask
    /\ (forall i : Z, 0 <= i < 30 ->
          m !! Z.to_nat i
          = Some (id (Z.testbit (unpack_example_packed !!! Z.to_nat (i / 32))
                        (32 - 1 - i mod 32))))
    /\ (forall j : nat, 30 <= Z.of_nat j -> m !! j = unpack_example_mask !! j).
Proof.
  apply (unpackBitMask_unpacks id 32 unpack_example_ceilDiv false
           unpack_example_mask unpack_example_packed 30).
  - lia.
  - simpl. lia.
  - simpl. lia.
  - vm_compute. discriminate.
Defined.

Lemma unpackBitMask_bfe_witness :
  exists m,
    BitMask.unpackBitMask id 32 unpack_example_ceilDiv false (Z.to_nat 30)
      unpack_example_mask unpack_example_packed 30 = Some (Ok m)
    /\ forall i : Z, 0 <= i < 30 ->
         exists v,
           BitMask.bfe (unpack_example_packed !!! Z.to_nat (i / 32)) (31 - i mod 32) 1
           = Ok v
           /\ m !! Z.to_nat i = Some (id (negb (v =? 0))).
Proof.
  apply (unpackBitMask_bfe id 32 unpack_example_ceilDiv false
           unpack_example_mask unpack_example_packed 30).
  - lia.
  - simpl. lia.
  - simpl. lia.
  - vm_compute. discriminate.
  - reflexivity.
  - repeat constructor; vm_compute; discriminate.
Defined.

(** ** [compareFloat] *)


Section FormatSigns.
Variables prec emax : Z.
Hypothesis Hprec : 1 < prec.
Hypothesis Hemax : prec < emax.

Lemma pack_sign (sx : bool) (m : positive) (e : Z) :
  e <= fexp prec emax (Zpos (digits2_pos m) + e) ->
  let r := binary_round_aux prec emax sx (Zpos m) e loc_Exact in
  r = S754_zero sx \/ (exists p e2, r = S754_finite sx p e2) \/ r = S754_infinity sx.
Proof using Hprec Hemax.
  intros He r. unfold r.
  rewrite (binary_round_aux_rnd prec emax Hprec Hemax) by exact He.
  pose proof (fexp_ge_emin prec emax Hprec Hemax (Zpos (digits2_pos m) + e)) as He1.
  destruct (rnd_cases prec emax Hprec Hemax m e He) as [Hz | [Hc | (p & -> & Hcan)]].
  - rewrite Hz, (pack_zero prec emax Hprec Hemax). left. reflexivity.
  - destruct (pow2_prec_pos prec emax Hprec Hemax) as (p & p' & Hp & Hp').
    rewrite Hc, <- Hp.
    rewrite (pack_carry prec emax Hprec Hemax sx _ p p') by assumption.
    right. destruct (_ <=? _); [left; eauto | right; reflexivity].
  - rewrite (pack_canonical prec emax Hprec Hemax) by exact Hcan.
    right. destruct (_ <=? _); [left; eauto | right; reflexivity].
Qed.

(** Rounding keeps the sign and never gives a NaN. *)
Lemma binary_round_sign (sx : bool) (m : positive) (e : Z) :
  let r := binary_round prec emax sx m e in
  r = S754_zero sx \/ (exists p e2, r = S754_finite sx p e2) \/ r = S754_infinity sx.
Proof using Hprec Hemax.
  intros r. unfold r.
  destruct (binary_round_aligned prec emax Hprec Hemax sx m e)
    as (m' & e' & -> & He' & _ & _).
  apply pack_sign. exact He'.
Qed.

End FormatSigns.

(** The magnitude of a rounded value does not depend on the sign. *)
Lemma binary_round_abs (prec emax : Z) (sx : bool) (m : positive) (e : Z) :
  SFabs (binary_round prec emax sx m e) = binary_round prec emax false m e.
Proof.
  unfold binary_round. destruct (shl_align m e _) as [mz ez].
  unfold binary_round_aux.
  destruct (shr_fexp prec emax (Zpos mz) ez loc_Exact) as [mrs e1].
  destruct (shr_fexp prec emax _ e1 loc_Exact) as [mrs2 e2].
  destruct (shr_m mrs2); [reflexivity| |reflexivity].
  destruct (e2 <=? emax - prec); reflexivity.
Qed.

Lemma convert_abs (fmt : Ieee.format) (x : float) :
  SFabs (Ieee.convert fmt x) = Ieee.convert fmt (SFabs x).
Proof.
  destruct x as [s|s| |s m e]; try reflexivity. apply binary_round_abs.
Qed.

Lemma binary_normalize_abs (prec emax z e : Z) :
  SFabs (binary_normalize prec emax (- z) e false)
  = SFabs (binary_normalize prec emax z e false).
Proof.
  destruct z as [|p|p]; [reflexivity| |].
  - change (SFabs (binary_round prec emax true p e)
            = SFabs (binary_round prec emax false p e)).
    rewrite !binary_round_abs. reflexivity.
  - change (SFabs (binary_round prec emax false p e)
            = SFabs (binary_round prec emax true p e)).
    rewrite !binary_round_abs. reflexivity.
Qed.

(** [|a - b| = |b - a|], bit for bit. *)
Lemma sub_abs_comm (fmt : Ieee.format) (a b : float) :
  SFabs (Ieee.sub fmt a b) = SFabs (Ieee.sub fmt b a).
Proof.
  unfold Ieee.sub.
  destruct a as [sa|sa| |sa ma ea], b as [sb|sb| |sb mb eb]; cbn [SFsub];
    try reflexivity;
    try (destruct sa, sb; reflexivity).
  rewrite (Z.min_comm eb ea).
  set (A := cond_Zopp sa _). set (B := cond_Zopp sb _).
  replace (B - A) with (- (A - B)) by lia. symmetry. apply binary_normalize_abs.
Qed.

Lemma c_max_comm (x y : float) :
  x <> S754_nan -> y <> S754_nan ->
  CompareFloat.c_max (SFabs x) (SFabs y) = CompareFloat.c_max (SFabs y) (SFabs x).
Proof.
  intros Hx Hy. unfold CompareFloat.c_max, Ieee.ltb, SFltb.
  destruct x as [sx|sx| |sx mx ex], y as [sy|sy| |sy my ey]; try congruence;
    cbn [SFabs SFcompare]; try reflexivity.
  destruct (Z.compare_spec ex ey) as [->|Hlt|Hgt].
  - rewrite Z.compare_refl.
    change (Pos.compare_cont Eq mx my) with (Pos.compare mx my).
    change (Pos.compare_cont Eq my mx) with (Pos.compare my mx).
    destruct (Pos.compare_spec mx my) as [->|Hlt|Hgt].
    + rewrite Pos.compare_refl. reflexivity.
    + rewrite (proj2 (Pos.compare_gt_iff my mx) Hlt). reflexivity.
    + rewrite (proj2 (Pos.compare_lt_iff my mx) Hgt). reflexivity.
  - rewrite (proj2 (Z.compare_gt_iff ey ex) Hlt). reflexivity.
  - rewrite (proj2 (Z.compare_lt_iff ey ex) Hgt). reflexivity.
Qed.

(** X23: a NaN as first argument is never accepted, whatever the second
    argument and the margin are; a NaN as second argument is accepted
    exactly when the first argument is a zero. *)
Theorem compareFloat_nan (T_PREC T_FABS : Ieee.format) (x marginFactor : float) :
  CompareFloat.compareFloat T_PREC T_FABS S754_nan x marginFactor = false
  /\ CompareFloat.compareFloat T_PREC T_FABS x S754_nan marginFactor = is_zero x.
Proof.
  split.
  - reflexivity.
  - destruct x as [s|s| |s m e]; reflexivity.
Qed.

(** X24: an infinite argument is never accepted: even two equal
    infinities do not compare equal. *)
Theorem compareFloat_infinite (T_PREC T_FABS : Ieee.format) (a b marginFactor : float) :
  is_infinite a = true \/ is_infinite b = true ->
  CompareFloat.compareFloat T_PREC T_FABS a b marginFactor = false.
Proof.
  intros [Ha|Hb].
  - destruct a as [sa|sa| |sa ma ea]; try discriminate.
    destruct b as [sb|sb| |sb mb eb]; try reflexivity.
    destruct sa, sb; reflexivity.
  - destruct b as [sb|sb| |sb mb eb]; try discriminate.
    destruct a as [sa|sa| |sa ma ea]; try reflexivity.
    destruct sa, sb; reflexivity.
Qed.

(** X26: on arguments that are not NaN the comparison is symmetric. *)
Theorem compareFloat_symmetric (T_PREC T_FABS : Ieee.format) (a b marginFactor : float) :
  a <> S754_nan -> b <> S754_nan ->
  CompareFloat.compareFloat T_PREC T_FABS a b marginFactor
  = CompareFloat.compareFloat T_PREC T_FABS b a marginFactor.
Proof.
  intros Ha Hb. unfold CompareFloat.compareFloat.
  rewrite (c_max_comm a b Ha Hb).
  rewrite !convert_abs, (sub_abs_comm T_PREC a b). reflexivity.
Qed.

Lemma c_max_same (x : float) :
  x <> S754_nan -> CompareFloat.c_max (SFabs x) (SFabs x) = SFabs x.
Proof.
  intros Hx. unfold CompareFloat.c_max. destruct (Ieee.ltb _ _); reflexivity.
Qed.

Lemma sub_self (fmt : Ieee.format) (s : bool) (m : positive) (e : Z) :
  Ieee.sub fmt (S754_finite s m e) (S754_finite s m e) = S754_zero false.
Proof.
  unfold Ieee.sub. cbn [SFsub]. rewrite Z.sub_diag. reflexivity.
Qed.

Lemma leb_zero_nonneg (x : float) :
  x = S754_zero false \/ x = S754_zero true
  \/ (exists p e, x = S754_finite false p e) \/ x = S754_infinity false ->
  Ieee.leb (S754_zero false) x = true.
Proof.
  intros [-> | [-> | [(p & e & ->) | ->]]]; reflexivity.
Qed.

Lemma epsilon_canonical (fmt : Ieee.format) :
  format_ok fmt ->
  exists p,
    CompareFloat.epsilon fmt = S754_finite false p (2 - 2 * Ieee.fmt_prec fmt)
    /\ Rounding.canonical (Ieee.fmt_prec fmt) (Ieee.fmt_emax fmt) p
         (2 - 2 * Ieee.fmt_prec fmt).
Proof.
  intros [Hprec Hemax]. unfold CompareFloat.epsilon.
  destruct (pow2_prec_pos _ _ Hprec Hemax) as (p & p' & Hp & Hp').
  exists p'. rewrite <- Hp'. split; [reflexivity|].
  apply (canonical_half _ _ Hprec Hemax); [exact Hp'|]. unfold emin. lia.
Qed.

(** The margin [marginFactor * epsilon] is not negative when
    [marginFactor] is not. *)
Lemma margin_nonneg (fmt : Ieee.format) (marginFactor : float) :
  format_ok fmt ->
  Ieee.valid fmt marginFactor = true ->
  Ieee.leb (S754_zero false) marginFactor = true ->
  let x := Ieee.mul fmt marginFactor (CompareFloat.epsilon fmt) in
  x = S754_zero false \/ x = S754_zero true
  \/ (exists p e, x = S754_finite false p e) \/ x = S754_infinity false.
Proof.
  intros Hok Hvalid Hpos x. unfold x.
  destruct (epsilon_canonical fmt Hok) as (pe & -> & Hcan).
  destruct Hok as [Hprec Hemax]. unfold Ieee.mul.
  destruct marginFactor as [s|s| |s m e]; try discriminate.
  - destruct s; cbn [SFmul xorb]; tauto.
  - destruct s; [discriminate|]. cbn [SFmul xorb]. tauto.
  - destruct s; [discriminate|]. cbn [SFmul xorb].
    unfold Ieee.valid in Hvalid. cbn [valid_binary] in Hvalid.
    apply (bounded_true _ _ Hprec Hemax) in Hvalid as [Hm _].
    pose proof (mul_aligned _ _ Hprec Hemax m pe e _ Hm Hcan) as Hal.
    destruct (pack_sign _ _ Hprec Hemax false (m * pe) _ Hal) as [-> | [(p & e2 & ->) | ->]];
      eauto 6.
Qed.

Lemma convert_nonneg (fmt : Ieee.format) (x : float) :
  format_ok fmt ->
  x = S754_zero false \/ x = S754_zero true
  \/ (exists p e, x = S754_finite false p e) \/ x = S754_infinity false ->
  let y := Ieee.convert fmt x in
  y = S754_zero false \/ y = S754_zero true
  \/ (exists p e, y = S754_finite false p e) \/ y = S754_infinity false.
Proof.
  intros [Hprec Hemax] [-> | [-> | [(p & e & ->) | ->]]] y; unfold y; cbn [Ieee.convert];
    try tauto.
  destruct (binary_round_sign _ _ Hprec Hemax false p e) as [-> | [(p' & e' & ->) | ->]];
    eauto 6.
Qed.

(** X25: a finite value compares equal to itself, whatever margin that
    is not negative is given. *)
Theorem compareFloat_reflexive (T_PREC T_FABS : Ieee.format) (a marginFactor : float) :
  format_ok T_PREC -> format_ok T_FABS -> format_le T_PREC T_FABS ->
  Ieee.valid T_PREC a = true -> Ieee.is_nan a = false -> is_infinite a = false ->
  Ieee.valid T_PREC marginFactor = true ->
  Ieee.leb (S754_zero false) marginFactor = true ->
  CompareFloat.compareFloat T_PREC T_FABS a a marginFactor = true.
Proof.
  intros Hok Hok' [Hlep Hlee] Ha Hnan Hinf Hm Hpos.
  destruct a as [s|s| |s m e]; try discriminate.
  - destruct s; reflexivity.
  - unfold CompareFloat.compareFloat. rewrite c_max_same by discriminate.
    cbn [SFabs]. change (Ieee.eqb (S754_finite false m e) (Ieee.of_Z T_PREC 0)) with false.
    cbv iota. rewrite sub_self. cbn [Ieee.convert SFabs].
    assert (Hq : Ieee.div T_FABS (S754_zero false)
                   (binary_round (Ieee.fmt_prec T_FABS) (Ieee.fmt_emax T_FABS) false m e)
                 = S754_zero false).
    { destruct Hok as [Hprec Hemax], Hok' as [Hprec' Hemax'].
      unfold Ieee.valid in Ha. cbn [valid_binary] in Ha.
      apply (bounded_true _ _ Hprec Hemax) in Ha as [Hc _].
      apply (canonical_iff _ _ Hprec Hemax) in Hc as [Hemin _].
      destruct (binary_round_nonzero _ _ Hprec' Hemax' false m e) as [(p & e2 & ->)| ->];
        [unfold emin in *; lia|reflexivity|reflexivity]. }
    rewrite Hq. apply leb_zero_nonneg. apply convert_nonneg; [exact Hok'|].
    apply margin_nonneg; assumption.
Qed.

Lemma compareFloat_reflexive_witness :
  CompareFloat.compareFloat Ieee.binary32 Ieee.binary64 (F32.of_Z 5) (F32.of_Z 5) F32.one
  = true.
Proof.
  apply (compareFloat_reflexive Ieee.binary32 Ieee.binary64 (F32.of_Z 5) F32.one);
    try reflexivity; unfold format_ok, format_le; simpl; lia.
Defined.

Lemma compareFloat_infinite_witness :
  CompareFloat.compareFloat Ieee.binary32 Ieee.binary64
    (S754_infinity false) (S754_infinity false) F32.one = false.
Proof.
  apply (compareFloat_infinite Ieee.binary32 Ieee.binary64
           (S754_infinity false) (S754_infinity false) F32.one).
  left. reflexivity.
Defined.

Lemma compareFloat_symmetric_witness :
  CompareFloat.compareFloat Ieee.binary32 Ieee.binary64 (F32.of_Z 3) (F32.of_Z 4) F32.one
  = CompareFloat.compareFloat Ieee.binary32 Ieee.binary64 (F32.of_Z 4) (F32.of_Z 3) F32.one.
Proof.
  apply (compareFloat_symmetric Ieee.binary32 Ieee.binary64 (F32.of_Z 3) (F32.of_Z 4)
           F32.one); vm_compute; discriminate.
Defined.

(** ** The properties of the drivers on an image of one pixel *)



Lemma cudaHioStep_overrun_witness :
  let b := ShrinkWrap.Buffers [(F32.one, F32.zero)] [(F32.one, F32.zero)] [F32.zero]
             (F32.of_Z 3) in
  ShrinkWrap.debugCopy 1 (ShrinkWrap.hostToWriteSize 1) = Undefined
  /\ ShrinkWrap.cudaHioStep OnePixel.fft OnePixel.fft Elementwise.applyComplexModulus
       [1; 1] 1 [F32.one] ShrinkWrap.default_rHioBeta b = Undefined
  /\ ShrinkWrap.cudaHioLoop OnePixel.fft OnePixel.fft Elementwise.applyComplexModulus
       [1; 1] 1 [F32.one] ShrinkWrap.default_rHioBeta 20 b = Undefined.
Proof.
  intros b.
  destruct (cudaHioStep_overrun OnePixel.fft OnePixel.fft Elementwise.applyComplexModulus
              [1; 1] 1 [F32.one] ShrinkWrap.default_rHioBeta 20 b
              ltac:(simpl; lia)) as (Hsmall & _ & Hstep & Hloop).
  split; [apply Hsmall; simpl; lia|]. split; [exact Hstep | apply Hloop; lia].
Defined.

Lemma inner_loop_keeps_mask_witness :
  Forall (fun r =>
            ShrinkWrap.isMasked (ShrinkWrap.cr_end r)
            = ShrinkWrap.isMasked (ShrinkWrap.cr_hio_entry r)
            /\ ShrinkWrap.sigma (ShrinkWrap.cr_end r)
               = ShrinkWrap.sigma (ShrinkWrap.cr_hio_entry r)
            /\ length (ShrinkWrap.gPrevious (ShrinkWrap.cr_end r))
               = length (ShrinkWrap.gPrevious (ShrinkWrap.cr_hio_entry r)))
    (history_of (OnePixel.shrinkWrap OnePixel.image [1; 1] three_cycles)).
Proof.
  apply (inner_loop_keeps_mask false OnePixel.fft OnePixel.fft
           Elementwise.complexNormElementwise OnePixel.gaussianBlur Reduce.vectorMax
           Elementwise.applyComplexModulus Reduce.hioError
           OnePixel.image 1 1 three_cycles).
  left. reflexivity.
Defined.


